(** * SingleLinkedList<Type>: a shallow embedding of single-linked-list.h

    The container is a chain of heap nodes hanging off a sentinel node
    [head_] that is a member of the list object.  Pointers are machine
    addresses ([N], [0] is [nullptr]); the memory maps addresses to nodes;
    member functions are state transformers over that memory which may
    return, throw a C++ exception, or fault (failed [assert], null or
    dangling dereference). *)

From Stdlib Require Import ZArith Lia.
From stdpp Require Import gmap list.

Local Open Scope Z_scope.

(** ** Machine parameters *)

(** [size_t] is a 64-bit unsigned integer; arithmetic on it wraps. *)
Definition SIZE_WIDTH : Z := 64.
Definition wrap (z : Z) : Z := z mod 2 ^ SIZE_WIDTH.

(** Object addresses are non-null 64-bit words. *)
Definition nullptr : N := 0%N.
Definition addr_ok (a : N) : Prop := (0 < a < 2 ^ 64)%N.

(** Exceptions that can cross the container's interface. *)
Inductive exn : Type :=
| bad_alloc      (* operator new could not obtain storage *)
| copy_failure.  (* the copy constructor of Type threw *)

(** What the container uses of its template argument [Type]. *)
Class Element (T : Type) : Type := {
  T_default : T;            (* Type{} *)
  copy_throws : T → bool;   (* does Type(const Type&) throw on this source? *)
  T_eq : T → T → bool;      (* operator== on Type *)
  T_lt : T → T → bool       (* operator<  on Type *)
}.

Section Model.

Context {T : Type} {element : Element T}.

(** ** Data model *)

(** struct Node { Type value = Type{}; Node* next_node = nullptr; } *)
Record Node : Type := mkNode { value : T; next_node : N }.

(** class BasicIterator { Node* node_ = nullptr; }.  [Iterator] and
    [ConstIterator] share this representation. *)
Record BasicIterator : Type := Iterator { node_ : N }.

(** The memory.
    - [nodes]: every live [Node] object, keyed by its address.  The sentinel
      [head_] of a list object at address [this] is the first member of the
      object, so it lives at address [this] itself.
    - [sizes]: the member [size_] of every live list object, keyed by the
      address [this] of the object.
    - [free]: the storage [operator new] hands out, in order; [operator
      delete] returns storage to its front.
    - [destroyed]: the payloads whose destructor has run, oldest first (what
      a [DeletionSpy] payload observes). *)
Record Mem : Type := mkMem {
  nodes : gmap N Node;
  sizes : gmap N Z;
  free : list N;
  destroyed : list T
}.

Definition set_nodes (f : gmap N Node → gmap N Node) (m : Mem) : Mem :=
  mkMem (f (nodes m)) (sizes m) (free m) (destroyed m).
Definition set_sizes (f : gmap N Z → gmap N Z) (m : Mem) : Mem :=
  mkMem (nodes m) (f (sizes m)) (free m) (destroyed m).
Definition set_free (f : list N → list N) (m : Mem) : Mem :=
  mkMem (nodes m) (sizes m) (f (free m)) (destroyed m).
Definition set_destroyed (f : list T → list T) (m : Mem) : Mem :=
  mkMem (nodes m) (sizes m) (free m) (f (destroyed m)).

(** ** Computations *)

Inductive outcome (A : Type) : Type :=
| Ret (a : A) (m : Mem)      (* normal return *)
| Throw (e : exn) (m : Mem)  (* an exception leaves the call *)
| Fault                      (* failed assert, null or dangling dereference *)
| OutOfFuel.                 (* the loop bound given by the caller ran out *)
Arguments Ret {A} a m.
Arguments Throw {A} e m.
Arguments Fault {A}.
Arguments OutOfFuel {A}.

Definition M (A : Type) : Type := Mem → outcome A.

Definition ret {A} (a : A) : M A := λ m, Ret a m.

Definition bind {A B} (c : M A) (k : A → M B) : M B := λ m,
  match c m with
  | Ret a m' => k a m'
  | Throw e m' => Throw e m'
  | Fault => Fault
  | OutOfFuel => OutOfFuel
  end.

Notation "'let!' x ':=' c 'in' k" := (bind c (λ x, k))
  (at level 10, x pattern, c at level 100, k at level 200).
Notation "c ';;' k" := (bind c (λ _, k))
  (at level 100, k at level 200, right associativity).

Definition throw {A} (e : exn) : M A := λ m, Throw e m.
Definition fault {A} : M A := λ _, Fault.

(** [c] followed by [cleanup] on both the normal and the exceptional path:
    the end of a scope that owns an automatic object.  A destructor that
    does not complete is a fault. *)
Definition finally {A} (c : M A) (cleanup : M unit) : M A := λ m,
  match c m with
  | Ret a m' =>
      match cleanup m' with
      | Ret _ m'' => Ret a m''
      | OutOfFuel => OutOfFuel
      | _ => Fault
      end
  | Throw e m' =>
      match cleanup m' with
      | Ret _ m'' => Throw e m''
      | OutOfFuel => OutOfFuel
      | _ => Fault
      end
  | Fault => Fault
  | OutOfFuel => OutOfFuel
  end.

(** [c], and [handler] before the exception is rethrown. *)
Definition on_throw {A} (c : M A) (handler : M unit) : M A := λ m,
  match c m with
  | Throw e m' =>
      match handler m' with
      | Ret _ m'' => Throw e m''
      | OutOfFuel => OutOfFuel
      | _ => Fault
      end
  | o => o
  end.

(** ** Memory primitives *)

(** Reading through a [Node*]. *)
Definition load (p : N) : M Node := λ m,
  if decide (p = nullptr) then Fault
  else match nodes m !! p with
       | Some n => Ret n m
       | None => Fault
       end.

(** [p->next_node = q]. *)
Definition store_next (p q : N) : M unit :=
  let! n := load p in
  λ m, Ret tt (set_nodes <[p := mkNode (value n) q]> m).

(** Reading and writing the member [size_] of the list object at [this]. *)
Definition load_size (this : N) : M Z := λ m,
  match sizes m !! this with
  | Some z => Ret z m
  | None => Fault
  end.

Definition store_size (this : N) (z : Z) : M unit :=
  let! _ := load_size this in
  λ m, Ret tt (set_sizes <[this := z]> m).

(** [++size_] and [--size_] on a [size_t]. *)
Definition incr_size (this : N) : M unit :=
  let! z := load_size this in store_size this (wrap (z + 1)).
Definition decr_size (this : N) : M unit :=
  let! z := load_size this in store_size this (wrap (z - 1)).

(** Type(const Type&): yields a value equal to its source, or throws. *)
Definition copy_construct (v : T) : M T := λ m,
  if copy_throws v then Throw copy_failure m else Ret v m.

(** ~Type(). *)
Definition destroy_value (v : T) : M unit := λ m,
  Ret tt (set_destroyed (λ d, d ++ [v]) m).

Definition operator_new : M N := λ m,
  match free m with
  | [] => Throw bad_alloc m
  | a :: fr => Ret a (set_free (λ _, fr) m)
  end.

Definition operator_delete (a : N) : M unit := λ m,
  Ret tt (set_free (cons a) m).

(** Node(const Type& val, Node* next) : value(val), next_node(next) {} *)
Definition Node_ctor (a : N) (val : T) (next : N) : M unit :=
  let! v := copy_construct val in
  λ m, Ret tt (set_nodes <[a := mkNode v next]> m).

(** [new Node(val, next)]: if the constructor throws, the storage is given
    back before the exception propagates. *)
Definition new_Node (val : T) (next : N) : M N :=
  let! a := operator_new in
  on_throw (Node_ctor a val next) (operator_delete a);;
  ret a.

(** [delete p]: runs ~Node (which destroys the payload), frees the storage. *)
Definition delete_Node (p : N) : M unit :=
  let! n := load p in
  destroy_value (value n);;
  (λ m, Ret tt (set_nodes (delete p) m));;
  operator_delete p.

(** ** BasicIterator *)

(** operator==, operator!= (the four overloads compare [node_]). *)
Definition iter_eq (it rhs : BasicIterator) : bool := (node_ rhs =? node_ it)%N.
Definition iter_ne (it rhs : BasicIterator) : bool := negb (node_ rhs =? node_ it)%N.

(** operator++(): if (node_) node_ = node_->next_node; return *this; *)
Definition iter_incr (it : BasicIterator) : M BasicIterator :=
  if decide (node_ it = nullptr) then ret it
  else let! n := load (node_ it) in ret (Iterator (next_node n)).

(** operator*(): assert(node_ != nullptr); return node_->value; *)
Definition iter_deref (it : BasicIterator) : M T :=
  if decide (node_ it = nullptr) then fault
  else let! n := load (node_ it) in ret (value n).

(** ** SingleLinkedList: observers *)

(** [&head_], for the list object at [this]. *)
Definition head_ (this : N) : N := this.

Definition begin (this : N) : M BasicIterator :=
  let! h := load (head_ this) in ret (Iterator (next_node h)).
Definition end_ (this : N) : M BasicIterator := ret (Iterator nullptr).
Definition begin_const (this : N) : M BasicIterator :=
  let! h := load (head_ this) in ret (Iterator (next_node h)).
Definition end_const (this : N) : M BasicIterator := ret (Iterator nullptr).
Definition cbegin (this : N) : M BasicIterator :=
  let! h := load (head_ this) in ret (Iterator (next_node h)).
Definition cend (this : N) : M BasicIterator := ret (Iterator nullptr).

Definition before_begin (this : N) : M BasicIterator :=
  ret (Iterator (head_ this)).
Definition cbefore_begin (this : N) : M BasicIterator :=
  ret (Iterator (head_ this)).
Definition before_begin_const (this : N) : M BasicIterator :=
  cbefore_begin this.

Definition GetSize (this : N) : M Z := load_size this.

Definition IsEmpty (this : N) : M bool :=
  let! z := load_size this in ret (z =? 0).

(** ** SingleLinkedList: modifiers *)

(** void swap(SingleLinkedList& other) noexcept *)
Definition swap (this other : N) : M unit :=
  let! a := load (head_ this) in
  let! b := load (head_ other) in
  store_next (head_ this) (next_node b);;
  store_next (head_ other) (next_node a);;
  let! x := load_size this in
  let! y := load_size other in
  store_size this y;;
  store_size other x.

(** void PushFront(const Type& value) *)
Definition PushFront (this : N) (val : T) : M unit :=
  let! h := load (head_ this) in
  let! a := new_Node val (next_node h) in
  store_next (head_ this) a;;
  incr_size this.

(** void Clear() noexcept *)
Fixpoint Clear_loop (fuel : nat) (this : N) : M unit :=
  match fuel with
  | O => λ _, OutOfFuel
  | S fuel' =>
      let! h := load (head_ this) in
      if decide (next_node h = nullptr) then ret tt
      else
        let element := next_node h in
        let! e := load element in
        store_next (head_ this) (next_node e);;
        delete_Node element;;
        Clear_loop fuel' this
  end.

Definition Clear (fuel : nat) (this : N) : M unit :=
  Clear_loop fuel this;;
  store_size this 0.

(** Iterator InsertAfter(ConstIterator pos, const Type& value) *)
Definition InsertAfter (this : N) (pos : BasicIterator) (val : T) : M BasicIterator :=
  if decide (node_ pos = nullptr) then fault
  else
    let! p := load (node_ pos) in
    let! add_elem := new_Node val (next_node p) in
    store_next (node_ pos) add_elem;;
    incr_size this;;
    ret (Iterator add_elem).

(** void PopFront() noexcept *)
Definition PopFront (this : N) : M unit :=
  let! empty := IsEmpty this in
  if empty then ret tt
  else
    let! h := load (head_ this) in
    let erase_el := next_node h in
    let! e := load erase_el in
    store_next (head_ this) (next_node e);;
    delete_Node erase_el;;
    decr_size this.

(** Iterator EraseAfter(ConstIterator pos) noexcept *)
Definition EraseAfter (this : N) (pos : BasicIterator) : M BasicIterator :=
  (if decide (node_ pos = nullptr) then ret tt
   else
     let! p := load (node_ pos) in
     if decide (next_node p = nullptr) then ret tt
     else
       let del_elem := next_node p in
       let! d := load del_elem in
       store_next (node_ pos) (next_node d);;
       delete_Node del_elem;;
       decr_size this);;
  let! p := load (node_ pos) in
  ret (Iterator (next_node p)).

(** ** SingleLinkedList: construction, copy, destruction *)

(** The default member initialisers: [Node head_;] and [size_t size_ = 0;]. *)
Definition init_members (this : N) : M unit := λ m,
  Ret tt (set_sizes <[this := 0]>
           (set_nodes <[head_ this := mkNode T_default nullptr]> m)).

(** Destruction of the members [size_] and [head_] of the object at [this]. *)
Definition destroy_members (this : N) : M unit :=
  let! h := load (head_ this) in
  destroy_value (value h);;
  λ m, Ret tt (set_sizes (delete this) (set_nodes (delete (head_ this)) m)).

(** SingleLinkedList() = default; *)
Definition SingleLinkedList_default (this : N) : M unit := init_members this.

(** ~SingleLinkedList() { Clear(); } *)
Definition SingleLinkedList_dtor (fuel : nat) (this : N) : M unit :=
  Clear fuel this;;
  destroy_members this.

(** The body of the range-for loop of both constructors, for the list
    object [l] being built (the list itself, respectively [temp]): it appends one
    node and returns the new values of the locals [next] and [first]. *)
Definition build_step (l : N) (val : T) (next : N) (first : bool) : M (N * bool) :=
  if first then
    let! a := new_Node val nullptr in
    store_next (head_ l) a;;
    let! h := load (head_ l) in
    incr_size l;;
    ret (next_node h, false)
  else
    let! a := new_Node val nullptr in
    store_next next a;;
    let! n := load next in
    incr_size l;;
    ret (next_node n, first).

(** for (auto value : values) { ... } over an initializer list. *)
Fixpoint init_loop (this : N) (values : list T) (next : N) (first : bool) : M unit :=
  match values with
  | [] => ret tt
  | v :: values' =>
      let! val := copy_construct v in
      let! st := finally (build_step this val next first) (destroy_value val) in
      init_loop this values' st.1 st.2
  end.

(** SingleLinkedList(std::initializer_list<Type> values).  When the body
    throws, the members already constructed are destroyed. *)
Definition SingleLinkedList_init (this : N) (values : list T) : M unit :=
  init_members this;;
  on_throw
    (if decide (length values = 0%nat) then ret tt
     else init_loop this values nullptr true)
    (destroy_members this).

(** for (auto value : other) { ... } over the nodes of a list. *)
Fixpoint copy_loop (fuel : nat) (temp : N) (it last : BasicIterator)
    (next : N) (first : bool) : M unit :=
  match fuel with
  | O => λ _, OutOfFuel
  | S fuel' =>
      if iter_ne it last then
        let! x := iter_deref it in
        let! val := copy_construct x in
        let! st := finally (build_step temp val next first) (destroy_value val) in
        let! it' := iter_incr it in
        copy_loop fuel' temp it' last st.1 st.2
      else ret tt
  end.

(** SingleLinkedList(const SingleLinkedList& other).  [temp] is the address
    of the automatic object [temp] in the constructor's frame. *)
Definition SingleLinkedList_copy (fuel : nat) (this other temp : N) : M unit :=
  init_members this;;
  on_throw
    (let! empty := IsEmpty other in
     if empty then ret tt
     else
       SingleLinkedList_default temp;;
       finally
         (let! first := begin_const other in
          let! last := end_const other in
          copy_loop fuel temp first last nullptr true;;
          swap this temp)
         (SingleLinkedList_dtor fuel temp))
    (destroy_members this).

(** SingleLinkedList& operator=(const SingleLinkedList& rhs).  [temp] is the
    automatic object of this function, [temp'] the one of the copy
    constructor it calls. *)
Definition operator_assign (fuel : nat) (this rhs temp temp' : N) : M unit :=
  if decide (rhs = this) then ret tt
  else
    SingleLinkedList_copy fuel temp rhs temp';;
    finally (swap this temp) (SingleLinkedList_dtor fuel temp).

(** ** Comparison *)

(** std::equal(first1, last1, first2), as the C++ standard defines it. *)
Fixpoint std_equal (fuel : nat) (first1 last1 first2 : BasicIterator) : M bool :=
  match fuel with
  | O => λ _, OutOfFuel
  | S fuel' =>
      if iter_ne first1 last1 then
        let! x := iter_deref first1 in
        let! y := iter_deref first2 in
        if negb (T_eq x y) then ret false
        else
          let! first1' := iter_incr first1 in
          let! first2' := iter_incr first2 in
          std_equal fuel' first1' last1 first2'
      else ret true
  end.

(** std::lexicographical_compare(first1, last1, first2, last2). *)
Fixpoint std_lexicographical_compare (fuel : nat)
    (first1 last1 first2 last2 : BasicIterator) : M bool :=
  match fuel with
  | O => λ _, OutOfFuel
  | S fuel' =>
      if iter_ne first1 last1 && iter_ne first2 last2 then
        let! x := iter_deref first1 in
        let! y := iter_deref first2 in
        if T_lt x y then ret true
        else if T_lt y x then ret false
        else
          let! first1' := iter_incr first1 in
          let! first2' := iter_incr first2 in
          std_lexicographical_compare fuel' first1' last1 first2' last2
      else ret (iter_eq first1 last1 && iter_ne first2 last2)
  end.

Definition operator_eq (fuel : nat) (lhs rhs : N) : M bool :=
  let! first1 := begin_const lhs in
  let! last1 := end_const lhs in
  let! first2 := begin_const rhs in
  std_equal fuel first1 last1 first2.

Definition operator_ne (fuel : nat) (lhs rhs : N) : M bool :=
  let! b := operator_eq fuel lhs rhs in ret (negb b).

Definition operator_lt (fuel : nat) (lhs rhs : N) : M bool :=
  let! first1 := begin_const lhs in
  let! last1 := end_const lhs in
  let! first2 := begin_const rhs in
  let! last2 := end_const rhs in
  std_lexicographical_compare fuel first1 last1 first2 last2.

Definition operator_le (fuel : nat) (lhs rhs : N) : M bool :=
  let! b := operator_lt fuel rhs lhs in ret (negb b).

Definition operator_gt (fuel : nat) (lhs rhs : N) : M bool :=
  operator_lt fuel rhs lhs.

Definition operator_ge (fuel : nat) (lhs rhs : N) : M bool :=
  let! b := operator_gt fuel rhs lhs in ret (negb b).

(** A caller's front-to-back traversal:
    for (auto it = l.begin(); it != l.end(); ++it) out.push_back( *it ); *)
Fixpoint traverse_loop (fuel : nat) (it last : BasicIterator) : M (list T) :=
  match fuel with
  | O => λ _, OutOfFuel
  | S fuel' =>
      if iter_ne it last then
        let! x := iter_deref it in
        let! it' := iter_incr it in
        let! xs := traverse_loop fuel' it' last in
        ret (x :: xs)
      else ret []
  end.

Definition traverse (fuel : nat) (this : N) : M (list T) :=
  let! first := begin this in
  let! last := end_ this in
  traverse_loop fuel first last.

(** ** Representation predicates *)

(** [seg h p ns q]: starting at pointer [p], the nodes at the addresses
    [ns.*1] with the payloads [ns.*2] follow one another in [h], and the
    [next_node] of the last one is [q] (with [ns] empty, [p] is [q]). *)
Fixpoint seg (h : gmap N Node) (p : N) (ns : list (N * T)) (q : N) : Prop :=
  match ns with
  | [] => p = q
  | (a, v) :: ns' =>
      p = a ∧ a ≠ nullptr ∧ ∃ r, h !! a = Some (mkNode v r) ∧ seg h r ns' q
  end.

(** [is_list m this ns]: the list object at [this] is alive in [m]; the
    real nodes reachable from its sentinel are exactly [ns] (address and
    payload, front to back), the last link is null, the nodes are pairwise
    distinct (the chain is acyclic), and [size_] counts them. *)
Definition is_list (m : Mem) (this : N) (ns : list (N * T)) : Prop :=
  (∃ hv, seg (nodes m) (head_ this) ((head_ this, hv) :: ns) nullptr) ∧
  sizes m !! this = Some (Z.of_nat (length ns)) ∧
  NoDup (head_ this :: ns.*1).

(** The addresses a list of content [ns] at [this] occupies. *)
Definition footprint (this : N) (ns : list (N * T)) : list N :=
  head_ this :: ns.*1.

(** Well-formed memory: free storage is distinct from live storage and
    listed once, and every object sits at a non-null 64-bit address. *)
Definition mem_wf (m : Mem) : Prop :=
  NoDup (free m) ∧
  (∀ a, a ∈ free m → nodes m !! a = None ∧ addr_ok a) ∧
  (∀ a, is_Some (nodes m !! a) → addr_ok a).

(** Storage at [a] on which an object may be constructed. *)
Definition fresh_storage (m : Mem) (a : N) : Prop :=
  addr_ok a ∧ nodes m !! a = None ∧ sizes m !! a = None ∧ a ∉ free m.

(** The whole memory: [own] gives every live list object its nodes; the
    lists are well formed and pairwise share no node. *)
Definition world_inv (m : Mem) (own : gmap N (list (N * T))) : Prop :=
  mem_wf m ∧
  (∀ l, is_Some (own !! l) ↔ is_Some (sizes m !! l)) ∧
  (∀ l ns, own !! l = Some ns → is_list m l ns) ∧
  (∀ l1 l2 ns1 ns2 a, l1 ≠ l2 → own !! l1 = Some ns1 → own !! l2 = Some ns2 →
     a ∈ footprint l1 ns1 → a ∈ footprint l2 ns2 → False).

(** ** Ghost definitions for the positions of a list *)

(** The pointer at which a chain with the nodes [ns] starts. *)
Definition first_addr (ns : list (N * T)) (q : N) : N :=
  match ns with
  | [] => q
  | (a, _) :: _ => a
  end.

(** The memory after a node [a] holding [v] was linked in after [pa], and
    after the node [da] that followed [pa] was unlinked and deleted. *)
Definition mem_inserted (m : Mem) (this pa : N) (pv : T) (a : N) (v : T)
    (nxt : N) (fr : list N) (z : Z) : Mem :=
  mkMem (<[pa := mkNode pv a]> (<[a := mkNode v nxt]> (nodes m)))
        (<[this := wrap (z + 1)]> (sizes m)) fr (destroyed m).

Definition mem_erased (m : Mem) (this pa : N) (pv : T) (da : N) (dv : T)
    (nxt : N) (z : Z) : Mem :=
  mkMem (delete da (<[pa := mkNode pv nxt]> (nodes m)))
        (<[this := wrap (z - 1)]> (sizes m)) (da :: free m) (destroyed m ++ [dv]).

(** Enough storage, and no copy that throws. *)
Definition can_build (values : list T) (m : Mem) : Prop :=
  Forall (λ v, copy_throws v = false) values ∧
  (length values ≤ length (free m))%nat.

(** ** Pure counterparts of the comparison algorithms *)

(** What a scan of the first sequence against the second one computes when
    only the end of the first is tested: [None] when the second runs out. *)
Fixpoint equal_scan (xs ys : list T) : option bool :=
  match xs with
  | [] => Some true
  | x :: xs' =>
      match ys with
      | [] => None
      | y :: ys' => if T_eq x y then equal_scan xs' ys' else Some false
      end
  end.

(** Lexicographic "less than" by the elements' [T_lt]. *)
Fixpoint lex_lt (xs ys : list T) : bool :=
  match xs, ys with
  | x :: xs', y :: ys' =>
      if T_lt x y then true
      else if T_lt y x then false
      else lex_lt xs' ys'
  | [], _ :: _ => true
  | _, [] => false
  end.

(** ** Specifications of computations *)

(** [post o Q E]: the outcome [o] is a normal return satisfying [Q] or an
    exception satisfying [E]; it is neither a fault nor a loop out of fuel. *)
Definition post {A} (o : outcome A) (Q : A → Mem → Prop) (E : exn → Mem → Prop) : Prop :=
  match o with
  | Ret a m => Q a m
  | Throw e m => E e m
  | Fault => False
  | OutOfFuel => False
  end.

(** ** Histories of a program using lists *)

(** The calls a program can make on the lists of a memory. *)
Inductive call : Type :=
| CallDefault (this : N)
| CallInit (this : N) (values : list T)
| CallCopy (fuel : nat) (this other temp : N)
| CallAssign (fuel : nat) (this rhs temp temp' : N)
| CallSwap (this other : N)
| CallPushFront (this : N) (val : T)
| CallPopFront (this : N)
| CallInsertAfter (this : N) (pos : BasicIterator) (val : T)
| CallEraseAfter (this : N) (pos : BasicIterator)
| CallClear (fuel : nat) (this : N)
| CallDtor (fuel : nat) (this : N).

Definition run_call (c : call) : M unit :=
  match c with
  | CallDefault this => SingleLinkedList_default this
  | CallInit this values => SingleLinkedList_init this values
  | CallCopy fuel this other temp => SingleLinkedList_copy fuel this other temp
  | CallAssign fuel this rhs temp temp' => operator_assign fuel this rhs temp temp'
  | CallSwap this other => swap this other
  | CallPushFront this val => PushFront this val
  | CallPopFront this => PopFront this
  | CallInsertAfter this pos val => InsertAfter this pos val;; ret tt
  | CallEraseAfter this pos => EraseAfter this pos;; ret tt
  | CallClear fuel this => Clear fuel this
  | CallDtor fuel this => SingleLinkedList_dtor fuel this
  end.

(** [pos] is before_begin() of the list at [this] or is at a node reached
    from there by following [next_node]. *)
Definition valid_pos (m : Mem) (this : N) (pos : BasicIterator) : Prop :=
  ∃ ns q, seg (nodes m) (head_ this) ns q ∧ node_ pos ∈ ns.*1.

(** The list object at [l] is alive. *)
Definition live (m : Mem) (l : N) : Prop := is_Some (sizes m !! l).

(** The list object at [l] is alive and the loop bound [fuel] exceeds its
    size. *)
Definition live_within (m : Mem) (l : N) (fuel : nat) : Prop :=
  ∃ z, sizes m !! l = Some z ∧ z < Z.of_nat fuel.

(** The preconditions of the calls: constructors run on fresh storage, the
    other members on live lists, positions are valid in the list they are
    passed to, and loop bounds are adequate. *)
Definition call_ok (m : Mem) (c : call) : Prop :=
  match c with
  | CallDefault this => fresh_storage m this
  | CallInit this _ => fresh_storage m this
  | CallCopy fuel this other temp =>
      fresh_storage m this ∧ fresh_storage m temp ∧ this ≠ temp ∧
      live_within m other fuel
  | CallAssign fuel this rhs temp temp' =>
      live_within m this fuel ∧ live_within m rhs fuel ∧
      fresh_storage m temp ∧ fresh_storage m temp' ∧ temp ≠ temp'
  | CallSwap this other => live m this ∧ live m other
  | CallPushFront this _ => live m this
  | CallPopFront this => live m this
  | CallInsertAfter this pos _ => live m this ∧ valid_pos m this pos
  | CallEraseAfter this pos => live m this ∧ valid_pos m this pos
  | CallClear fuel this => live_within m this fuel
  | CallDtor fuel this => live_within m this fuel
  end.

(** The call ends, normally or by an exception, in the memory [m']. *)
Definition steps_to {A} (o : outcome A) (m' : Mem) : Prop :=
  (∃ a, o = Ret a m') ∨ (∃ e, o = Throw e m').

(** A memory in which no list has been constructed yet. *)
Definition initial (m : Mem) : Prop :=
  nodes m = ∅ ∧ sizes m = ∅ ∧ mem_wf m.

(** The memories a program reaches from an initial one by calls made
    within their preconditions. *)
Inductive reachable : Mem → Prop :=
| reachable_initial m : initial m → reachable m
| reachable_step m c m' :
    reachable m → call_ok m c → steps_to (run_call c m) m' → reachable m'.

(** The calls that modify the elements of the list at [this]. *)
Definition mutates (this : N) (c : call) : Prop :=
  match c with
  | CallPushFront l _ | CallPopFront l | CallInsertAfter l _ _
  | CallEraseAfter l _ | CallClear _ l => l = this
  | _ => False
  end.

(** [mutated this m m']: a sequence of such calls leads from [m] to [m']. *)
Inductive mutated (this : N) : Mem → Mem → Prop :=
| mutated_refl m : mutated this m m
| mutated_step m m' c m'' :
    mutated this m m' → mutates this c → call_ok m' c →
    steps_to (run_call c m') m'' → mutated this m m''.

(** ** The rest of the interface, and callers' loops *)

(** The free function swap(lhs, rhs): lhs.swap(rhs). *)
Definition swap_free (lhs rhs : N) : M unit := swap lhs rhs.

(** ++it, [k] times. *)
Fixpoint iter_advance (k : nat) (it : BasicIterator) : M BasicIterator :=
  match k with
  | O => ret it
  | S k' => let! it' := iter_incr it in iter_advance k' it'
  end.

(** PushFront of each of [vals] in turn. *)
Fixpoint PushFront_all (this : N) (vals : list T) : M unit :=
  match vals with
  | [] => ret tt
  | v :: vals' => PushFront this v;; PushFront_all this vals'
  end.

(** The calls to members declared noexcept, and to the destructor. *)
Definition noexcept_call (c : call) : Prop :=
  match c with
  | CallSwap _ _ | CallPopFront _ | CallEraseAfter _ _
  | CallClear _ _ | CallDtor _ _ => True
  | _ => False
  end.

End Model.

Arguments Ret {T A} a m.
Arguments Throw {T A} e m.
Arguments Fault {T A}.
Arguments OutOfFuel {T A}.

Notation "'let!' x ':=' c 'in' k" := (bind c (λ x, k))
  (at level 10, x pattern, c at level 100, k at level 200).
Notation "c ';;' k" := (bind c (λ _, k))
  (at level 100, k at level 200, right associativity).

(** * Lists of [int]

    The instance the repository's tests use: payloads are integers,
    compared by their own [==] and [<]; copying a negative payload throws
    (a stand-in for the tests' ThrowOnCopy). *)

Definition throws_if_negative (v : Z) : bool := v <? 0.

#[export] Instance int_element : Element Z := {
  T_default := 0;
  copy_throws := throws_if_negative;
  T_eq := Z.eqb;
  T_lt := Z.ltb
}.

(** A node at address [a], and an entry of a list's content. *)
Definition int_node (a : N) (v : Z) (next : N) : N * @Node Z := (a, mkNode v next).
Definition at_ (a : N) (v : Z) : N * Z := (a, v).

(** No list yet; seven nodes' worth of free storage. *)
Definition mem0 : @Mem Z := mkMem ∅ ∅ [16; 32; 48; 64; 80; 96; 112]%N [].

(** An empty list at 1000. *)
Definition mem_empty : @Mem Z :=
  mkMem (list_to_map [int_node 1000 0 0]) {[ 1000%N := 0 ]}
        [16; 32; 48]%N [].

(** {1, 2, 3} at 1000, as the initializer-list constructor leaves it when
    run in [mem0]. *)
Definition mem_123 : @Mem Z :=
  mkMem (list_to_map [int_node 1000 0 16; int_node 16 1 32;
                      int_node 32 2 48; int_node 48 3 0])
        {[ 1000%N := 3 ]} [64; 80; 96; 112]%N [1; 2; 3].
Definition content_123 : list (N * Z) := [at_ 16 1; at_ 32 2; at_ 48 3].

(** {1, 2, 3, 4} at 1000. *)
Definition mem_1234 : @Mem Z :=
  mkMem (list_to_map [int_node 1000 0 16; int_node 16 1 32;
                      int_node 32 2 48; int_node 48 3 64; int_node 64 4 0])
        {[ 1000%N := 4 ]} [80; 96; 112]%N [].
Definition content_1234 : list (N * Z) := [at_ 16 1; at_ 32 2; at_ 48 3; at_ 64 4].

(** {3, 14, 15, 92, 6} at 1000. *)
Definition mem_5 : @Mem Z :=
  mkMem (list_to_map [int_node 1000 0 16; int_node 16 3 32;
                      int_node 32 14 48; int_node 48 15 64;
                      int_node 64 92 80; int_node 80 6 0])
        {[ 1000%N := 5 ]} [96; 112]%N [].
Definition content_5 : list (N * Z) :=
  [at_ 16 3; at_ 32 14; at_ 48 15; at_ 64 92; at_ 80 6].

(** {1, 2} at 1000 and {1, 2, 3} at 2000, as two runs of the
    initializer-list constructor leave them in [mem0]. *)
Definition mem_12_123 : @Mem Z :=
  mkMem (list_to_map [int_node 1000 0 16; int_node 16 1 32; int_node 32 2 0;
                      int_node 2000 0 48; int_node 48 1 64;
                      int_node 64 2 80; int_node 80 3 0])
        (list_to_map [(1000%N, 2); (2000%N, 3)]) [96; 112]%N [1; 2; 1; 2; 3].

(** {1, 2, 3} at 1000 and {1, 2, 4} at 2000. *)
Definition mem_123_124 : @Mem Z :=
  mkMem (list_to_map [int_node 1000 0 16; int_node 16 1 32;
                      int_node 32 2 48; int_node 48 3 0;
                      int_node 2000 0 64; int_node 64 1 80;
                      int_node 80 2 96; int_node 96 4 0])
        (list_to_map [(1000%N, 3); (2000%N, 3)]) [112]%N [].
Definition content_124 : list (N * Z) := [at_ 64 1; at_ 80 2; at_ 96 4].

(** {1} at 1000, {2} at 2000 and {3} at 3000. *)
Definition mem_1_2_3 : @Mem Z :=
  mkMem (list_to_map [int_node 1000 0 16; int_node 16 1 0;
                      int_node 2000 0 32; int_node 32 2 0;
                      int_node 3000 0 48; int_node 48 3 0])
        (list_to_map [(1000%N, 1); (2000%N, 1); (3000%N, 1)]) [64]%N [].

(** Lexicographic order on sequences of integers, as usually stated: the
    first is a proper prefix of the second, or at the first position where
    they differ the first has the smaller element. *)
Definition lexicographically_less (xs ys : list Z) : Prop :=
  (∃ y s, ys = xs ++ y :: s) ∨
  (∃ p x y s1 s2, xs = p ++ x :: s1 ∧ ys = p ++ y :: s2 ∧ x < y).

(** * Proofs *)

Section Proofs.

Context {T : Type} {element : Element T}.

Implicit Types (h : gmap N (@Node T)) (m : @Mem T).
Implicit Types (ns pre post rest built src full : list (N * T)).
Implicit Types (own : gmap N (list (N * T))).
Implicit Types (v pv dv hv val : T) (xs ys vals values : list T).
Implicit Types (c : @call T).

(** ** Segments of the node chain *)

Lemma seg_frame h h' p ns q :
  (∀ a, a ∈ ns.*1 → h' !! a = h !! a) → seg h p ns q → seg h' p ns q.
Proof.
  revert p. induction ns as [|[a v] ns IH]; intros p Hfr; simpl; [done|].
  intros (-> & Ha & r & Hl & Hs). split; [done|]. split; [done|].
  exists r. split.
  - rewrite Hfr; [done|]. simpl. left.
  - apply IH; [|done]. intros b Hb. apply Hfr. simpl. by right.
Qed.

Lemma seg_app h p ns1 ns2 q :
  seg h p (ns1 ++ ns2) q ↔ ∃ r, seg h p ns1 r ∧ seg h r ns2 q.
Proof.
  revert p. induction ns1 as [|[a v] ns1 IH]; intros p; simpl.
  - split; [eauto|]. by intros (r & -> & ?).
  - split.
    + intros (-> & Ha & r & Hl & Hs). apply IH in Hs as (r' & H1 & H2).
      exists r'. eauto 10.
    + intros (r' & (-> & Ha & r & Hl & H1) & H2).
      split; [done|]. split; [done|]. exists r. split; [done|].
      apply IH. eauto.
Qed.

Lemma seg_lookup h p ns q a :
  seg h p ns q → a ∈ ns.*1 → a ≠ nullptr ∧ is_Some (h !! a).
Proof.
  revert p. induction ns as [|[b v] ns IH]; intros p; simpl.
  - intros _ Hin. by apply elem_of_nil in Hin.
  - intros (-> & Hb & r & Hl & Hs) [->|Hin]%elem_of_cons; eauto.
Qed.

Lemma seg_first h p ns q : seg h p ns q → p = first_addr ns q.
Proof. destruct ns as [|[a v] ns]; simpl; [done|]. by intros (-> & _). Qed.

(** A chain is determined by the memory and its start. *)
Lemma seg_unique h p ns ns' :
  seg h p ns nullptr → seg h p ns' nullptr → ns = ns'.
Proof.
  revert p ns'. induction ns as [|[a v] ns IH]; intros p [|[a' v'] ns']; simpl.
  - done.
  - intros -> (<- & Ha & _). done.
  - intros (-> & Ha & _) ->. done.
  - intros (-> & Ha & r & Hl & Hs) (<- & _ & r' & Hl' & Hs').
    rewrite Hl in Hl'. injection Hl' as <- <-. f_equal. eauto.
Qed.

(** Linking a new node in after the node [pa]. *)
Lemma seg_insert_after h p pre pa pv post a v :
  seg h p (pre ++ (pa, pv) :: post) nullptr →
  NoDup (pre ++ (pa, pv) :: post).*1 →
  h !! a = None →
  a ≠ nullptr →
  let nxt := first_addr post nullptr in
  h !! pa = Some (mkNode pv nxt) ∧ pa ≠ nullptr ∧
  seg (<[pa := mkNode pv a]> (<[a := mkNode v nxt]> h)) p
      (pre ++ (pa, pv) :: (a, v) :: post) nullptr.
Proof.
  intros Hseg Hnd Hfresh Ha nxt.
  apply seg_app in Hseg as (r & Hpre & Hrest).
  simpl in Hrest. destruct Hrest as (-> & Hpa & r' & Hl & Hpost).
  pose proof (seg_first _ _ _ _ Hpost) as Hr'. fold nxt in Hr'. subst r'.
  rewrite fmap_app in Hnd. simpl in Hnd.
  apply NoDup_app in Hnd as (Hnd1 & Hdisj & Hnd2).
  apply NoDup_cons in Hnd2 as [Hpa_post Hnd2].
  assert (Hane : ∀ b, b ∈ (pre ++ (pa, pv) :: post).*1 → b ≠ a).
  { intros b Hb ->. rewrite fmap_app in Hb. simpl in Hb.
    apply elem_of_app in Hb as [Hb|Hb].
    - by destruct (seg_lookup _ _ _ _ _ Hpre Hb) as [_ [? ?]]; simplify_eq.
    - apply elem_of_cons in Hb as [->|Hb]; [by rewrite Hl in Hfresh|].
      by destruct (seg_lookup _ _ _ _ _ Hpost Hb) as [_ [? ?]]; simplify_eq. }
  split; [done|]. split; [done|].
  apply seg_app. exists pa. split.
  - eapply seg_frame; [|exact Hpre]. intros b Hb.
    rewrite lookup_insert_ne.
    + rewrite lookup_insert_ne; [done|]. intros <-. apply (Hane a); [|done].
      rewrite fmap_app. apply elem_of_app. by left.
    + intros <-. apply (Hdisj pa Hb). simpl. left.
  - simpl. split; [done|]. split; [done|]. exists a.
    split; [by rewrite lookup_insert_eq|].
    split; [done|]. split; [done|]. exists nxt. split.
    + rewrite lookup_insert_ne; [by rewrite lookup_insert_eq|].
      apply Hane. rewrite fmap_app. apply elem_of_app. right. simpl. left.
    + eapply seg_frame; [|exact Hpost]. intros b Hb.
      rewrite lookup_insert_ne.
      * rewrite lookup_insert_ne; [done|]. intros <-. apply (Hane a); [|done].
        rewrite fmap_app. apply elem_of_app. right. simpl. by right.
      * intros <-. done.
Qed.

(** Unlinking the node [da] that follows the node [pa]. *)
Lemma seg_erase_after h p pre pa pv da dv post :
  seg h p (pre ++ (pa, pv) :: (da, dv) :: post) nullptr →
  NoDup (pre ++ (pa, pv) :: (da, dv) :: post).*1 →
  let nxt := first_addr post nullptr in
  h !! pa = Some (mkNode pv da) ∧ pa ≠ nullptr ∧
  h !! da = Some (mkNode dv nxt) ∧ da ≠ nullptr ∧ pa ≠ da ∧
  seg (delete da (<[pa := mkNode pv nxt]> h)) p
      (pre ++ (pa, pv) :: post) nullptr.
Proof.
  intros Hseg Hnd nxt.
  apply seg_app in Hseg as (r & Hpre & Hrest).
  simpl in Hrest.
  destruct Hrest as (-> & Hpa & r' & Hl & -> & Hda & r'' & Hl' & Hpost).
  pose proof (seg_first _ _ _ _ Hpost) as Hr''. fold nxt in Hr''. subst r''.
  rewrite fmap_app in Hnd. simpl in Hnd.
  apply NoDup_app in Hnd as (Hnd1 & Hdisj & Hnd2).
  apply NoDup_cons in Hnd2 as [Hpa_post Hnd2].
  apply NoDup_cons in Hnd2 as [Hda_post Hnd2].
  assert (pa ≠ da) as Hne.
  { intros ->. apply Hpa_post. left. }
  do 5 (split; [done|]).
  apply seg_app. exists pa. split.
  - eapply seg_frame; [|exact Hpre]. intros b Hb.
    rewrite lookup_delete_ne.
    + rewrite lookup_insert_ne; [done|]. intros <-. apply (Hdisj pa Hb). left.
    + intros <-. apply (Hdisj da Hb). right. left.
  - simpl. split; [done|]. split; [done|]. exists nxt. split.
    + rewrite lookup_delete_ne; [|done]. by rewrite lookup_insert_eq.
    + eapply seg_frame; [|exact Hpost]. intros b Hb.
      rewrite lookup_delete_ne.
      * rewrite lookup_insert_ne; [done|]. intros <-. apply Hpa_post. by right.
      * intros <-. done.
Qed.

(** The last node of a chain has a null link. *)
Lemma seg_last h p pre pa pv :
  seg h p (pre ++ [(pa, pv)]) nullptr →
  h !! pa = Some (mkNode pv nullptr) ∧ pa ≠ nullptr.
Proof.
  intros (r & _ & Hrest)%seg_app. simpl in Hrest.
  by destruct Hrest as (-> & Hpa & r' & Hl & ->).
Qed.

(** ** Counting distinct addresses *)

Lemma NoDup_bounded_length (l : list N) (n : N) :
  NoDup l → (∀ a, a ∈ l → (a < n)%N) → (N.of_nat (length l) ≤ n)%N.
Proof.
  revert l. induction n as [|n IH] using N.peano_ind; intros l Hnd Hlt.
  - destruct l as [|a l]; [done|].
    specialize (Hlt a (list_elem_of_here _ _)). lia.
  - destruct (decide (n ∈ l)) as [Hin|Hnin].
    + apply elem_of_Permutation in Hin as [k Hk].
      rewrite Hk in Hnd. apply NoDup_cons in Hnd as [Hnk Hndk].
      rewrite Hk. simpl.
      assert (N.of_nat (length k) ≤ n)%N; [|lia].
      apply IH; [done|]. intros a Ha.
      assert (a < N.succ n)%N by (apply Hlt; rewrite Hk; by right).
      assert (a ≠ n) by (by intros ->). lia.
    + assert (N.of_nat (length l) ≤ n)%N; [|lia].
      apply IH; [done|]. intros a Ha.
      specialize (Hlt a Ha). assert (a ≠ n) by (by intros ->). lia.
Qed.

(** Fewer than [2^64 - 1] objects fit at distinct non-null addresses. *)
Lemma addr_ok_length (l : list N) :
  NoDup l → (∀ a, a ∈ l → addr_ok a) → Z.of_nat (length l) < 2 ^ 64 - 1 + 1.
Proof.
  intros Hnd Hok.
  assert (N.of_nat (length (N.pred <$> l)) ≤ 2 ^ 64 - 1)%N as Hlen.
  { apply NoDup_bounded_length.
    - apply NoDup_fmap_2_strong; [|done].
      intros a b Ha Hb Hab. apply Hok in Ha, Hb. unfold addr_ok in *. lia.
    - intros a (b & -> & Hb)%list_elem_of_fmap. apply Hok in Hb.
      unfold addr_ok in Hb. lia. }
  rewrite length_fmap in Hlen. lia.
Qed.

(** ** Running the primitives *)

Lemma bind_Ret {A B} (c : M A) (k : A → M B) m a m' :
  c m = Ret a m' → bind c k m = k a m'.
Proof. unfold bind. by intros ->. Qed.

Lemma bind_Throw {A B} (c : M A) (k : A → M B) m e m' :
  c m = Throw e m' → bind c k m = Throw e m'.
Proof. unfold bind. by intros ->. Qed.

Lemma load_Ret p n m :
  p ≠ nullptr → nodes m !! p = Some n → load p m = Ret n m.
Proof. intros Hp Hl. unfold load. rewrite decide_False by done. by rewrite Hl. Qed.

Lemma store_next_Ret p q n m :
  p ≠ nullptr → nodes m !! p = Some n →
  store_next p q m = Ret tt (set_nodes <[p := mkNode (value n) q]> m).
Proof.
  intros Hp Hl. unfold store_next. by rewrite (bind_Ret _ _ _ _ _ (load_Ret _ _ _ Hp Hl)).
Qed.

Lemma load_size_Ret this z m :
  sizes m !! this = Some z → load_size this m = Ret z m.
Proof. intros Hl. unfold load_size. by rewrite Hl. Qed.

Lemma store_size_Ret this z z' m :
  sizes m !! this = Some z →
  store_size this z' m = Ret tt (set_sizes <[this := z']> m).
Proof.
  intros Hl. unfold store_size. by rewrite (bind_Ret _ _ _ _ _ (load_size_Ret _ _ _ Hl)).
Qed.

Lemma incr_size_Ret this z m :
  sizes m !! this = Some z →
  incr_size this m = Ret tt (set_sizes <[this := wrap (z + 1)]> m).
Proof.
  intros Hl. unfold incr_size.
  rewrite (bind_Ret _ _ _ _ _ (load_size_Ret _ _ _ Hl)).
  by apply store_size_Ret with z.
Qed.

Lemma decr_size_Ret this z m :
  sizes m !! this = Some z →
  decr_size this m = Ret tt (set_sizes <[this := wrap (z - 1)]> m).
Proof.
  intros Hl. unfold decr_size.
  rewrite (bind_Ret _ _ _ _ _ (load_size_Ret _ _ _ Hl)).
  by apply store_size_Ret with z.
Qed.

Lemma IsEmpty_Ret this z m :
  sizes m !! this = Some z → IsEmpty this m = Ret (z =? 0) m.
Proof.
  intros Hl. unfold IsEmpty.
  by rewrite (bind_Ret _ _ _ _ _ (load_size_Ret _ _ _ Hl)).
Qed.

(** The three ways [new Node(val, next)] can end. *)
Lemma new_Node_bad_alloc val next m :
  free m = [] → new_Node val next m = Throw bad_alloc m.
Proof. intros Hf. unfold new_Node, bind, operator_new. by rewrite Hf. Qed.

Lemma new_Node_copy_failure val next a fr m :
  free m = a :: fr → copy_throws val = true →
  new_Node val next m = Throw copy_failure m.
Proof.
  intros Hf Hc.
  unfold new_Node, bind, operator_new, on_throw, Node_ctor, bind, copy_construct.
  rewrite Hf, Hc. unfold operator_delete, set_free. simpl.
  destruct m; simpl in *. by rewrite Hf.
Qed.

Lemma new_Node_Ret val next a fr m :
  free m = a :: fr → copy_throws val = false →
  new_Node val next m =
    Ret a (set_nodes <[a := mkNode val next]> (set_free (λ _, fr) m)).
Proof.
  intros Hf Hc.
  unfold new_Node, bind, operator_new, on_throw, Node_ctor, bind, copy_construct.
  rewrite Hf. simpl. by rewrite Hc.
Qed.

Lemma delete_Node_Ret p n m :
  p ≠ nullptr → nodes m !! p = Some n →
  delete_Node p m =
    Ret tt (set_free (cons p)
             (set_nodes (delete p) (set_destroyed (λ d, d ++ [value n]) m))).
Proof.
  intros Hp Hl. unfold delete_Node.
  by rewrite (bind_Ret _ _ _ _ _ (load_Ret _ _ _ Hp Hl)).
Qed.

(** ** Positions *)

(** The [i]-th address of the footprint (0 is the sentinel) splits the
    chain, sentinel included, around that node. *)
Lemma footprint_split this hv (ns : list (N * T)) i pa :
  footprint this ns !! i = Some pa →
  ∃ pv pre,
    (head_ this, hv) :: ns = pre ++ (pa, pv) :: drop i ns ∧
    tail (pre ++ [(pa, pv)]) = take i ns.
Proof.
  unfold footprint. destruct i as [|j]; simpl.
  - intros [= <-]. exists hv, []. by rewrite drop_0.
  - intros Hj. rewrite list_lookup_fmap in Hj.
    destruct (ns !! j) as [[pa' pv]|] eqn:Hl; simplify_eq/=.
    exists pv, ((head_ this, hv) :: take j ns). split.
    + simpl. f_equal. by rewrite take_drop_middle.
    + simpl. by erewrite take_S_r.
Qed.

Lemma is_list_addr_ok m this ns a :
  mem_wf m → is_list m this ns → a ∈ footprint this ns → addr_ok a.
Proof.
  intros (_ & _ & Hok) ([hv Hseg] & _ & _) Hin.
  apply Hok. eapply seg_lookup; [exact Hseg|done].
Qed.

Lemma is_list_length m this ns :
  mem_wf m → is_list m this ns → Z.of_nat (length ns) + 1 < 2 ^ 64.
Proof.
  intros Hwf Hl.
  assert (Z.of_nat (length (footprint this ns)) < 2 ^ 64 - 1 + 1) as Hlen.
  { apply addr_ok_length; [apply Hl|]. intros a. by apply is_list_addr_ok with m. }
  unfold footprint in Hlen. simpl in Hlen. rewrite length_fmap in Hlen. lia.
Qed.

Lemma wrap_small z : 0 ≤ z < 2 ^ 64 → wrap z = z.
Proof. intros ?. unfold wrap, SIZE_WIDTH. by apply Z.mod_small. Qed.

Lemma is_list_lookup m this ns a :
  is_list m this ns → a ∈ footprint this ns →
  a ≠ nullptr ∧ is_Some (nodes m !! a).
Proof. intros ([hv Hseg] & _ & _) Hin. eapply seg_lookup; [exact Hseg|done]. Qed.

Lemma is_list_sentinel m this ns :
  is_list m this ns →
  this ≠ nullptr ∧
  ∃ hv, nodes m !! this = Some (mkNode hv (first_addr ns nullptr)).
Proof.
  intros ([hv Hseg] & _ & _). simpl in Hseg.
  destruct Hseg as (_ & H0 & r & Hl & Hs). split; [done|].
  exists hv. by rewrite <- (seg_first _ _ _ _ Hs).
Qed.

(** Inserting after the [i]-th position of a list. *)
Lemma is_list_insert m this ns i pa a v fr :
  mem_wf m → is_list m this ns →
  footprint this ns !! i = Some pa →
  free m = a :: fr →
  let nxt := first_addr (drop i ns) nullptr in
  let z := Z.of_nat (length ns) in
  ∃ pv,
    nodes m !! pa = Some (mkNode pv nxt) ∧ pa ≠ nullptr ∧ a ≠ pa ∧
    is_list (mem_inserted m this pa pv a v nxt fr z) this
            (take i ns ++ (a, v) :: drop i ns) ∧
    mem_wf (mem_inserted m this pa pv a v nxt fr z).
Proof.
  intros Hwf Hl Hi Hf nxt z.
  pose proof Hwf as (Hnd & Hfree & Hok).
  pose proof Hl as ([hv Hseg] & Hsz & Hndl).
  destruct (footprint_split this hv ns i pa Hi) as (pv & pre & Hfull & Htl).
  rewrite Hf in Hnd, Hfree. apply NoDup_cons in Hnd as [Hafr Hndfr].
  destruct (Hfree a) as [Hnone Haok]; [left|].
  assert (a ≠ nullptr) as Ha0 by (unfold addr_ok, nullptr in *; lia).
  rewrite Hfull in Hseg.
  assert (NoDup (pre ++ (pa, pv) :: drop i ns).*1) as Hnd'.
  { rewrite <- Hfull. exact Hndl. }
  destruct (seg_insert_after _ _ _ _ _ _ a v Hseg Hnd' Hnone Ha0)
    as (Hlpa & Hpa0 & Hseg').
  fold nxt in Hlpa, Hseg'.
  assert (a ≠ pa) as Hapa by (intros ->; by rewrite Hlpa in Hnone).
  assert (pre ++ (pa, pv) :: (a, v) :: drop i ns
          = (head_ this, hv) :: (take i ns ++ (a, v) :: drop i ns)) as Hnew.
  { rewrite <- Htl. destruct pre as [|x pre]; simpl in *.
    - by injection Hfull as <- <- _.
    - injection Hfull as -> _. by rewrite <- app_assoc. }
  assert (a ∉ footprint this ns) as Hafp.
  { intros Hin. destruct (is_list_lookup _ _ _ _ Hl Hin) as [_ [n Hn]].
    by rewrite Hnone in Hn. }
  assert (NoDup (a :: footprint this ns)) as Hnda by (by apply NoDup_cons).
  assert ((take i ns ++ (a, v) :: drop i ns) ≡ₚ (a, v) :: ns) as Hperm.
  { by rewrite <- Permutation_middle, take_drop. }
  assert (Z.of_nat (length ns) + 2 < 2 ^ 64) as Hlen.
  { assert (Z.of_nat (length (a :: footprint this ns)) < 2 ^ 64 - 1 + 1) as H.
    { apply addr_ok_length; [done|].
      intros b [->|Hb]%elem_of_cons; [done|]. by apply (is_list_addr_ok m this ns). }
    unfold footprint in H. simpl in H. rewrite length_fmap in H. lia. }
  exists pv. do 3 (split; [done|]). split.
  - split; [|split].
    + exists hv. simpl nodes. rewrite <- Hnew. exact Hseg'.
    + simpl sizes. rewrite lookup_insert_eq. f_equal.
      rewrite Hperm. simpl length. unfold z. rewrite wrap_small; lia.
    + rewrite Hperm. simpl. unfold footprint in Hnda.
      apply NoDup_cons in Hnda as [H1 H2]. apply NoDup_cons in H2 as [H3 H4].
      apply NoDup_cons. split.
      * intros [Heq|Hin]%elem_of_cons; [|done]. apply H1. rewrite <- Heq. left.
      * apply NoDup_cons. split; [|done]. intros Hin. apply H1. by right.
  - split; [|split]; simpl.
    + done.
    + intros b Hb. destruct (Hfree b) as [Hbn Hbok]; [by right|].
      split; [|done].
      rewrite lookup_insert_ne by (intros ->; by rewrite Hlpa in Hbn).
      rewrite lookup_insert_ne by (by intros ->). done.
    + intros b. destruct (decide (b = pa)) as [->|Hne].
      { intros _. apply Hok. by rewrite Hlpa. }
      rewrite lookup_insert_ne by done.
      destruct (decide (b = a)) as [->|Hne']; [done|].
      rewrite lookup_insert_ne by done. apply Hok.
Qed.

(** The [i]-th position of a list and the node after it, if any. *)
Lemma is_list_erase m this ns i pa :
  mem_wf m → is_list m this ns →
  footprint this ns !! i = Some pa →
  let z := Z.of_nat (length ns) in
  pa ≠ nullptr ∧
  match ns !! i with
  | None => ∃ pv, nodes m !! pa = Some (mkNode pv nullptr)
  | Some (da, dv) =>
      let nxt := first_addr (drop (S i) ns) nullptr in
      ∃ pv,
        nodes m !! pa = Some (mkNode pv da) ∧
        nodes m !! da = Some (mkNode dv nxt) ∧ da ≠ nullptr ∧ pa ≠ da ∧
        is_list (mem_erased m this pa pv da dv nxt z) this (delete i ns) ∧
        mem_wf (mem_erased m this pa pv da dv nxt z)
  end.
Proof.
  intros Hwf Hl Hi z.
  pose proof Hwf as (Hnd & Hfree & Hok).
  pose proof Hl as ([hv Hseg] & Hsz & Hndl).
  destruct (footprint_split this hv ns i pa Hi) as (pv & pre & Hfull & Htl).
  destruct (is_list_lookup _ _ _ _ Hl (list_elem_of_lookup_2 _ _ _ Hi)) as [Hpa0 _].
  split; [done|].
  destruct (ns !! i) as [[da dv]|] eqn:Hnsi.
  - intros nxt. exists pv.
    rewrite (drop_S _ _ _ Hnsi) in Hfull.
    rewrite Hfull in Hseg.
    assert (NoDup (pre ++ (pa, pv) :: (da, dv) :: drop (S i) ns).*1) as Hnd'.
    { rewrite <- Hfull. exact Hndl. }
    destruct (seg_erase_after _ _ _ _ _ _ _ _ Hseg Hnd')
      as (Hlpa & _ & Hlda & Hda0 & Hne & Hseg').
    fold nxt in Hlda, Hseg'.
    do 4 (split; [done|]).
    assert (pre ++ (pa, pv) :: drop (S i) ns
            = (head_ this, hv) :: delete i ns) as Hnew.
    { rewrite delete_take_drop, <- Htl. destruct pre as [|x pre]; simpl in *.
      - by injection Hfull as <- <- _.
      - injection Hfull as -> _. by rewrite <- app_assoc. }
    assert (length ns = S (length (delete i ns))) as Hlen.
    { rewrite length_delete by eauto.
      apply lookup_lt_Some in Hnsi. lia. }
    pose proof (is_list_length _ _ _ Hwf Hl) as Hbound.
    split.
    + split; [|split].
      * exists hv. simpl nodes. rewrite <- Hnew. exact Hseg'.
      * simpl sizes. rewrite lookup_insert_eq. f_equal. unfold z.
        rewrite wrap_small; lia.
      * change (NoDup ((head_ this, hv) :: delete i ns).*1).
        rewrite <- Hnew. rewrite fmap_app in Hnd' |- *. simpl in *.
        apply NoDup_app in Hnd' as (H1 & H2 & H3).
        apply NoDup_cons in H3 as [H3 H4]. apply NoDup_cons in H4 as [H4 H5].
        apply NoDup_app. split; [done|]. split.
        -- intros b Hb [->|Hin]%elem_of_cons.
           ++ apply (H2 _ Hb). left.
           ++ apply (H2 _ Hb). right. by right.
        -- apply NoDup_cons. split; [|done]. intros Hin. apply H3. by right.
    + split; [|split]; simpl.
      * apply NoDup_cons. split; [|done]. intros Hin.
        destruct (Hfree _ Hin) as [Hn _]. by rewrite Hlda in Hn.
      * intros b [->|Hb]%elem_of_cons.
        -- split; [by rewrite lookup_delete_eq|]. apply Hok. by rewrite Hlda.
        -- destruct (Hfree _ Hb) as [Hn Hbok]. split; [|done].
           rewrite lookup_delete_ne by (intros ->; by rewrite Hlda in Hn).
           rewrite lookup_insert_ne by (intros ->; by rewrite Hlpa in Hn). done.
      * intros b [n Hn]. apply Hok.
        destruct (decide (b = da)) as [->|?]; [by rewrite Hlda|].
        rewrite lookup_delete_ne in Hn by done.
        destruct (decide (b = pa)) as [->|?]; [by rewrite Hlpa|].
        rewrite lookup_insert_ne in Hn by done. by rewrite Hn.
  - exists pv. apply lookup_ge_None in Hnsi.
    rewrite drop_ge in Hfull by done. rewrite Hfull in Hseg.
    by destruct (seg_last _ _ _ _ _ Hseg).
Qed.

(** ** Running the modifiers at a position *)

Lemma InsertAfter_Ret m this pa pv nxt a fr v z :
  pa ≠ nullptr → nodes m !! pa = Some (mkNode pv nxt) →
  free m = a :: fr → copy_throws v = false → a ≠ pa →
  sizes m !! this = Some z →
  InsertAfter this (Iterator pa) v m
  = Ret (Iterator a) (mem_inserted m this pa pv a v nxt fr z).
Proof.
  intros Hpa Hl Hf Hc Hne Hz. unfold InsertAfter. simpl node_.
  rewrite decide_False by done.
  rewrite (bind_Ret _ _ _ _ _ (load_Ret _ _ _ Hpa Hl)).
  rewrite (bind_Ret _ _ _ _ _ (new_Node_Ret _ _ _ _ _ Hf Hc)).
  erewrite bind_Ret; cycle 1.
  { apply store_next_Ret; [done|]. simpl. rewrite lookup_insert_ne by done. exact Hl. }
  erewrite bind_Ret; cycle 1.
  { apply incr_size_Ret. simpl. exact Hz. }
  reflexivity.
Qed.

Lemma PushFront_Ret m this hv nxt a fr v z :
  this ≠ nullptr → nodes m !! this = Some (mkNode hv nxt) →
  free m = a :: fr → copy_throws v = false → a ≠ this →
  sizes m !! this = Some z →
  PushFront this v m = Ret tt (mem_inserted m this this hv a v nxt fr z).
Proof.
  intros Hpa Hl Hf Hc Hne Hz. unfold PushFront, head_.
  rewrite (bind_Ret _ _ _ _ _ (load_Ret _ _ _ Hpa Hl)).
  rewrite (bind_Ret _ _ _ _ _ (new_Node_Ret _ _ _ _ _ Hf Hc)).
  erewrite bind_Ret; cycle 1.
  { apply store_next_Ret; [done|]. simpl. rewrite lookup_insert_ne by done. exact Hl. }
  erewrite incr_size_Ret by (simpl; exact Hz).
  reflexivity.
Qed.

Lemma EraseAfter_Ret m this pa pv da dv nxt z :
  pa ≠ nullptr → nodes m !! pa = Some (mkNode pv da) →
  da ≠ nullptr → nodes m !! da = Some (mkNode dv nxt) → pa ≠ da →
  sizes m !! this = Some z →
  EraseAfter this (Iterator pa) m
  = Ret (Iterator nxt) (mem_erased m this pa pv da dv nxt z).
Proof.
  intros Hpa Hl Hda Hl' Hne Hz. unfold EraseAfter. simpl node_.
  rewrite decide_False by done.
  erewrite bind_Ret; cycle 1.
  { rewrite (bind_Ret _ _ _ _ _ (load_Ret _ _ _ Hpa Hl)). simpl next_node.
    rewrite decide_False by done.
    rewrite (bind_Ret _ _ _ _ _ (load_Ret _ _ _ Hda Hl')).
    rewrite (bind_Ret _ _ _ _ _ (store_next_Ret _ _ _ _ Hpa Hl)).
    erewrite bind_Ret; cycle 1.
    { apply delete_Node_Ret; [done|]. simpl. rewrite lookup_insert_ne by done. exact Hl'. }
    apply decr_size_Ret. simpl. exact Hz. }
  erewrite bind_Ret; cycle 1.
  { apply load_Ret; [done|]. simpl. rewrite lookup_delete_ne by done.
    by rewrite lookup_insert_eq. }
  reflexivity.
Qed.

Lemma EraseAfter_last m this pa pv :
  pa ≠ nullptr → nodes m !! pa = Some (mkNode pv nullptr) →
  EraseAfter this (Iterator pa) m = Ret (Iterator nullptr) m.
Proof.
  intros Hpa Hl. unfold EraseAfter. simpl node_.
  rewrite decide_False by done.
  erewrite bind_Ret; cycle 1.
  { rewrite (bind_Ret _ _ _ _ _ (load_Ret _ _ _ Hpa Hl)). simpl next_node.
    by rewrite decide_True. }
  by rewrite (bind_Ret _ _ _ _ _ (load_Ret _ _ _ Hpa Hl)).
Qed.

Lemma PopFront_Ret m this hv da dv nxt z :
  this ≠ nullptr → nodes m !! this = Some (mkNode hv da) →
  da ≠ nullptr → nodes m !! da = Some (mkNode dv nxt) → this ≠ da →
  sizes m !! this = Some z → z ≠ 0 →
  PopFront this m = Ret tt (mem_erased m this this hv da dv nxt z).
Proof.
  intros Hpa Hl Hda Hl' Hne Hz Hz0. unfold PopFront, head_.
  rewrite (bind_Ret _ _ _ _ _ (IsEmpty_Ret _ _ _ Hz)).
  rewrite (proj2 (Z.eqb_neq z 0)) by done.
  rewrite (bind_Ret _ _ _ _ _ (load_Ret _ _ _ Hpa Hl)). simpl next_node.
  rewrite (bind_Ret _ _ _ _ _ (load_Ret _ _ _ Hda Hl')).
  rewrite (bind_Ret _ _ _ _ _ (store_next_Ret _ _ _ _ Hpa Hl)).
  erewrite bind_Ret; cycle 1.
  { apply delete_Node_Ret; [done|]. simpl. rewrite lookup_insert_ne by done. exact Hl'. }
  erewrite decr_size_Ret by (simpl; exact Hz).
  reflexivity.
Qed.

Lemma PopFront_empty m this :
  sizes m !! this = Some 0 → PopFront this m = Ret tt m.
Proof.
  intros Hz. unfold PopFront.
  by rewrite (bind_Ret _ _ _ _ _ (IsEmpty_Ret _ _ _ Hz)).
Qed.

(** ** PopFront *)

(** C10: PopFront() on an empty list is a no-op: the guard on IsEmpty()
    skips the body, the call returns normally, and the memory (hence the
    list, its size 0, and every node) is exactly what it was. *)
Theorem PopFront_empty_noop m this :
  is_list m this [] →
  PopFront this m = Ret tt m ∧ GetSize this m = Ret 0 m ∧ is_list m this [].
Proof.
  intros Hl. pose proof Hl as (_ & Hsz & _). simpl in Hsz.
  split; [by apply PopFront_empty|]. split; [|done].
  by apply load_size_Ret.
Qed.

(** C9: PopFront() on a non-empty list returns normally; afterwards the list
    holds the former second, third, ... nodes in their order, the size is
    one less, the former first node is gone from memory, and exactly one
    payload was destroyed: that of the removed node. *)
Theorem PopFront_removes_first m this a v ns :
  mem_wf m → is_list m this ((a, v) :: ns) →
  ∃ m',
    PopFront this m = Ret tt m' ∧
    is_list m' this ns ∧
    GetSize this m' = Ret (Z.of_nat (length ((a, v) :: ns)) - 1) m' ∧
    nodes m' !! a = None ∧
    destroyed m' = destroyed m ++ [v].
Proof.
  intros Hwf Hl.
  destruct (is_list_erase m this ((a, v) :: ns) 0 this Hwf Hl eq_refl)
    as (Hthis & pv & Hlt & Hla & Ha0 & Hne & Hl' & Hwf').
  pose proof Hl as (_ & Hsz & _).
  simpl in Hl', Hwf', Hla. rewrite drop_0 in Hl', Hwf', Hla.
  eexists. split.
  { eapply PopFront_Ret; try done; simpl length; lia. }
  split; [exact Hl'|].
  split.
  { apply load_size_Ret. destruct Hl' as (_ & Hsz' & _).
    etrans; [exact Hsz'|]. f_equal. simpl length. lia. }
  split; [|done].
  simpl. by rewrite lookup_delete_eq.
Qed.

(** ** EraseAfter *)

(** C6: for a position [pos] that is the [i]-th address of the list's
    footprint (0: the sentinel, [i+1]: the [i]-th real node): when a node
    follows it, EraseAfter(pos) removes exactly that node (the [i]-th real
    node), the size drops by one, and the iterator returned is at the node
    that followed the removed one, or null (end()) when there is none; when
    no node follows [pos], the memory is unchanged and end() is returned. *)
Theorem EraseAfter_spec m this ns i pos :
  mem_wf m → is_list m this ns →
  footprint this ns !! i = Some (node_ pos) →
  match ns !! i with
  | Some (da, dv) =>
      ∃ m',
        EraseAfter this pos m
        = Ret (Iterator (first_addr (drop (S i) ns) nullptr)) m' ∧
        is_list m' this (delete i ns) ∧
        GetSize this m' = Ret (Z.of_nat (length ns) - 1) m' ∧
        nodes m' !! da = None ∧
        destroyed m' = destroyed m ++ [dv]
  | None =>
      ∃ last,
        EraseAfter this pos m = Ret last m ∧
        end_ this m = Ret last m
  end.
Proof.
  destruct pos as [pa]. simpl node_. intros Hwf Hl Hi.
  pose proof (is_list_erase m this ns i pa Hwf Hl Hi) as [Hpa0 H].
  pose proof Hl as (_ & Hsz & _).
  destruct (ns !! i) as [[da dv]|] eqn:Hnsi.
  - destruct H as (pv & Hlpa & Hlda & Hda0 & Hne & Hl' & Hwf').
    eexists. split; [by eapply EraseAfter_Ret|].
    split; [exact Hl'|]. split.
    { apply load_size_Ret. destruct Hl' as (_ & Hsz' & _).
      etrans; [exact Hsz'|]. f_equal.
      rewrite length_delete by eauto. apply lookup_lt_Some in Hnsi. lia. }
    split; [|done]. simpl. by rewrite lookup_delete_eq.
  - destruct H as (pv & Hlpa). exists (Iterator nullptr).
    split; [by eapply EraseAfter_last|done].
Qed.

(** ** InsertAfter *)

(** C2: when copying the value throws, InsertAfter at a valid position
    leaves through an exception and the memory is the one before the call,
    so the list has the same nodes, payloads and size.  (When no storage is
    left, operator new throws first; the memory is unchanged all the same.) *)
Theorem InsertAfter_strong_guarantee m this ns i pos v :
  is_list m this ns →
  footprint this ns !! i = Some (node_ pos) →
  copy_throws v = true →
  InsertAfter this pos v m
  = Throw (if decide (free m = []) then bad_alloc else copy_failure) m.
Proof.
  destruct pos as [pa]. simpl node_. intros Hl Hi Hc.
  destruct (is_list_lookup _ _ _ _ Hl (list_elem_of_lookup_2 _ _ _ Hi))
    as [Hpa0 [n Hn]].
  unfold InsertAfter. simpl node_. rewrite decide_False by done.
  rewrite (bind_Ret _ _ _ _ _ (load_Ret _ _ _ Hpa0 Hn)).
  destruct (free m) as [|a fr] eqn:Hf.
  - rewrite decide_True by done.
    by rewrite (bind_Throw _ _ _ _ _ (new_Node_bad_alloc _ _ _ Hf)).
  - rewrite decide_False by done.
    by rewrite (bind_Throw _ _ _ _ _ (new_Node_copy_failure _ _ _ _ _ Hf Hc)).
Qed.

(** ** before_begin *)

(** C7: advancing the iterator returned by before_begin() once gives an
    iterator equal to begin(); the same holds for cbefore_begin() and the
    const begin(); on an empty list that iterator equals end(). *)
Theorem before_begin_incr_is_begin m this ns :
  is_list m this ns →
  ∃ it,
    (let! bb := before_begin this in iter_incr bb) m = Ret it m ∧
    (let! bb := cbefore_begin this in iter_incr bb) m = Ret it m ∧
    (∃ b, begin this m = Ret b m ∧ iter_eq it b = true) ∧
    (∃ b, begin_const this m = Ret b m ∧ iter_eq it b = true) ∧
    (ns = [] → ∃ e, end_ this m = Ret e m ∧ iter_eq it e = true).
Proof.
  intros Hl. destruct (is_list_sentinel _ _ _ Hl) as (H0 & hv & Hs).
  exists (Iterator (first_addr ns nullptr)).
  assert (∀ bbf, bbf = ret (Iterator (head_ this)) →
            (let! bb := bbf in iter_incr bb) m
            = Ret (Iterator (first_addr ns nullptr)) m) as Hincr.
  { intros ? ->. unfold bind at 1, ret at 1. unfold iter_incr, head_. simpl node_.
    rewrite decide_False by done.
    by rewrite (bind_Ret _ _ _ _ _ (load_Ret _ _ _ H0 Hs)). }
  split; [by apply Hincr|]. split; [by apply Hincr|].
  assert (begin this m = Ret (Iterator (first_addr ns nullptr)) m) as Hb.
  { unfold begin, head_. by rewrite (bind_Ret _ _ _ _ _ (load_Ret _ _ _ H0 Hs)). }
  split; [|split].
  - eexists. split; [exact Hb|]. unfold iter_eq. apply N.eqb_refl.
  - eexists. split; [exact Hb|]. unfold iter_eq. apply N.eqb_refl.
  - intros ->. by exists (Iterator nullptr).
Qed.

(** ** The whole memory: frame reasoning *)

Lemma is_list_frame m m' l ns :
  is_list m l ns →
  (∀ a, a ∈ footprint l ns → nodes m' !! a = nodes m !! a) →
  sizes m' !! l = sizes m !! l →
  is_list m' l ns.
Proof.
  intros ([hv Hseg] & Hsz & Hnd) Hfr Hs. split; [|split].
  - exists hv. eapply seg_frame; [|exact Hseg]. intros a Ha. by apply Hfr.
  - by rewrite Hs.
  - done.
Qed.

(** One list [l] changes (or comes to life) using only storage that was its
    own or was not live; the other lists are untouched. *)
Lemma world_inv_update m m' own l ns' :
  world_inv m own →
  mem_wf m' →
  is_list m' l ns' →
  (∀ a, a ∈ footprint l ns' →
        (∃ ns, own !! l = Some ns ∧ a ∈ footprint l ns) ∨ nodes m !! a = None) →
  (∀ a, (∀ ns, own !! l = Some ns → a ∉ footprint l ns) →
        is_Some (nodes m !! a) → nodes m' !! a = nodes m !! a) →
  (∀ l', l' ≠ l → sizes m' !! l' = sizes m !! l') →
  world_inv m' (<[l := ns']> own).
Proof.
  intros (Hwf & Hdom & Hlists & Hdisj) Hwf' Hl' Hsub Hfr Hsz.
  assert (∀ l2 ns2 a, l2 ≠ l → own !! l2 = Some ns2 → a ∈ footprint l2 ns2 →
            a ∈ footprint l ns' → False) as Hnew.
  { intros l2 ns2 a Hne H2 Ha2 Ha.
    destruct (Hsub a Ha) as [(ns & Hns & Hin)|Hnone].
    - exact (Hdisj l2 l ns2 ns a Hne H2 Hns Ha2 Hin).
    - destruct (is_list_lookup _ _ _ _ (Hlists _ _ H2) Ha2) as [_ [n Hn]].
      by rewrite Hnone in Hn. }
  split; [done|]. split; [|split].
  - intros l2. destruct (decide (l2 = l)) as [->|Hne].
    + rewrite lookup_insert_eq. destruct Hl' as (_ & Hs & _). rewrite Hs.
      split; eauto.
    + rewrite lookup_insert_ne by done. rewrite Hsz by done. apply Hdom.
  - intros l2 ns2. destruct (decide (l2 = l)) as [->|Hne].
    + rewrite lookup_insert_eq. by intros [= <-].
    + rewrite lookup_insert_ne by done. intros H2.
      apply is_list_frame with m; [by apply Hlists| |by apply Hsz].
      intros a Ha. apply Hfr.
      * intros ns Hns Hin. exact (Hdisj l2 l ns2 ns a Hne H2 Hns Ha Hin).
      * by destruct (is_list_lookup _ _ _ _ (Hlists _ _ H2) Ha).
  - intros l1 l2 ns1 ns2 a Hne.
    destruct (decide (l1 = l)) as [->|Hne1];
      destruct (decide (l2 = l)) as [->|Hne2]; try done.
    + rewrite lookup_insert_eq, lookup_insert_ne by done.
      intros [= <-] H2 Ha Ha2. eauto.
    + rewrite lookup_insert_eq, lookup_insert_ne by done.
      intros H1 [= <-] Ha1 Ha. eauto.
    + rewrite !lookup_insert_ne by done. apply Hdisj. done.
Qed.

Lemma world_inv_insert m own l ns i pa a v fr :
  world_inv m own → own !! l = Some ns →
  footprint l ns !! i = Some pa →
  free m = a :: fr →
  let nxt := first_addr (drop i ns) nullptr in
  let z := Z.of_nat (length ns) in
  ∃ pv,
    nodes m !! pa = Some (mkNode pv nxt) ∧ pa ≠ nullptr ∧ a ≠ pa ∧
    sizes m !! l = Some z ∧
    world_inv (mem_inserted m l pa pv a v nxt fr z)
              (<[l := take i ns ++ (a, v) :: drop i ns]> own).
Proof.
  intros Hinv Hown Hi Hf nxt z.
  pose proof Hinv as (Hwf & Hdom & Hlists & Hdisj).
  pose proof (Hlists _ _ Hown) as Hl.
  destruct (is_list_insert m l ns i pa a v fr Hwf Hl Hi Hf)
    as (pv & Hlpa & Hpa0 & Hne & Hl' & Hwf').
  fold nxt z in Hl', Hwf'.
  exists pv. do 3 (split; [done|]). split; [apply Hl|].
  assert (nodes m !! a = None) as Hnone.
  { destruct Hwf as (_ & Hfree & _). apply Hfree. rewrite Hf. left. }
  apply world_inv_update with m; try done.
  - intros b Hb. unfold footprint in Hb.
    rewrite fmap_app, fmap_cons in Hb. simpl in Hb.
    assert (b = a ∨ b ∈ footprint l ns) as [->|Hin]; [|by right|left; eauto].
    apply elem_of_cons in Hb as [->|Hb]; [right; left|].
    apply elem_of_app in Hb as [Hb|Hb].
    + right. right. apply list_elem_of_fmap in Hb as (x & -> & Hx).
      apply list_elem_of_fmap. exists x. split; [done|].
      eapply elem_of_sublist; [exact Hx|apply sublist_take].
    + apply elem_of_cons in Hb as [->|Hb]; [by left|].
      right. right. apply list_elem_of_fmap in Hb as (x & -> & Hx).
      apply list_elem_of_fmap. exists x. split; [done|].
      eapply elem_of_sublist; [exact Hx|apply sublist_drop].
  - intros b Hb [n Hn]. simpl.
    rewrite lookup_insert_ne.
    + rewrite lookup_insert_ne; [done|]. intros <-. by rewrite Hnone in Hn.
    + intros <-. apply (Hb ns Hown). by apply list_elem_of_lookup_2 in Hi.
  - intros l' Hl'ne. simpl. by rewrite lookup_insert_ne.
Qed.

Lemma world_inv_erase m own l ns i pa da dv :
  world_inv m own → own !! l = Some ns →
  footprint l ns !! i = Some pa →
  ns !! i = Some (da, dv) →
  let nxt := first_addr (drop (S i) ns) nullptr in
  let z := Z.of_nat (length ns) in
  ∃ pv,
    nodes m !! pa = Some (mkNode pv da) ∧ pa ≠ nullptr ∧
    nodes m !! da = Some (mkNode dv nxt) ∧ da ≠ nullptr ∧ pa ≠ da ∧
    sizes m !! l = Some z ∧
    world_inv (mem_erased m l pa pv da dv nxt z) (<[l := delete i ns]> own).
Proof.
  intros Hinv Hown Hi Hnsi nxt z.
  pose proof Hinv as (Hwf & Hdom & Hlists & Hdisj).
  pose proof (Hlists _ _ Hown) as Hl.
  destruct (is_list_erase m l ns i pa Hwf Hl Hi) as [Hpa0 H].
  rewrite Hnsi in H. destruct H as (pv & Hlpa & Hlda & Hda0 & Hne & Hl' & Hwf').
  fold nxt z in Hl', Hwf'.
  exists pv. do 5 (split; [done|]). split; [apply Hl|].
  assert (da ∈ footprint l ns) as Hdain.
  { right. apply list_elem_of_fmap. exists (da, dv). split; [done|].
    by apply list_elem_of_lookup_2 in Hnsi. }
  apply world_inv_update with m; try done.
  - intros b Hb. left. exists ns. split; [done|].
    unfold footprint in *. apply elem_of_cons in Hb as [->|Hb]; [left|right].
    apply list_elem_of_fmap in Hb as (x & -> & Hx).
    apply list_elem_of_fmap. exists x. split; [done|].
    eapply elem_of_sublist; [exact Hx|apply sublist_delete].
  - intros b Hb [n Hn]. simpl.
    rewrite lookup_delete_ne.
    + rewrite lookup_insert_ne; [done|]. intros <-. apply (Hb ns Hown).
      by apply list_elem_of_lookup_2 in Hi.
    + intros <-. by apply (Hb ns Hown).
  - intros l' Hl'ne. simpl. by rewrite lookup_insert_ne.
Qed.

(** ** Reasoning about computations *)

Lemma post_mono {A} (o : outcome A) (Q Q' : A → Mem → Prop) (E E' : exn → Mem → Prop) :
  post o Q E → (∀ a m, Q a m → Q' a m) → (∀ e m, E e m → E' e m) → post o Q' E'.
Proof. destruct o; simpl; eauto. Qed.

Lemma post_bind {A B} (c : M A) (k : A → M B) m Q' Q E :
  post (c m) Q' E → (∀ a m', Q' a m' → post (k a m') Q E) →
  post (bind c k m) Q E.
Proof. unfold bind. destruct (c m); simpl; eauto. Qed.

Lemma post_finally {A} (c : M A) cleanup m Q' E' (Q : A → Mem → Prop) E :
  post (c m) Q' E' →
  (∀ a m', Q' a m' → post (cleanup m') (λ _, Q a) (λ _ _, False)) →
  (∀ e m', E' e m' → post (cleanup m') (λ _, E e) (λ _ _, False)) →
  post (finally c cleanup m) Q E.
Proof.
  unfold finally. destruct (c m) as [a m'|e m'| |]; simpl; try done.
  - intros HQ H _. specialize (H _ _ HQ). by destruct (cleanup m').
  - intros HE _ H. specialize (H _ _ HE). by destruct (cleanup m').
Qed.

Lemma post_on_throw {A} (c : M A) handler m E' (Q : A → Mem → Prop) E :
  post (c m) Q E' →
  (∀ e m', E' e m' → post (handler m') (λ _, E e) (λ _ _, False)) →
  post (on_throw c handler m) Q E.
Proof.
  unfold on_throw. destruct (c m) as [a m'|e m'| |]; simpl; try done.
  intros HE H. specialize (H _ _ HE). by destruct (handler m').
Qed.

(** ** Construction *)

Lemma world_inv_fresh m own a :
  world_inv m own → fresh_storage m a → own !! a = None.
Proof.
  intros (_ & Hdom & _) (_ & _ & Hs & _).
  apply eq_None_not_Some. rewrite Hdom. by rewrite Hs; intros [? ?].
Qed.

Lemma world_inv_init_members m own this :
  world_inv m own → fresh_storage m this →
  ∃ m', init_members this m = Ret tt m' ∧
        world_inv m' (<[this := []]> own) ∧
        free m' = free m ∧ destroyed m' = destroyed m.
Proof.
  intros Hinv Hfresh. eexists. split; [reflexivity|]. split; [|done].
  pose proof (world_inv_fresh _ _ _ Hinv Hfresh) as Hown.
  pose proof Hinv as ((Hnd & Hfree & Hok) & _).
  destruct Hfresh as (Haok & Hn & Hs & Hnf).
  assert (this ≠ nullptr) as H0 by (unfold addr_ok, nullptr in *; lia).
  apply world_inv_update with m; try done.
  - split; [done|]. split; simpl.
    + intros b Hb. destruct (Hfree b Hb) as [? ?]. split; [|done].
      rewrite lookup_insert_ne; [done|]. unfold head_. by intros <-.
    + intros b. unfold head_. destruct (decide (b = this)) as [->|?]; [done|].
      rewrite lookup_insert_ne by done. apply Hok.
  - split; [|split]; simpl.
    + exists T_default. unfold head_. split; [done|]. split; [done|].
      exists nullptr. by rewrite lookup_insert_eq.
    + by rewrite lookup_insert_eq.
    + apply NoDup_singleton.
  - intros b [->|[]%elem_of_nil]%elem_of_cons. by right.
  - intros b _ [n Hb]. simpl. rewrite lookup_insert_ne; [done|].
    unfold head_. intros <-. by rewrite Hn in Hb.
  - intros l' Hne. simpl. by rewrite lookup_insert_ne.
Qed.

(** Dropping a list object whose nodes (if any) are abandoned. *)
Lemma world_inv_destroy_members m own this ns :
  world_inv m own → own !! this = Some ns →
  ∃ hv m', destroy_members this m = Ret tt m' ∧
        world_inv m' (delete this own) ∧
        free m' = free m ∧ destroyed m' = destroyed m ++ [hv].
Proof.
  intros Hinv Hown.
  pose proof Hinv as ((Hnd & Hfree & Hok) & Hdom & Hlists & Hdisj).
  destruct (is_list_sentinel _ _ _ (Hlists _ _ Hown)) as (H0 & hv & Hs).
  exists hv. eexists. split.
  { unfold destroy_members, head_.
    rewrite (bind_Ret _ _ _ _ _ (load_Ret _ _ _ H0 Hs)). reflexivity. }
  split; [|done]. unfold head_. split; [|split; [|split]]; simpl.
  - split; [done|]. split; simpl.
    + intros b Hb. destruct (Hfree b Hb) as [Hn ?]. split; [|done].
      rewrite lookup_delete_ne; [done|]. intros <-. by rewrite Hs in Hn.
    + intros b [n Hn]. apply Hok. apply lookup_delete_Some in Hn as [_ Hn]. eauto.
  - intros l. destruct (decide (l = this)) as [->|Hne].
    + rewrite !lookup_delete_eq. split; by intros [? ?].
    + rewrite !lookup_delete_ne by done. apply Hdom.
  - intros l ns' [Hne Hl]%lookup_delete_Some.
    apply is_list_frame with m; [by apply Hlists| |].
    + intros a Ha. simpl. rewrite lookup_delete_ne; [done|]. intros <-.
      apply (Hdisj this l ns ns' this); try done. left.
    + simpl. by rewrite lookup_delete_ne.
  - intros l1 l2 ns1 ns2 a Hne [_ H1]%lookup_delete_Some [_ H2]%lookup_delete_Some.
    by apply Hdisj.
Qed.

Lemma footprint_last l (ns : list (N * T)) next first :
  (first = true → ns = []) →
  (first = false → last ns.*1 = Some next) →
  footprint l ns !! length ns = Some (if first then head_ l else next).
Proof.
  intros H1 H2. destruct first.
  - by rewrite (H1 eq_refl).
  - specialize (H2 eq_refl). destruct ns as [|x ns]; [done|].
    unfold footprint. simpl length. rewrite lookup_cons.
    rewrite last_lookup in H2. rewrite length_fmap in H2. exact H2.
Qed.

(** One round of the constructors' loop appends a node to the list being
    built, or throws leaving the memory as it was. *)
Lemma build_step_post m own l ns v next first :
  world_inv m own → own !! l = Some ns →
  (first = true → ns = []) →
  (first = false → last ns.*1 = Some next) →
  post (build_step l v next first m)
    (λ st m', ∃ a fr,
       free m = a :: fr ∧ copy_throws v = false ∧ st = (a, false) ∧
       world_inv m' (<[l := ns ++ [(a, v)]]> own) ∧
       free m' = fr ∧ destroyed m' = destroyed m)
    (λ e m', m' = m ∧ (free m = [] ∨ copy_throws v = true)).
Proof.
  intros Hinv Hown H1 H2.
  pose proof (footprint_last l ns next first H1 H2) as Hi.
  set (pa := if first then head_ l else next) in *.
  assert (build_step l v next first
          = let! a := new_Node v nullptr in
            store_next pa a;;
            let! n := load pa in
            incr_size l;;
            ret (next_node n, false)) as ->.
  { unfold build_step, pa. by destruct first. }
  destruct (free m) as [|a fr] eqn:Hf.
  { rewrite (bind_Throw _ _ _ _ _ (new_Node_bad_alloc _ _ _ Hf)). simpl. eauto. }
  destruct (copy_throws v) eqn:Hc.
  { rewrite (bind_Throw _ _ _ _ _ (new_Node_copy_failure _ _ _ _ _ Hf Hc)).
    simpl. eauto. }
  destruct (world_inv_insert m own l ns (length ns) pa a v fr Hinv Hown Hi Hf)
    as (pv & Hlpa & Hpa0 & Hne & Hsz & Hinv').
  rewrite drop_all, take_ge in Hinv' by lia. simpl in Hinv'.
  rewrite drop_all in Hlpa. simpl in Hlpa.
  rewrite (bind_Ret _ _ _ _ _ (new_Node_Ret _ _ _ _ _ Hf Hc)).
  erewrite bind_Ret; cycle 1.
  { apply store_next_Ret; [done|]. simpl. rewrite lookup_insert_ne by done. exact Hlpa. }
  erewrite bind_Ret; cycle 1.
  { apply load_Ret; [done|]. simpl. by rewrite lookup_insert_eq. }
  erewrite bind_Ret; cycle 1.
  { apply incr_size_Ret. simpl. exact Hsz. }
  simpl. exists a, fr. do 3 (split; [done|]). split; [exact Hinv'|done].
Qed.

Lemma init_loop_post values : ∀ m own l ns next first,
  world_inv m own → own !! l = Some ns →
  (first = true → ns = []) →
  (first = false → last ns.*1 = Some next) →
  post (init_loop l values next first m)
    (λ _ m', ∃ ns',
       ns'.*2 = values ∧ world_inv m' (<[l := ns ++ ns']> own) ∧
       destroyed m' = destroyed m ++ values)
    (λ _ m', (∃ ns', world_inv m' (<[l := ns ++ ns']> own)) ∧
             ¬ can_build values m).
Proof.
  induction values as [|v values IH]; intros m own l ns next first Hinv Hown H1 H2.
  - simpl. exists []. rewrite !app_nil_r. by rewrite insert_id.
  - simpl. unfold bind at 1, copy_construct.
    destruct (copy_throws v) eqn:Hc.
    { simpl. split.
      - exists []. rewrite app_nil_r. by rewrite insert_id.
      - intros [Hall _]. apply Forall_cons in Hall as [? _]. congruence. }
    pose proof (build_step_post m own l ns v next first Hinv Hown H1 H2) as Hp.
    unfold bind, finally.
    destruct (build_step l v next first m) as [st m1|e m1| |]; simpl in Hp; try done.
    + destruct Hp as (a & fr & Hf & _ & -> & Hinv1 & Hf1 & Hd1). simpl.
      specialize (IH (set_destroyed (λ d, d ++ [v]) m1)
                     (<[l := ns ++ [(a, v)]]> own) l (ns ++ [(a, v)]) a false).
      eapply post_mono; [apply IH| |]; clear IH.
      * exact Hinv1.
      * by rewrite lookup_insert_eq.
      * done.
      * intros _. rewrite fmap_app. simpl. by rewrite last_snoc.
      * intros _ m' (ns' & Hv & Hinv' & Hd'). exists ((a, v) :: ns').
        rewrite insert_insert_eq, <- app_assoc in Hinv'.
        split; [by rewrite fmap_cons, Hv|]. split; [exact Hinv'|].
        rewrite Hd'. simpl. rewrite Hd1. by rewrite <- app_assoc.
      * intros _ m' [(ns' & Hinv') Hnot]. split.
        -- exists ((a, v) :: ns').
           by rewrite insert_insert_eq, <- app_assoc in Hinv'.
        -- intros [Hall Hlen]. apply Hnot.
           apply Forall_cons in Hall as [_ Hall]. split; [done|].
           simpl. rewrite Hf1. rewrite Hf in Hlen. simpl in Hlen. lia.
    + destruct Hp as [-> [Hf|Hc']]; [|congruence]. simpl. split.
      * exists []. rewrite app_nil_r. by rewrite insert_id.
      * intros [_ Hlen]. rewrite Hf in Hlen. simpl in Hlen. lia.
Qed.

(** The initializer-list constructor either builds the list of the given
    values, or throws and leaves no list object behind. *)
Lemma SingleLinkedList_init_post m own this values :
  world_inv m own → fresh_storage m this →
  post (SingleLinkedList_init this values m)
    (λ _ m', ∃ ns, ns.*2 = values ∧ world_inv m' (<[this := ns]> own))
    (λ _ m', world_inv m' own ∧ ¬ can_build values m).
Proof.
  intros Hinv Hfresh.
  pose proof (world_inv_fresh _ _ _ Hinv Hfresh) as Hnone.
  destruct (world_inv_init_members m own this Hinv Hfresh)
    as (m1 & Hrun & Hinv1 & Hf1 & Hd1).
  unfold SingleLinkedList_init. rewrite (bind_Ret _ _ _ _ _ Hrun).
  destruct (decide (length values = 0%nat)) as [Hlen|Hlen].
  - apply nil_length_inv in Hlen as ->. simpl. by exists [].
  - pose proof (init_loop_post values m1 (<[this := []]> own) this [] nullptr true
                  Hinv1 (lookup_insert_eq _ _ _) (λ _, eq_refl)) as Hp.
    specialize (Hp ltac:(done)). unfold on_throw.
    destruct (init_loop this values nullptr true m1) as [[] m2|e m2| |];
      simpl in Hp; try done.
    + destruct Hp as (ns' & Hv & Hinv2 & _).
      simpl. exists ns'. by rewrite insert_insert_eq in Hinv2.
    + destruct Hp as [(ns' & Hinv2) Hnot]. simpl in Hinv2.
      destruct (world_inv_destroy_members m2 _ this ns' Hinv2 (lookup_insert_eq _ _ _))
        as (hv & m3 & -> & Hinv3 & _). simpl.
      rewrite insert_insert_eq, delete_insert_id in Hinv3 by done.
      split; [done|]. unfold can_build in *. by rewrite Hf1 in Hnot.
Qed.

(** ** Traversal *)

Lemma iter_deref_Ret a n m :
  a ≠ nullptr → nodes m !! a = Some n →
  iter_deref (Iterator a) m = Ret (value n) m.
Proof.
  intros Ha Hl. unfold iter_deref. simpl node_. rewrite decide_False by done.
  by rewrite (bind_Ret _ _ _ _ _ (load_Ret _ _ _ Ha Hl)).
Qed.

Lemma iter_incr_Ret a n m :
  a ≠ nullptr → nodes m !! a = Some n →
  iter_incr (Iterator a) m = Ret (Iterator (next_node n)) m.
Proof.
  intros Ha Hl. unfold iter_incr. simpl node_. rewrite decide_False by done.
  by rewrite (bind_Ret _ _ _ _ _ (load_Ret _ _ _ Ha Hl)).
Qed.

Lemma iter_ne_null a : a ≠ nullptr → iter_ne (Iterator a) (Iterator nullptr) = true.
Proof.
  intros Ha. unfold iter_ne. cbn [node_]. apply negb_true_iff, N.eqb_neq. by intros <-.
Qed.

Lemma begin_Ret m this ns :
  is_list m this ns →
  begin this m = Ret (Iterator (first_addr ns nullptr)) m ∧
  begin_const this m = Ret (Iterator (first_addr ns nullptr)) m ∧
  seg (nodes m) (first_addr ns nullptr) ns nullptr.
Proof.
  intros Hl. destruct (is_list_sentinel _ _ _ Hl) as (H0 & hv & Hs).
  unfold begin, begin_const, head_.
  rewrite (bind_Ret _ _ _ _ _ (load_Ret _ _ _ H0 Hs)).
  do 2 (split; [done|]).
  destruct Hl as ([hv' Hseg] & _). simpl in Hseg.
  destruct Hseg as (_ & _ & r & Hr & Hseg).
  by rewrite <- (seg_first _ _ _ _ Hseg).
Qed.

Lemma traverse_loop_seg ns : ∀ fuel p m,
  seg (nodes m) p ns nullptr → (length ns < fuel)%nat →
  traverse_loop fuel (Iterator p) (Iterator nullptr) m = Ret ns.*2 m.
Proof.
  induction ns as [|[a v] ns IH]; intros [|fuel] p m Hseg Hlen;
    simpl in Hlen; try lia; simpl in Hseg.
  - by subst p.
  - destruct Hseg as (-> & Ha & r & Hl & Hseg).
    simpl. rewrite iter_ne_null by done.
    rewrite (bind_Ret _ _ _ _ _ (iter_deref_Ret _ _ _ Ha Hl)).
    rewrite (bind_Ret _ _ _ _ _ (iter_incr_Ret _ _ _ Ha Hl)).
    simpl. rewrite (bind_Ret _ _ _ _ _ (IH fuel r m Hseg ltac:(lia))). done.
Qed.

Lemma traverse_Ret m this ns fuel :
  is_list m this ns → (length ns < fuel)%nat →
  traverse fuel this m = Ret ns.*2 m.
Proof.
  intros Hl Hlen. destruct (begin_Ret _ _ _ Hl) as (Hb & _ & Hseg).
  unfold traverse. rewrite (bind_Ret _ _ _ _ _ Hb).
  unfold end_, bind at 1, ret at 1. by apply traverse_loop_seg.
Qed.

Lemma world_inv_lookup m own l ns :
  world_inv m own → own !! l = Some ns → is_list m l ns.
Proof. intros (_ & _ & H & _). apply H. Qed.

(** C4: in a consistent memory with storage for the sequence [vals] whose
    elements copy without throwing, the initializer-list constructor
    returns normally; traversing the new list from begin() to end() then
    yields exactly [vals], in order, and GetSize() is the length of [vals]. *)
Theorem SingleLinkedList_init_traverse m own this vals fuel :
  world_inv m own → fresh_storage m this → can_build vals m →
  (length vals < fuel)%nat →
  ∃ m',
    SingleLinkedList_init this vals m = Ret tt m' ∧
    traverse fuel this m' = Ret vals m' ∧
    GetSize this m' = Ret (Z.of_nat (length vals)) m'.
Proof.
  intros Hinv Hfresh Hcan Hfuel.
  pose proof (SingleLinkedList_init_post m own this vals Hinv Hfresh) as Hp.
  destruct (SingleLinkedList_init this vals m) as [[] m'|e m'| |]; simpl in Hp;
    try done; [|by destruct Hp].
  destruct Hp as (ns & <- & Hinv').
  pose proof (world_inv_lookup _ _ _ _ Hinv' (lookup_insert_eq _ _ _)) as Hl.
  rewrite length_fmap in Hfuel |- *.
  exists m'. split; [done|]. split; [by apply traverse_Ret|].
  apply load_size_Ret. apply Hl.
Qed.

(** ** Comparison of lists *)

Lemma std_equal_seg ns1 : ∀ ns2 fuel p1 p2 m,
  seg (nodes m) p1 ns1 nullptr → seg (nodes m) p2 ns2 nullptr →
  (length ns1 < fuel)%nat →
  std_equal fuel (Iterator p1) (Iterator nullptr) (Iterator p2) m
  = match equal_scan ns1.*2 ns2.*2 with
    | Some b => Ret b m
    | None => Fault
    end.
Proof.
  induction ns1 as [|[a v] ns1 IH]; intros ns2 [|fuel] p1 p2 m Hs1 Hs2 Hlen;
    simpl in Hlen; try lia; simpl in Hs1.
  - by subst p1.
  - destruct Hs1 as (-> & Ha & r & Hl & Hs1).
    simpl. rewrite iter_ne_null by done.
    rewrite (bind_Ret _ _ _ _ _ (iter_deref_Ret _ _ _ Ha Hl)).
    destruct ns2 as [|[b w] ns2]; simpl in Hs2.
    + subst p2. done.
    + destruct Hs2 as (-> & Hb & r' & Hl' & Hs2).
      rewrite (bind_Ret _ _ _ _ _ (iter_deref_Ret _ _ _ Hb Hl')).
      simpl. destruct (T_eq v w); simpl; [|done].
      rewrite (bind_Ret _ _ _ _ _ (iter_incr_Ret _ _ _ Ha Hl)).
      rewrite (bind_Ret _ _ _ _ _ (iter_incr_Ret _ _ _ Hb Hl')).
      simpl. apply IH; [done|done|lia].
Qed.

Lemma operator_eq_scan m lhs rhs ns1 ns2 fuel :
  is_list m lhs ns1 → is_list m rhs ns2 → (length ns1 < fuel)%nat →
  operator_eq fuel lhs rhs m
  = match equal_scan ns1.*2 ns2.*2 with
    | Some b => Ret b m
    | None => Fault
    end.
Proof.
  intros H1 H2 Hlen.
  destruct (begin_Ret _ _ _ H1) as (_ & Hb1 & Hs1).
  destruct (begin_Ret _ _ _ H2) as (_ & Hb2 & Hs2).
  unfold operator_eq. rewrite (bind_Ret _ _ _ _ _ Hb1).
  unfold end_const, bind at 1, ret at 1.
  rewrite (bind_Ret _ _ _ _ _ Hb2). by apply std_equal_seg.
Qed.

Lemma std_lexicographical_compare_seg ns1 : ∀ ns2 fuel p1 p2 m,
  seg (nodes m) p1 ns1 nullptr → seg (nodes m) p2 ns2 nullptr →
  (length ns1 < fuel)%nat →
  std_lexicographical_compare fuel (Iterator p1) (Iterator nullptr)
    (Iterator p2) (Iterator nullptr) m
  = Ret (lex_lt ns1.*2 ns2.*2) m.
Proof.
  assert (iter_ne (Iterator nullptr) (Iterator nullptr) = false) as Hnn by done.
  assert (iter_eq (Iterator nullptr) (Iterator nullptr) = true) as Hee by done.
  induction ns1 as [|[a v] ns1 IH]; intros ns2 [|fuel] p1 p2 m Hs1 Hs2 Hlen;
    simpl in Hlen; try lia; simpl in Hs1.
  - subst p1. cbn [std_lexicographical_compare]. rewrite Hnn, Hee.
    destruct ns2 as [|[b w] ns2]; simpl in Hs2.
    + subst p2. by rewrite Hnn.
    + destruct Hs2 as (-> & Hb & _). by rewrite iter_ne_null.
  - destruct Hs1 as (-> & Ha & r & Hl & Hs1).
    cbn [std_lexicographical_compare]. rewrite iter_ne_null by done.
    destruct ns2 as [|[b w] ns2]; simpl in Hs2.
    + subst p2. rewrite Hnn. cbn [andb]. by rewrite andb_false_r.
    + destruct Hs2 as (-> & Hb & r' & Hl' & Hs2).
      rewrite iter_ne_null by done. cbn [andb].
      rewrite (bind_Ret _ _ _ _ _ (iter_deref_Ret _ _ _ Ha Hl)).
      rewrite (bind_Ret _ _ _ _ _ (iter_deref_Ret _ _ _ Hb Hl')).
      simpl. destruct (T_lt v w); [done|]. destruct (T_lt w v); [done|].
      rewrite (bind_Ret _ _ _ _ _ (iter_incr_Ret _ _ _ Ha Hl)).
      rewrite (bind_Ret _ _ _ _ _ (iter_incr_Ret _ _ _ Hb Hl')).
      simpl. apply IH; [done|done|lia].
Qed.

Lemma operator_lt_lex m lhs rhs ns1 ns2 fuel :
  is_list m lhs ns1 → is_list m rhs ns2 → (length ns1 < fuel)%nat →
  operator_lt fuel lhs rhs m = Ret (lex_lt ns1.*2 ns2.*2) m.
Proof.
  intros H1 H2 Hlen.
  destruct (begin_Ret _ _ _ H1) as (_ & Hb1 & Hs1).
  destruct (begin_Ret _ _ _ H2) as (_ & Hb2 & Hs2).
  unfold operator_lt. rewrite (bind_Ret _ _ _ _ _ Hb1).
  unfold end_const, bind at 1, ret at 1.
  rewrite (bind_Ret _ _ _ _ _ Hb2).
  unfold bind at 1, ret at 1. by apply std_lexicographical_compare_seg.
Qed.

(** ** The modifiers in the whole memory *)

Lemma PushFront_post m own this ns v :
  world_inv m own → own !! this = Some ns →
  post (PushFront this v m)
    (λ _ m', ∃ a, world_inv m' (<[this := (a, v) :: ns]> own))
    (λ _ m', m' = m).
Proof.
  intros Hinv Hown.
  destruct (is_list_sentinel _ _ _ (world_inv_lookup _ _ _ _ Hinv Hown))
    as (H0 & hv & Hs).
  destruct (free m) as [|a fr] eqn:Hf.
  { unfold PushFront, head_. rewrite (bind_Ret _ _ _ _ _ (load_Ret _ _ _ H0 Hs)).
    by rewrite (bind_Throw _ _ _ _ _ (new_Node_bad_alloc _ _ _ Hf)). }
  destruct (copy_throws v) eqn:Hc.
  { unfold PushFront, head_. rewrite (bind_Ret _ _ _ _ _ (load_Ret _ _ _ H0 Hs)).
    by rewrite (bind_Throw _ _ _ _ _ (new_Node_copy_failure _ _ _ _ _ Hf Hc)). }
  destruct (world_inv_insert m own this ns 0 this a v fr Hinv Hown eq_refl Hf)
    as (pv & Hlpa & _ & Hne & Hsz & Hinv').
  rewrite drop_0, take_0 in Hinv'. rewrite drop_0 in Hlpa. simpl in Hinv'.
  erewrite PushFront_Ret by done. simpl. by exists a.
Qed.

Lemma InsertAfter_post m own this ns i pos v :
  world_inv m own → own !! this = Some ns →
  footprint this ns !! i = Some (node_ pos) →
  post (InsertAfter this pos v m)
    (λ it m', world_inv m'
                (<[this := take i ns ++ (node_ it, v) :: drop i ns]> own))
    (λ _ m', m' = m).
Proof.
  destruct pos as [pa]. simpl node_. intros Hinv Hown Hi.
  pose proof (world_inv_lookup _ _ _ _ Hinv Hown) as Hl.
  destruct (is_list_lookup _ _ _ _ Hl (list_elem_of_lookup_2 _ _ _ Hi))
    as [Hpa0 [n Hn]].
  destruct (free m) as [|a fr] eqn:Hf.
  { unfold InsertAfter. simpl node_. rewrite decide_False by done.
    rewrite (bind_Ret _ _ _ _ _ (load_Ret _ _ _ Hpa0 Hn)).
    by rewrite (bind_Throw _ _ _ _ _ (new_Node_bad_alloc _ _ _ Hf)). }
  destruct (copy_throws v) eqn:Hc.
  { unfold InsertAfter. simpl node_. rewrite decide_False by done.
    rewrite (bind_Ret _ _ _ _ _ (load_Ret _ _ _ Hpa0 Hn)).
    by rewrite (bind_Throw _ _ _ _ _ (new_Node_copy_failure _ _ _ _ _ Hf Hc)). }
  destruct (world_inv_insert m own this ns i pa a v fr Hinv Hown Hi Hf)
    as (pv & Hlpa & _ & Hne & Hsz & Hinv').
  erewrite InsertAfter_Ret by done. exact Hinv'.
Qed.

Lemma EraseAfter_post m own this ns i pos :
  world_inv m own → own !! this = Some ns →
  footprint this ns !! i = Some (node_ pos) →
  post (EraseAfter this pos m)
    (λ _ m', world_inv m' (<[this := delete i ns]> own))
    (λ _ _, False).
Proof.
  destruct pos as [pa]. simpl node_. intros Hinv Hown Hi.
  destruct (ns !! i) as [[da dv]|] eqn:Hnsi.
  - destruct (world_inv_erase m own this ns i pa da dv Hinv Hown Hi Hnsi)
      as (pv & Hlpa & Hpa0 & Hlda & Hda0 & Hne & Hsz & Hinv').
    erewrite EraseAfter_Ret by done. exact Hinv'.
  - pose proof Hinv as (Hwf & _).
    destruct (is_list_erase m this ns i pa Hwf (world_inv_lookup _ _ _ _ Hinv Hown) Hi)
      as [Hpa0 H].
    rewrite Hnsi in H. destruct H as [pv Hlpa].
    erewrite EraseAfter_last by done. simpl.
    apply lookup_ge_None in Hnsi.
    rewrite delete_take_drop, take_ge, drop_ge, app_nil_r by lia.
    by rewrite insert_id.
Qed.

Lemma PopFront_post m own this ns :
  world_inv m own → own !! this = Some ns →
  post (PopFront this m)
    (λ _ m', world_inv m' (<[this := tail ns]> own))
    (λ _ _, False).
Proof.
  intros Hinv Hown. destruct ns as [|[da dv] ns].
  - pose proof (world_inv_lookup _ _ _ _ Hinv Hown) as (_ & Hsz & _).
    rewrite PopFront_empty by done. simpl. by rewrite insert_id.
  - destruct (world_inv_erase m own this _ 0 this da dv Hinv Hown eq_refl eq_refl)
      as (pv & Hlpa & Hpa0 & Hlda & Hda0 & Hne & Hsz & Hinv').
    erewrite PopFront_Ret; try done; simpl length; lia.
Qed.

(** The loop of Clear() never reads or writes [size_]: it runs the same on
    memories that differ only there. *)
Lemma Clear_loop_post ns : ∀ fuel m0 own l m,
  world_inv m0 own → own !! l = Some ns →
  (length ns < fuel)%nat →
  nodes m = nodes m0 → free m = free m0 → destroyed m = destroyed m0 →
  ∃ m0',
    Clear_loop fuel l m
    = Ret tt (mkMem (nodes m0') (sizes m) (free m0') (destroyed m0')) ∧
    world_inv m0' (<[l := []]> own) ∧
    sizes m0' = <[l := 0]> (sizes m0) ∧
    destroyed m0' = destroyed m0 ++ ns.*2.
Proof.
  induction ns as [|[da dv] ns IH]; intros [|fuel] m0 own l m Hinv Hown Hlen Hn Hf Hd;
    simpl in Hlen; try lia.
  - exists m0.
    pose proof (world_inv_lookup _ _ _ _ Hinv Hown) as Hl.
    destruct (is_list_sentinel _ _ _ Hl) as (H0 & hv & Hs).
    simpl in Hs. rewrite <- Hn in Hs. split; [|split; [|split]].
    + cbn [Clear_loop]. unfold head_.
      rewrite (bind_Ret _ _ _ _ _ (load_Ret _ _ _ H0 Hs)).
      cbn [next_node]. rewrite decide_True by done. unfold ret.
      destruct m; simpl in *. by subst.
    + by rewrite insert_id.
    + destruct Hl as (_ & Hsz & _). by rewrite insert_id.
    + simpl. by rewrite app_nil_r.
  - destruct (world_inv_erase m0 own l _ 0 l da dv Hinv Hown eq_refl eq_refl)
      as (pv & Hlpa & Hpa0 & Hlda & Hda0 & Hne & Hsz & Hinv').
    simpl in Hinv', Hlda. rewrite drop_0 in Hinv', Hlda.
    set (m1 := mem_erased m0 l l pv da dv (first_addr ns nullptr)
                 (Z.of_nat (length ((da, dv) :: ns)))) in *.
    set (m' := mkMem (nodes m1) (sizes m) (free m1) (destroyed m1)).
    destruct (IH fuel m1 (<[l := ns]> own) l m' Hinv'
                (lookup_insert_eq _ _ _) ltac:(lia) eq_refl eq_refl eq_refl)
      as (m0' & Hrun & Hinv'' & Hsz' & Hd').
    exists m0'. split; [|split; [|split]].
    + rewrite <- Hn in Hlpa, Hlda.
      cbn [Clear_loop]. unfold head_.
      rewrite (bind_Ret _ _ _ _ _ (load_Ret _ _ _ Hpa0 Hlpa)).
      simpl next_node. rewrite decide_False by done.
      rewrite (bind_Ret _ _ _ _ _ (load_Ret _ _ _ Hda0 Hlda)).
      rewrite (bind_Ret _ _ _ _ _ (store_next_Ret _ _ _ _ Hpa0 Hlpa)).
      erewrite bind_Ret; cycle 1.
      { apply delete_Node_Ret; [done|]. simpl.
        rewrite lookup_insert_ne by done. exact Hlda. }
      match goal with |- Clear_loop _ _ ?X = _ => replace X with m' end;
        [exact Hrun|].
      unfold m', m1, mem_erased, set_free, set_nodes, set_destroyed. simpl.
      by rewrite Hn, Hf, Hd.
    + by rewrite insert_insert_eq in Hinv''.
    + rewrite Hsz'. unfold m1. simpl. by rewrite insert_insert_eq.
    + rewrite Hd'. unfold m1. simpl. by rewrite <- app_assoc.
Qed.

Lemma Clear_post m own this ns fuel :
  world_inv m own → own !! this = Some ns → (length ns < fuel)%nat →
  post (Clear fuel this m)
    (λ _ m', world_inv m' (<[this := []]> own) ∧
             destroyed m' = destroyed m ++ ns.*2)
    (λ _ _, False).
Proof.
  intros Hinv Hown Hlen.
  destruct (Clear_loop_post ns fuel m own this m Hinv Hown Hlen eq_refl eq_refl eq_refl)
    as (m0' & Hrun & Hinv' & Hsz' & Hd').
  unfold Clear. rewrite (bind_Ret _ _ _ _ _ Hrun).
  pose proof (world_inv_lookup _ _ _ _ Hinv Hown) as (_ & Hsz & _).
  erewrite store_size_Ret by (simpl; exact Hsz).
  match goal with |- post (Ret _ ?X) _ _ => replace X with m0' end; [done|].
  unfold set_sizes. simpl. rewrite <- Hsz'. by destruct m0'.
Qed.

Lemma SingleLinkedList_dtor_post m own this ns fuel :
  world_inv m own → own !! this = Some ns → (length ns < fuel)%nat →
  post (SingleLinkedList_dtor fuel this m)
    (λ _ m', world_inv m' (delete this own))
    (λ _ _, False).
Proof.
  intros Hinv Hown Hlen. unfold SingleLinkedList_dtor.
  pose proof (Clear_post m own this ns fuel Hinv Hown Hlen) as Hp.
  unfold bind. destruct (Clear fuel this m) as [[] m1|e m1| |]; simpl in Hp; try done.
  destruct Hp as [Hinv1 _].
  destruct (world_inv_destroy_members m1 _ this [] Hinv1 (lookup_insert_eq _ _ _))
    as (hv & m2 & -> & Hinv2 & _).
  simpl. by rewrite delete_insert_eq in Hinv2.
Qed.

(** swap exchanges the nodes and the sizes of two live lists. *)
Lemma swap_post m own this other ns1 ns2 :
  world_inv m own → own !! this = Some ns1 → own !! other = Some ns2 →
  post (swap this other m)
    (λ _ m', world_inv m' (<[this := ns2]> (<[other := ns1]> own)) ∧
             free m' = free m ∧ destroyed m' = destroyed m)
    (λ _ _, False).
Proof.
  intros Hinv H1 H2.
  pose proof Hinv as ((Hnd & Hfree & Hok) & Hdom & Hlists & Hdisj).
  pose proof (Hlists _ _ H1) as Hl1. pose proof (Hlists _ _ H2) as Hl2.
  destruct (is_list_sentinel _ _ _ Hl1) as (H10 & hv1 & Hs1).
  destruct (is_list_sentinel _ _ _ Hl2) as (H20 & hv2 & Hs2).
  pose proof Hl1 as (_ & Hz1 & Hnd1). pose proof Hl2 as (_ & Hz2 & Hnd2).
  destruct (begin_Ret _ _ _ Hl1) as (_ & _ & Hseg1).
  destruct (begin_Ret _ _ _ Hl2) as (_ & _ & Hseg2).
  unfold swap, head_.
  rewrite (bind_Ret _ _ _ _ _ (load_Ret _ _ _ H10 Hs1)).
  rewrite (bind_Ret _ _ _ _ _ (load_Ret _ _ _ H20 Hs2)).
  rewrite (bind_Ret _ _ _ _ _ (store_next_Ret _ _ _ _ H10 Hs1)).
  destruct (decide (this = other)) as [->|Hne].
  - assert (ns1 = ns2) as -> by congruence.
    assert (hv1 = hv2) as -> by congruence.
    erewrite bind_Ret; cycle 1.
    { apply store_next_Ret; [done|]. simpl. by rewrite lookup_insert_eq. }
    erewrite bind_Ret; cycle 1. { apply load_size_Ret. exact Hz2. }
    erewrite bind_Ret; cycle 1. { apply load_size_Ret. exact Hz2. }
    erewrite bind_Ret; cycle 1. { apply store_size_Ret with (z := Z.of_nat (length ns2)). exact Hz2. }
    erewrite store_size_Ret; cycle 1. { simpl. by rewrite lookup_insert_eq. }
    simpl. split; [|done].
    rewrite insert_insert_eq. rewrite (insert_id own) by done.
    match goal with |- world_inv ?X _ => replace X with m end; [done|].
    unfold set_sizes, set_nodes. simpl.
    rewrite !insert_insert_eq. rewrite !insert_id by done. by destruct m.
  - erewrite bind_Ret; cycle 1.
    { apply store_next_Ret; [done|]. simpl. rewrite lookup_insert_ne by done. exact Hs2. }
    erewrite bind_Ret; cycle 1. { apply load_size_Ret. exact Hz1. }
    erewrite bind_Ret; cycle 1. { apply load_size_Ret. exact Hz2. }
    erewrite bind_Ret; cycle 1. { apply store_size_Ret with (z := Z.of_nat (length ns1)). exact Hz1. }
    erewrite store_size_Ret; cycle 1. { simpl. rewrite lookup_insert_ne by done. exact Hz2. }
    simpl. split; [|done].
    assert (∀ a, a ∈ footprint this ns1 → a ∈ footprint other ns2 → False) as Hd12.
    { intros a. by apply (Hdisj this other). }
    assert (this ∉ ns2.*1) as Ht2.
    { intros Hin. apply (Hd12 this); [left|by right]. }
    assert (other ∉ ns1.*1) as Ho1.
    { intros Hin. apply (Hd12 other); [by right|left]. }
    apply NoDup_cons in Hnd1 as [Ht1 Hnd1]. apply NoDup_cons in Hnd2 as [Ho2 Hnd2].
    split; [|split; [|split]].
    + split; [done|]. split; simpl.
      * intros b Hb. destruct (Hfree b Hb) as [Hn ?]. split; [|done].
        rewrite lookup_insert_ne by (intros <-; by rewrite Hs2 in Hn).
        rewrite lookup_insert_ne by (intros <-; by rewrite Hs1 in Hn). done.
      * intros b [n Hn]. apply Hok.
        destruct (decide (b = other)) as [->|?]; [by rewrite Hs2|].
        rewrite lookup_insert_ne in Hn by done.
        destruct (decide (b = this)) as [->|?]; [by rewrite Hs1|].
        rewrite lookup_insert_ne in Hn by done. by rewrite Hn.
    + intros l. simpl.
      destruct (decide (l = this)) as [->|?].
      { rewrite lookup_insert_eq. rewrite lookup_insert_ne by done.
        rewrite lookup_insert_eq. split; eauto. }
      rewrite (lookup_insert_ne _ this) by done.
      destruct (decide (l = other)) as [->|?].
      { rewrite !lookup_insert_eq. split; eauto. }
      rewrite !lookup_insert_ne by done. apply Hdom.
    + intros l ns. destruct (decide (l = this)) as [->|?].
      { rewrite lookup_insert_eq. intros [= <-]. split; [|split]; simpl.
        - exists hv1. unfold head_. split; [done|]. split; [done|].
          exists (first_addr ns2 nullptr). split.
          + rewrite lookup_insert_ne by done. by rewrite lookup_insert_eq.
          + eapply seg_frame; [|exact Hseg2]. intros b Hb.
            rewrite lookup_insert_ne by (by intros <-).
            rewrite lookup_insert_ne by (by intros <-). done.
        - rewrite lookup_insert_ne by done. by rewrite lookup_insert_eq.
        - by apply NoDup_cons. }
      rewrite (lookup_insert_ne _ this) by done.
      destruct (decide (l = other)) as [->|?].
      { rewrite lookup_insert_eq. intros [= <-]. split; [|split]; simpl.
        - exists hv2. unfold head_. split; [done|]. split; [done|].
          exists (first_addr ns1 nullptr). split.
          + by rewrite lookup_insert_eq.
          + eapply seg_frame; [|exact Hseg1]. intros b Hb.
            rewrite lookup_insert_ne by (by intros <-).
            rewrite lookup_insert_ne by (by intros <-). done.
        - by rewrite lookup_insert_eq.
        - by apply NoDup_cons. }
      rewrite lookup_insert_ne by done. intros Hl.
      apply is_list_frame with m; [by apply Hlists| |].
      * intros b Hb. simpl.
        rewrite lookup_insert_ne.
        -- rewrite lookup_insert_ne; [done|]. intros <-.
           apply (Hdisj this l ns1 ns this); [done|done|done|left|done].
        -- intros <-. apply (Hdisj other l ns2 ns other); [done|done|done|left|done].
      * simpl. by rewrite !lookup_insert_ne.
    + assert (∀ l ns a, l ≠ this → l ≠ other → own !! l = Some ns →
                a ∈ footprint l ns →
                a ∈ footprint this ns2 ∨ a ∈ footprint other ns1 → False) as Hthird.
      { intros l ns a ? ? Hl Ha Hin.
        assert (a ∈ footprint this ns1 ∨ a ∈ footprint other ns2) as [Hin'|Hin'].
        { unfold footprint in *.
          destruct Hin as [[->|Hin]%elem_of_cons|[->|Hin]%elem_of_cons].
          - left. left.
          - right. by right.
          - right. left.
          - left. by right. }
        - by apply (Hdisj this l ns1 ns a).
        - by apply (Hdisj other l ns2 ns a). }
      assert (∀ a, a ∈ footprint this ns2 → a ∈ footprint other ns1 → False) as Hnew.
      { intros a Ha Hb. unfold footprint, head_ in *.
        apply elem_of_cons in Ha as [->|Ha]; apply elem_of_cons in Hb as [->|Hb];
          try done.
        apply (Hd12 a); by right. }
      intros l1 l2 ns1' ns2' a Hne12.
      destruct (decide (l1 = this)) as [->|?]; [rewrite lookup_insert_eq|
        rewrite (lookup_insert_ne _ this) by done];
      (destruct (decide (l2 = this)) as [->|?]; [rewrite lookup_insert_eq|
        rewrite (lookup_insert_ne _ this) by done]); try done.
      * destruct (decide (l2 = other)) as [->|?];
          [rewrite lookup_insert_eq|rewrite lookup_insert_ne by done].
        -- intros [= <-] [= <-]. apply Hnew.
        -- intros [= <-] Hl2' Ha Hb. eapply Hthird; eauto.
      * destruct (decide (l1 = other)) as [->|?];
          [rewrite lookup_insert_eq|rewrite lookup_insert_ne by done].
        -- intros [= <-] [= <-] Ha Hb. by apply (Hnew a).
        -- intros Hl1' [= <-] Ha Hb. eapply Hthird; eauto.
      * destruct (decide (l1 = other)) as [->|?];
          [rewrite lookup_insert_eq|rewrite lookup_insert_ne by done];
        (destruct (decide (l2 = other)) as [->|?];
          [rewrite lookup_insert_eq|rewrite lookup_insert_ne by done]); try done.
        -- intros [= <-] Hl2' Ha Hb. eapply (Hthird l2); eauto.
        -- intros Hl1' [= <-] Ha Hb. eapply (Hthird l1); eauto.
        -- by apply Hdisj.
Qed.

(** ** Copying *)

Lemma is_list_suffix m l pre a v rest :
  is_list m l (pre ++ (a, v) :: rest) →
  a ≠ nullptr ∧ nodes m !! a = Some (mkNode v (first_addr rest nullptr)).
Proof.
  intros ([hv Hseg] & _).
  change ((head_ l, hv) :: pre ++ (a, v) :: rest)
    with (((head_ l, hv) :: pre) ++ (a, v) :: rest) in Hseg.
  apply seg_app in Hseg as (r & _ & Hseg). simpl in Hseg.
  destruct Hseg as (-> & Ha & r' & Hl & Hseg).
  by rewrite <- (seg_first _ _ _ _ Hseg).
Qed.

Lemma copy_loop_post rest : ∀ fuel m own temp other pre built next first,
  world_inv m own → own !! temp = Some built →
  own !! other = Some (pre ++ rest) → temp ≠ other →
  (first = true → built = []) →
  (first = false → last built.*1 = Some next) →
  (length rest < fuel)%nat →
  post (copy_loop fuel temp (Iterator (first_addr rest nullptr))
          (Iterator nullptr) next first m)
    (λ _ m', ∃ ns',
       ns'.*2 = rest.*2 ∧ world_inv m' (<[temp := built ++ ns']> own))
    (λ _ m', (∃ ns', world_inv m' (<[temp := built ++ ns']> own) ∧
                     (length ns' ≤ length rest)%nat) ∧
             ¬ can_build rest.*2 m).
Proof.
  induction rest as [|[a v] rest IH];
    intros [|fuel] m own temp other pre built next first Hinv Htemp Hother Hne H1 H2 Hlen;
    simpl in Hlen; try lia.
  - simpl. exists []. rewrite app_nil_r. by rewrite insert_id.
  - pose proof (world_inv_lookup _ _ _ _ Hinv Hother) as Hlo.
    destruct (is_list_suffix _ _ _ _ _ _ Hlo) as [Ha Hla].
    cbn [copy_loop first_addr]. rewrite iter_ne_null by done.
    rewrite (bind_Ret _ _ _ _ _ (iter_deref_Ret _ _ _ Ha Hla)). cbn [value].
    unfold bind at 1, copy_construct.
    destruct (copy_throws v) eqn:Hc.
    { simpl. split.
      - exists []. rewrite app_nil_r. rewrite insert_id by done. split; [done|simpl; lia].
      - intros [Hall _]. apply Forall_cons in Hall as [? _]. congruence. }
    pose proof (build_step_post m own temp built v next first Hinv Htemp H1 H2) as Hp.
    unfold bind at 1, finally.
    destruct (build_step temp v next first m) as [st m1|e m1| |]; simpl in Hp; try done.
    + destruct Hp as (a' & fr & Hf & _ & -> & Hinv1 & Hf1 & Hd1). simpl.
      set (m2 := set_destroyed (λ d, d ++ [v]) m1).
      assert (world_inv m2 (<[temp := built ++ [(a', v)]]> own)) as Hinv2 by exact Hinv1.
      assert (<[temp := built ++ [(a', v)]]> own !! other = Some ((pre ++ [(a, v)]) ++ rest))
        as Hother2.
      { rewrite lookup_insert_ne by done. by rewrite <- app_assoc. }
      pose proof (world_inv_lookup _ _ _ _ Hinv2 Hother2) as Hlo2.
      rewrite <- app_assoc in Hlo2.
      destruct (is_list_suffix _ _ _ _ _ _ Hlo2) as [_ Hla2].
      rewrite (bind_Ret _ _ _ _ _ (iter_incr_Ret _ _ _ Ha Hla2)). cbn [next_node].
      specialize (IH fuel m2 _ temp other (pre ++ [(a, v)]) (built ++ [(a', v)]) a' false
                    Hinv2 (lookup_insert_eq _ _ _) Hother2 Hne).
      eapply post_mono; [apply IH| |]; clear IH.
      * done.
      * intros _. rewrite fmap_app. simpl. by rewrite last_snoc.
      * lia.
      * intros _ m' (ns' & Hv & Hinv'). exists ((a', v) :: ns').
        rewrite insert_insert_eq, <- app_assoc in Hinv'.
        split; [by rewrite !fmap_cons, Hv|exact Hinv'].
      * intros _ m' [(ns' & Hinv' & Hlen') Hnot]. split.
        -- exists ((a', v) :: ns').
           rewrite insert_insert_eq, <- app_assoc in Hinv'.
           split; [exact Hinv'|simpl; lia].
        -- intros [Hall Hl]. apply Hnot.
           simpl in Hall, Hl.
           apply Forall_cons in Hall as [_ Hall]. split; [done|].
           unfold m2. simpl. rewrite Hf1. rewrite Hf in Hl. simpl in Hl.
           rewrite length_fmap in Hl |- *. lia.
    + destruct Hp as [-> [Hf|Hc']]; [|congruence]. simpl. split.
      * exists []. rewrite app_nil_r. rewrite insert_id by done. split; [done|simpl; lia].
      * intros [_ Hl]. rewrite Hf in Hl. simpl in Hl. lia.
Qed.

Ltac map_solve :=
  apply map_eq; intros ?;
  repeat first [rewrite lookup_insert | rewrite lookup_delete];
  repeat case_decide; subst; try done; try congruence.

Lemma fresh_storage_init_members m this a m' :
  fresh_storage m a → a ≠ this → init_members this m = Ret tt m' →
  fresh_storage m' a.
Proof.
  intros (Hok & Hn & Hs & Hf) Hne [= <-]. unfold head_.
  split; [done|]. simpl. by rewrite !lookup_insert_ne.
Qed.

(** The copy constructor either builds a list with the payloads of [other],
    in order, on nodes of its own, or throws and leaves no object behind;
    [other] and every other list are untouched either way. *)
Lemma SingleLinkedList_copy_post m own this other temp src fuel :
  world_inv m own → fresh_storage m this → fresh_storage m temp →
  this ≠ temp → own !! other = Some src → (length src < fuel)%nat →
  post (SingleLinkedList_copy fuel this other temp m)
    (λ _ m', ∃ ns, ns.*2 = src.*2 ∧ world_inv m' (<[this := ns]> own))
    (λ _ m', world_inv m' own ∧ ¬ can_build src.*2 m).
Proof.
  intros Hinv Hfthis Hftemp Hne Hother Hfuel.
  pose proof (world_inv_fresh _ _ _ Hinv Hfthis) as Hnthis.
  pose proof (world_inv_fresh _ _ _ Hinv Hftemp) as Hntemp.
  assert (other ≠ this) as Hot by congruence.
  assert (other ≠ temp) as Hott by congruence.
  destruct (world_inv_init_members m own this Hinv Hfthis)
    as (m1 & Hrun1 & Hinv1 & Hf1 & Hd1).
  unfold SingleLinkedList_copy. rewrite (bind_Ret _ _ _ _ _ Hrun1).
  assert (<[this := []]> own !! other = Some src) as Hother1
    by (by rewrite lookup_insert_ne).
  pose proof (world_inv_lookup _ _ _ _ Hinv1 Hother1) as Hlo1.
  pose proof Hlo1 as (_ & Hsz1 & _).
  unfold on_throw at 1.
  rewrite (bind_Ret _ _ _ _ _ (IsEmpty_Ret _ _ _ Hsz1)).
  destruct (Z.eqb_spec (Z.of_nat (length src)) 0) as [Hz|Hz].
  { simpl. exists []. destruct src; [done|simpl in Hz; lia]. }
  pose proof (fresh_storage_init_members m this temp m1 Hftemp (not_eq_sym Hne) Hrun1)
    as Hftemp1.
  destruct (world_inv_init_members m1 _ temp Hinv1 Hftemp1)
    as (m2 & Hrun2 & Hinv2 & Hf2 & Hd2).
  unfold SingleLinkedList_default. rewrite (bind_Ret _ _ _ _ _ Hrun2).
  assert (<[temp := []]> (<[this := []]> own) !! other = Some ([] ++ src)) as Hother2
    by (by rewrite !lookup_insert_ne).
  pose proof (world_inv_lookup _ _ _ _ Hinv2 Hother2) as Hlo2.
  destruct (begin_Ret _ _ _ Hlo2) as (_ & Hb2 & _).
  pose proof (copy_loop_post src fuel m2 _ temp other [] [] nullptr true
                Hinv2 (lookup_insert_eq _ _ _) Hother2 (not_eq_sym Hott)
                (λ _, eq_refl) ltac:(done) Hfuel) as Hp.
  unfold finally. rewrite (bind_Ret _ _ _ _ _ Hb2).
  unfold end_const, bind at 1, ret at 1. unfold bind at 1.
  destruct (copy_loop fuel temp _ _ nullptr true m2) as [[] m3|e m3| |];
    simpl in Hp; try done.
  - destruct Hp as (ns' & Hv & Hinv3). rewrite insert_insert_eq in Hinv3.
    pose proof (swap_post m3 _ this temp [] ns' Hinv3
                  ltac:(by rewrite lookup_insert_ne, lookup_insert_eq)
                  (lookup_insert_eq _ _ _)) as Hsw.
    destruct (swap this temp m3) as [[] m4|e m4| |]; simpl in Hsw; try done.
    destruct Hsw as (Hinv4 & _).
    pose proof (SingleLinkedList_dtor_post m4 _ temp [] fuel Hinv4
                  ltac:(by rewrite lookup_insert_ne, lookup_insert_eq)
                  ltac:(simpl; lia)) as Hdt.
    destruct (SingleLinkedList_dtor fuel temp m4) as [[] m5|e m5| |];
      simpl in Hdt; try done.
    simpl. exists ns'. split; [done|].
    match goal with |- world_inv _ ?X =>
      replace X with (delete temp (<[this:=ns']> (<[temp:=[]]>
                        (<[temp:=ns']> (<[this:=[]]> own))))) end; [done|].
    map_solve.
  - destruct Hp as [(ns' & Hinv3 & Hlen') Hnot]. simpl in Hinv3.
    rewrite insert_insert_eq in Hinv3.
    pose proof (SingleLinkedList_dtor_post m3 _ temp ns' fuel Hinv3
                  (lookup_insert_eq _ _ _) ltac:(lia)) as Hdt.
    destruct (SingleLinkedList_dtor fuel temp m3) as [[] m4|e' m4| |];
      simpl in Hdt; try done.
    rewrite delete_insert_id in Hdt by (by rewrite lookup_insert_ne).
    destruct (world_inv_destroy_members m4 _ this [] Hdt (lookup_insert_eq _ _ _))
      as (hv & m5 & -> & Hinv5 & _).
    simpl. rewrite delete_insert_eq, delete_id in Hinv5 by done.
    split; [done|]. unfold can_build in *. by rewrite <- Hf1, <- Hf2.
Qed.

(** Copy assignment. *)
Lemma operator_assign_post m own this rhs temp temp' ns0 src fuel :
  world_inv m own → own !! this = Some ns0 → own !! rhs = Some src →
  fresh_storage m temp → fresh_storage m temp' → temp ≠ temp' →
  (length src < fuel)%nat → (length ns0 < fuel)%nat →
  post (operator_assign fuel this rhs temp temp' m)
    (λ _ m', ∃ ns, ns.*2 = src.*2 ∧ world_inv m' (<[this := ns]> own))
    (λ _ m', world_inv m' own ∧ ¬ can_build src.*2 m).
Proof.
  intros Hinv Hthis Hrhs Hft Hft' Hne Hfuel Hfuel0.
  unfold operator_assign. destruct (decide (rhs = this)) as [->|Hrt].
  { simpl. exists ns0. split; [congruence|]. by rewrite insert_id. }
  pose proof (world_inv_fresh _ _ _ Hinv Hft) as Hntemp.
  assert (this ≠ temp) as Htt by congruence.
  pose proof (SingleLinkedList_copy_post m own temp rhs temp' src fuel
                Hinv Hft Hft' Hne Hrhs Hfuel) as Hp.
  unfold bind, finally.
  destruct (SingleLinkedList_copy fuel temp rhs temp' m) as [[] m1|e m1| |];
    simpl in Hp; try done.
  destruct Hp as (ns & Hv & Hinv1).
  pose proof (swap_post m1 _ this temp ns0 ns Hinv1
                ltac:(by rewrite lookup_insert_ne)
                (lookup_insert_eq _ _ _)) as Hsw.
  destruct (swap this temp m1) as [[] m2|e m2| |]; simpl in Hsw; try done.
  destruct Hsw as (Hinv2 & _).
  pose proof (SingleLinkedList_dtor_post m2 _ temp ns0 fuel Hinv2
                ltac:(by rewrite lookup_insert_ne, lookup_insert_eq) Hfuel0) as Hdt.
  destruct (SingleLinkedList_dtor fuel temp m2) as [[] m3|e m3| |];
    simpl in Hdt; try done.
  simpl. exists ns. split; [done|].
  match goal with |- world_inv _ ?X =>
    replace X with (delete temp (<[this:=ns]> (<[temp:=ns0]> (<[temp:=ns]> own)))) end;
    [done|].
  map_solve.
Qed.

(** ** Every call keeps the memory consistent *)

Lemma is_list_unique m l ns ns' : is_list m l ns → is_list m l ns' → ns = ns'.
Proof.
  intros ([hv Hs] & _) ([hv' Hs'] & _).
  assert (hv = hv') as <-.
  { simpl in Hs, Hs'. destruct Hs as (_ & _ & r & Hl & _).
    destruct Hs' as (_ & _ & r' & Hl' & _). congruence. }
  pose proof (seg_unique _ _ _ _ Hs Hs') as Heq. by injection Heq.
Qed.

Lemma world_inv_own m own l ns :
  world_inv m own → is_list m l ns → own !! l = Some ns.
Proof.
  intros Hinv Hl. pose proof Hinv as (_ & Hdom & Hlists & _).
  destruct (proj2 (Hdom l)) as [ns' Hns'].
  { destruct Hl as (_ & Hs & _). eauto. }
  by rewrite (is_list_unique _ _ _ _ Hl (Hlists _ _ Hns')).
Qed.

Lemma world_inv_initial m : initial m → world_inv m ∅.
Proof.
  intros (Hn & Hs & Hwf). split; [done|]. split; [|split].
  - intros l. rewrite Hs, !lookup_empty. done.
  - intros l ns. by rewrite lookup_empty.
  - intros l1 l2 ns1 ns2 a _. by rewrite lookup_empty.
Qed.

Lemma steps_to_post {A} (o : outcome A) m' Q E :
  steps_to o m' → post o Q E → (∃ a, Q a m') ∨ (∃ e, E e m').
Proof. intros [[a ->]|[e ->]] Hp; simpl in Hp; eauto. Qed.

Lemma world_inv_live m own l :
  world_inv m own → live m l → ∃ ns, own !! l = Some ns ∧ is_list m l ns.
Proof.
  intros Hinv Hl. pose proof Hinv as (_ & Hdom & Hlists & _).
  apply Hdom in Hl as [ns Hns]. eauto.
Qed.

Lemma world_inv_live_within m own l fuel :
  world_inv m own → live_within m l fuel →
  ∃ ns, own !! l = Some ns ∧ is_list m l ns ∧ (length ns < fuel)%nat.
Proof.
  intros Hinv (z & Hz & Hlt).
  destruct (world_inv_live m own l Hinv) as (ns & Hns & Hl); [by eexists|].
  exists ns. do 2 (split; [done|]).
  destruct Hl as (_ & Hs & _). rewrite Hz in Hs. injection Hs as ->. lia.
Qed.

(** Following links from the start of a null-terminated chain stays on it. *)
Lemma seg_prefix_elem h ns : ∀ p q full a,
  seg h p ns q → seg h p full nullptr → a ∈ ns.*1 → a ∈ full.*1.
Proof.
  induction ns as [|[b v] ns IH]; intros p q full a Hs Hfull Ha; simpl in *.
  - by apply elem_of_nil in Ha.
  - destruct Hs as (-> & Hb & r & Hl & Hs).
    destruct full as [|[b' v'] full]; simpl in Hfull; [done|].
    destruct Hfull as (<- & _ & r' & Hl' & Hfull).
    rewrite Hl in Hl'. injection Hl' as <- <-. simpl.
    apply elem_of_cons in Ha as [->|Ha]; [left|right]. eauto.
Qed.

Lemma world_inv_valid_pos m own this pos :
  world_inv m own → valid_pos m this pos → live m this →
  ∃ ns i, own !! this = Some ns ∧ footprint this ns !! i = Some (node_ pos).
Proof.
  intros Hinv (ns' & q & Hs & Hin) Hlive.
  destruct (world_inv_live m own this Hinv Hlive) as (ns & Hns & Hl).
  destruct Hl as ([hv Hfull] & _).
  pose proof (seg_prefix_elem _ _ _ _ _ _ Hs Hfull Hin) as Hfp.
  apply list_elem_of_lookup_1 in Hfp as [i Hi]. by exists ns, i.
Qed.

(** A call that modifies the list at [this] ends normally or by an
    exception, and changes, in the ownership of the memory, the entry of
    [this] only. *)
Lemma mutates_post m own this c :
  world_inv m own → mutates this c → call_ok m c →
  post (run_call c m)
    (λ _ m', ∃ ns', world_inv m' (<[this := ns']> own))
    (λ _ m', ∃ ns', world_inv m' (<[this := ns']> own)).
Proof.
  intros Hinv Hmut Hok.
  destruct c; simpl in Hmut; try done; subst this0; simpl in Hok; simpl run_call.
  - destruct (world_inv_live _ _ _ Hinv Hok) as (ns & Hown & _).
    eapply post_mono; [apply (PushFront_post m own this ns val Hinv Hown)| |].
    + intros ? m' [a H]. simpl in *. eauto.
    + intros ? m' Heq. simpl in Heq. subst m'. exists ns. by rewrite insert_id.
  - destruct (world_inv_live _ _ _ Hinv Hok) as (ns & Hown & _).
    eapply post_mono; [apply (PopFront_post m own this ns Hinv Hown)| |].
    + intros ? m' H. simpl in *. eauto.
    + by intros.
  - destruct Hok as [Hlive Hpos].
    destruct (world_inv_valid_pos _ _ _ _ Hinv Hpos Hlive) as (ns & i & Hown & Hi).
    eapply post_bind.
    + eapply post_mono; [apply (InsertAfter_post m own this ns i pos val Hinv Hown Hi)| |].
      * intros it m' H. exact H.
      * intros ? m' Heq. simpl in Heq. subst m'. exists ns. by rewrite insert_id.
    + intros it m' H. simpl in *. eauto.
  - destruct Hok as [Hlive Hpos].
    destruct (world_inv_valid_pos _ _ _ _ Hinv Hpos Hlive) as (ns & i & Hown & Hi).
    eapply post_bind.
    + eapply post_mono; [apply (EraseAfter_post m own this ns i pos Hinv Hown Hi)| |].
      * intros it m' H. exact H.
      * by intros.
    + intros it m' H. simpl in *. eauto.
  - destruct (world_inv_live_within _ _ _ _ Hinv Hok) as (ns & Hown & _ & Hlen).
    eapply post_mono; [apply (Clear_post m own this ns fuel Hinv Hown Hlen)| |].
    + intros ? m' [H _]. simpl in *. eauto.
    + by intros.
Qed.

Lemma mutates_preserves m own this c m' :
  world_inv m own → mutates this c → call_ok m c →
  steps_to (run_call c m) m' →
  ∃ ns', world_inv m' (<[this := ns']> own).
Proof.
  intros Hinv Hmut Hok Hstep.
  by destruct (steps_to_post _ _ _ _ Hstep (mutates_post m own this c Hinv Hmut Hok))
    as [[_ H]|[_ H]].
Qed.

(** Every call within its precondition ends normally or by an exception
    (it neither faults nor exhausts its loop bound), in a consistent memory. *)
Lemma call_post m own c :
  world_inv m own → call_ok m c →
  post (run_call c m)
    (λ _ m', ∃ own', world_inv m' own')
    (λ _ m', ∃ own', world_inv m' own').
Proof.
  intros Hinv Hok.
  destruct c;
    try solve
      [match goal with
       | |- post (run_call ?c m) _ _ =>
           eapply post_mono;
           [apply (mutates_post m own this c Hinv eq_refl Hok)
           |intros ? ? [? ?]; eauto|intros ? ? [? ?]; eauto]
       end];
    simpl in Hok; simpl run_call.
  - destruct (world_inv_init_members m own this Hinv Hok) as (m1 & Hrun & H & _).
    unfold SingleLinkedList_default. rewrite Hrun. simpl. eauto.
  - eapply post_mono; [apply (SingleLinkedList_init_post m own this values Hinv Hok)| |].
    + intros ? m' (ns & _ & H). simpl in *. eauto.
    + intros ? m' [H _]. simpl in *. eauto.
  - destruct Hok as (Hf1 & Hf2 & Hne & Hlw).
    destruct (world_inv_live_within _ _ _ _ Hinv Hlw) as (src & Hown & _ & Hlen).
    eapply post_mono;
      [apply (SingleLinkedList_copy_post m own this other temp src fuel
                Hinv Hf1 Hf2 Hne Hown Hlen)| |].
    + intros ? m' (ns & _ & H). simpl in *. eauto.
    + intros ? m' [H _]. simpl in *. eauto.
  - destruct Hok as (Hlw0 & Hlw & Hf1 & Hf2 & Hne).
    destruct (world_inv_live_within _ _ _ _ Hinv Hlw0) as (ns0 & Hown0 & _ & Hlen0).
    destruct (world_inv_live_within _ _ _ _ Hinv Hlw) as (src & Hown & _ & Hlen).
    eapply post_mono;
      [apply (operator_assign_post m own this rhs temp temp' ns0 src fuel
                Hinv Hown0 Hown Hf1 Hf2 Hne Hlen Hlen0)| |].
    + intros ? m' (ns & _ & H). simpl in *. eauto.
    + intros ? m' [H _]. simpl in *. eauto.
  - destruct Hok as (Hl1 & Hl2).
    destruct (world_inv_live _ _ _ Hinv Hl1) as (ns1 & Hown1 & _).
    destruct (world_inv_live _ _ _ Hinv Hl2) as (ns2 & Hown2 & _).
    eapply post_mono; [apply (swap_post m own this other ns1 ns2 Hinv Hown1 Hown2)| |].
    + intros ? m' (H & _). simpl in *. eauto.
    + by intros.
  - destruct (world_inv_live_within _ _ _ _ Hinv Hok) as (ns & Hown & _ & Hlen).
    eapply post_mono;
      [apply (SingleLinkedList_dtor_post m own this ns fuel Hinv Hown Hlen)| |].
    + intros ? m' H. simpl in *. eauto.
    + by intros.
Qed.

Lemma call_preserves m own c m' :
  world_inv m own → call_ok m c → steps_to (run_call c m) m' →
  ∃ own', world_inv m' own'.
Proof.
  intros Hinv Hok Hstep.
  by destruct (steps_to_post _ _ _ _ Hstep (call_post m own c Hinv Hok))
    as [[_ H]|[_ H]].
Qed.

Lemma call_total m own c :
  world_inv m own → call_ok m c → ∃ m', steps_to (run_call c m) m'.
Proof.
  intros Hinv Hok. pose proof (call_post m own c Hinv Hok) as Hp.
  destruct (run_call c m) as [a m'|e m'| |]; simpl in Hp; try done.
  - exists m'. left. eauto.
  - exists m'. right. eauto.
Qed.

Lemma reachable_world_inv m : reachable m → ∃ own, world_inv m own.
Proof.
  induction 1 as [m Hinit|m c m' _ [own IH] Hok Hstep].
  - exists ∅. by apply world_inv_initial.
  - by apply (call_preserves m own c m').
Qed.

(** C3: in every memory reachable from one without lists by constructors,
    copies, assignments, swaps, PushFront, PopFront, InsertAfter,
    EraseAfter, Clear and destructors (each used within its precondition,
    ending normally or by an exception), every live list object has a
    finite chain of pairwise distinct nodes that starts at its sentinel and
    ends in the null link, and its size counter is the number of those
    nodes: GetSize() returns the length of what a traversal yields. *)
Theorem reachable_invariant m this :
  reachable m → is_Some (sizes m !! this) →
  ∃ ns,
    is_list m this ns ∧
    GetSize this m = Ret (Z.of_nat (length ns)) m ∧
    ∀ fuel, (length ns < fuel)%nat → traverse fuel this m = Ret ns.*2 m.
Proof.
  intros [own Hinv]%reachable_world_inv Hlive.
  pose proof Hinv as (_ & Hdom & Hlists & _).
  apply Hdom in Hlive as [ns Hns]. exists ns.
  pose proof (Hlists _ _ Hns) as Hl. split; [done|]. split.
  - apply load_size_Ret, Hl.
  - intros fuel Hfuel. by apply traverse_Ret.
Qed.

(** A memory with a single list object is consistent. *)
Lemma world_inv_single m l ns :
  mem_wf m → is_list m l ns →
  (∀ l', is_Some (sizes m !! l') → l' = l) →
  world_inv m {[l := ns]}.
Proof.
  intros Hwf Hl Honly. split; [done|]. split; [|split].
  - intros l'. split.
    + intros [x [<- _]%lookup_singleton_Some]. destruct Hl as (_ & Hs & _). eauto.
    + intros ->%Honly. rewrite lookup_singleton_eq. eauto.
  - by intros l' ns' [<- <-]%lookup_singleton_Some.
  - intros l1 l2 ns1 ns2 a Hne [<- _]%lookup_singleton_Some
      [<- _]%lookup_singleton_Some. done.
Qed.

(** ** Deep copy *)

Lemma equal_scan_refl xs :
  Forall (λ x, T_eq x x = true) xs → equal_scan xs xs = Some true.
Proof. induction 1 as [|x xs Hx _ IH]; simpl; [done|]. by rewrite Hx. Qed.

Lemma mutated_preserves m own this ns m' :
  world_inv m own → own !! this = Some ns → mutated this m m' →
  ∃ ns', world_inv m' (<[this := ns']> own).
Proof.
  intros Hinv Hown. induction 1 as [m|m m1 c m2 _ IH Hmut Hok Hstep].
  - exists ns. by rewrite insert_id.
  - destruct (IH Hinv) as [ns1 Hinv1].
    destruct (mutates_preserves _ _ _ _ _ Hinv1 Hmut Hok Hstep) as [ns2 Hinv2].
    exists ns2. by rewrite insert_insert_eq in Hinv2.
Qed.

(** C5: copy-constructing from a list [other] (with storage available and
    payloads that copy without throwing) returns normally with a new list
    that holds the payloads of [other] in order, on nodes none of which is
    a node of [other]; [other] itself is unchanged; operator== on the copy
    and the original returns true (for payloads equal to themselves); and
    after any sequence of PushFront, PopFront, InsertAfter, EraseAfter and
    Clear on the copy, [other] still has the same nodes, payloads and size. *)
Theorem copy_is_deep m own this other temp src fuel :
  world_inv m own → is_list m other src →
  fresh_storage m this → fresh_storage m temp → this ≠ temp →
  (length src < fuel)%nat → can_build src.*2 m →
  Forall (λ x, T_eq x x = true) src.*2 →
  ∃ m' ns,
    SingleLinkedList_copy fuel this other temp m = Ret tt m' ∧
    is_list m' this ns ∧ ns.*2 = src.*2 ∧
    is_list m' other src ∧
    (∀ a, a ∈ footprint this ns → a ∉ footprint other src) ∧
    operator_eq fuel this other m' = Ret true m' ∧
    (∀ m'', mutated this m' m'' →
       is_list m'' other src ∧
       GetSize other m'' = Ret (Z.of_nat (length src)) m'' ∧
       traverse fuel other m'' = Ret src.*2 m'').
Proof.
  intros Hinv Hlo Hfthis Hftemp Hne Hfuel Hcan Hrefl.
  pose proof (world_inv_own _ _ _ _ Hinv Hlo) as Hother.
  pose proof (world_inv_fresh _ _ _ Hinv Hfthis) as Hnthis.
  assert (other ≠ this) as Hot by congruence.
  pose proof (SingleLinkedList_copy_post m own this other temp src fuel
                Hinv Hfthis Hftemp Hne Hother Hfuel) as Hp.
  destruct (SingleLinkedList_copy fuel this other temp m) as [[] m'|e m'| |];
    simpl in Hp; try done; [|by destruct Hp].
  destruct Hp as (ns & Hv & Hinv').
  assert (<[this := ns]> own !! other = Some src) as Hother'
    by (by rewrite lookup_insert_ne).
  pose proof (world_inv_lookup _ _ _ _ Hinv' (lookup_insert_eq _ _ _)) as Hl'.
  pose proof (world_inv_lookup _ _ _ _ Hinv' Hother') as Hlo'.
  exists m', ns. do 4 (split; [done|]). split; [|split].
  - intros a Ha Hb. destruct Hinv' as (_ & _ & _ & Hdisj).
    apply (Hdisj this other ns src a); [by apply not_eq_sym| |done|done|done].
    apply lookup_insert_eq.
  - rewrite (operator_eq_scan m' this other ns src fuel Hl' Hlo').
    + by rewrite Hv, equal_scan_refl.
    + apply (f_equal length) in Hv. rewrite !length_fmap in Hv. lia.
  - intros m'' Hmut.
    destruct (mutated_preserves _ _ this ns _ Hinv' (lookup_insert_eq _ _ _) Hmut)
      as [ns' Hinv''].
    rewrite insert_insert_eq in Hinv''.
    assert (is_list m'' other src) as Hlo''.
    { apply (world_inv_lookup _ _ _ _ Hinv''). by rewrite lookup_insert_ne. }
    split; [done|]. split.
    + apply load_size_Ret, Hlo''.
    + by apply traverse_Ret.
Qed.

(** * Further properties of the code *)

(** ** PushFront and InsertAfter *)

(** X1: PushFront on a list either throws, leaving the memory as it was
    (bad_alloc without storage, the copy's exception otherwise), or returns
    with one new node holding the value in front of the former nodes, the
    size one more, and nothing destroyed. *)
Theorem PushFront_spec m this ns v :
  mem_wf m → is_list m this ns →
  match free m with
  | [] => PushFront this v m = Throw bad_alloc m
  | a :: fr =>
      if copy_throws v then PushFront this v m = Throw copy_failure m
      else ∃ m',
          PushFront this v m = Ret tt m' ∧
          is_list m' this ((a, v) :: ns) ∧
          GetSize this m' = Ret (Z.of_nat (length ns) + 1) m' ∧
          free m' = fr ∧ destroyed m' = destroyed m ∧ mem_wf m'
  end.
Proof.
  intros Hwf Hl.
  destruct (is_list_sentinel _ _ _ Hl) as (H0 & hv & Hs).
  destruct (free m) as [|a fr] eqn:Hf.
  { unfold PushFront, head_. rewrite (bind_Ret _ _ _ _ _ (load_Ret _ _ _ H0 Hs)).
    by rewrite (bind_Throw _ _ _ _ _ (new_Node_bad_alloc _ _ _ Hf)). }
  destruct (copy_throws v) eqn:Hc.
  { unfold PushFront, head_. rewrite (bind_Ret _ _ _ _ _ (load_Ret _ _ _ H0 Hs)).
    by rewrite (bind_Throw _ _ _ _ _ (new_Node_copy_failure _ _ _ _ _ Hf Hc)). }
  destruct (is_list_insert m this ns 0 this a v fr Hwf Hl eq_refl Hf)
    as (pv & Hlpa & _ & Hne & Hl' & Hwf').
  rewrite drop_0 in Hl', Hwf', Hlpa. rewrite take_0 in Hl'. simpl in Hl'.
  pose proof Hl as (_ & Hsz & _).
  eexists. split; [by eapply PushFront_Ret|].
  split; [exact Hl'|]. split; [|done].
  apply load_size_Ret. destruct Hl' as (_ & Hsz' & _).
  etrans; [exact Hsz'|]. f_equal. simpl length. lia.
Qed.

(** X2: InsertAfter at the [i]-th position of a list, with storage
    available and a value that copies, returns an iterator at a new node
    that holds the value and sits right after the position: the nodes before
    and after keep their order, the size is one more, dereferencing the
    returned iterator gives the value, and advancing [pos] once reaches it. *)
Theorem InsertAfter_inserts m this ns i pos v a fr :
  mem_wf m → is_list m this ns →
  footprint this ns !! i = Some (node_ pos) →
  free m = a :: fr → copy_throws v = false →
  ∃ m',
    InsertAfter this pos v m = Ret (Iterator a) m' ∧
    is_list m' this (take i ns ++ (a, v) :: drop i ns) ∧
    GetSize this m' = Ret (Z.of_nat (length ns) + 1) m' ∧
    iter_deref (Iterator a) m' = Ret v m' ∧
    iter_incr pos m' = Ret (Iterator a) m' ∧
    free m' = fr.
Proof.
  destruct pos as [pa]. simpl node_. intros Hwf Hl Hi Hf Hc.
  destruct (is_list_insert m this ns i pa a v fr Hwf Hl Hi Hf)
    as (pv & Hlpa & Hpa0 & Hne & Hl' & Hwf').
  pose proof Hl as (_ & Hsz & _).
  assert (a ≠ nullptr) as Ha0.
  { destruct Hwf as (_ & Hfree & _). destruct (Hfree a) as [_ Hok].
    - rewrite Hf. left.
    - unfold addr_ok, nullptr in *. lia. }
  eexists. split; [by eapply InsertAfter_Ret|].
  split; [exact Hl'|]. split; [|split; [|split; [|done]]].
  - apply load_size_Ret. destruct Hl' as (_ & Hsz' & _).
    etrans; [exact Hsz'|]. f_equal.
    rewrite length_app. simpl length. rewrite length_take, length_drop.
    apply lookup_lt_Some in Hi. unfold footprint in Hi. simpl in Hi.
    rewrite length_fmap in Hi. lia.
  - apply (iter_deref_Ret a (mkNode v (first_addr (drop i ns) nullptr))); [done|].
    simpl. rewrite lookup_insert_ne by done. by rewrite lookup_insert_eq.
  - apply (iter_incr_Ret pa (mkNode pv a)); [done|]. simpl.
    by rewrite lookup_insert_eq.
Qed.

(** ** Observers *)

(** X3: on a list, IsEmpty() holds exactly when there is no node, and that
    is exactly when begin() equals end(). *)
Theorem IsEmpty_iff_no_nodes m this ns :
  is_list m this ns →
  IsEmpty this m = Ret (length ns =? 0)%nat m ∧
  ∃ b e, begin this m = Ret b m ∧ end_ this m = Ret e m ∧
         iter_eq b e = (length ns =? 0)%nat.
Proof.
  intros Hl. pose proof Hl as (_ & Hsz & _).
  destruct (begin_Ret _ _ _ Hl) as (Hb & _ & Hseg). split.
  - rewrite (IsEmpty_Ret _ _ _ Hsz). do 2 f_equal. by destruct ns.
  - eexists _, _. split; [exact Hb|]. split; [done|].
    unfold iter_eq. cbn [node_]. destruct ns as [|[a v] ns]; [done|].
    simpl in Hseg. destruct Hseg as (_ & Ha & _). cbn [first_addr length Nat.eqb].
    apply N.eqb_neq. by intros <-.
Qed.

Lemma iter_advance_seg k : ∀ ns p m,
  seg (nodes m) p ns nullptr →
  iter_advance k (Iterator p) m
  = Ret (Iterator (first_addr (drop k ns) nullptr)) m.
Proof.
  induction k as [|k IH]; intros ns p m Hseg.
  - simpl. rewrite drop_0. by rewrite <- (seg_first _ _ _ _ Hseg).
  - destruct ns as [|[a v] ns]; simpl in Hseg.
    + subst p. cbn [iter_advance]. unfold iter_incr. cbn [node_].
      rewrite decide_True by done. unfold bind at 1, ret at 1.
      rewrite (IH [] nullptr m) by done. by rewrite !drop_nil.
    + destruct Hseg as (-> & Ha & r & Hl & Hseg). cbn [iter_advance].
      rewrite (bind_Ret _ _ _ _ _ (iter_incr_Ret _ _ _ Ha Hl)). simpl.
      by apply IH.
Qed.

(** X4: [k] increments from begin() reach the [k]-th node, where
    dereferencing gives its payload; once [k] is the length or more the
    iterator equals end(), stays there under further increments, and
    dereferencing it fails the assertion. *)
Theorem iter_advance_from_begin m this ns k :
  is_list m this ns →
  ∃ it,
    (let! b := begin this in iter_advance k b) m = Ret it m ∧
    match ns !! k with
    | Some (a, v) =>
        node_ it = a ∧ iter_deref it m = Ret v m ∧
        iter_eq it (Iterator nullptr) = false
    | None =>
        iter_eq it (Iterator nullptr) = true ∧
        iter_incr it m = Ret it m ∧
        iter_deref it m = Fault
    end.
Proof.
  intros Hl. destruct (begin_Ret _ _ _ Hl) as (Hb & _ & Hseg).
  exists (Iterator (first_addr (drop k ns) nullptr)). split.
  { rewrite (bind_Ret _ _ _ _ _ Hb). by apply iter_advance_seg. }
  destruct (ns !! k) as [[a v]|] eqn:Hk.
  - rewrite (drop_S _ _ _ Hk). simpl.
    rewrite <- (take_drop_middle _ _ _ Hk) in Hl.
    destruct (is_list_suffix _ _ _ _ _ _ Hl) as [Ha Hla].
    split; [done|]. split.
    + by rewrite (iter_deref_Ret _ _ _ Ha Hla).
    + unfold iter_eq. cbn [node_]. apply N.eqb_neq. by intros <-.
  - apply lookup_ge_None in Hk. rewrite drop_ge by done. done.
Qed.

(** ** operator== and operator!= *)

Lemma equal_scan_le xs : ∀ ys,
  (length xs ≤ length ys)%nat →
  ∃ b, equal_scan xs ys = Some b ∧
       (b = true ↔ Forall2 (λ x y, T_eq x y = true) xs (take (length xs) ys)).
Proof.
  induction xs as [|x xs IH]; intros [|y ys] Hlen; simpl in *; try lia.
  - exists true. split; [done|]. split; [constructor|done].
  - exists true. split; [done|]. split; [constructor|done].
  - destruct (T_eq x y) eqn:Hxy.
    + destruct (IH ys ltac:(lia)) as (b & Hb & Hiff). exists b. split; [done|].
      rewrite Hiff. split.
      * intros. by constructor.
      * by intros (_ & ?)%Forall2_cons.
    + exists false. split; [done|]. split; [done|].
      intros (? & _)%Forall2_cons. congruence.
Qed.

Lemma equal_scan_gt xs : ∀ ys,
  (length ys < length xs)%nat →
  equal_scan xs ys = None ∧
    Forall2 (λ x y, T_eq x y = true) (take (length ys) xs) ys
  ∨
  equal_scan xs ys = Some false ∧
    ¬ Forall2 (λ x y, T_eq x y = true) (take (length ys) xs) ys.
Proof.
  induction xs as [|x xs IH]; intros [|y ys] Hlen; simpl in *; try lia.
  - left. split; [done|constructor].
  - destruct (T_eq x y) eqn:Hxy.
    + destruct (IH ys ltac:(lia)) as [[H1 H2]|[H1 H2]].
      * left. split; [done|]. by constructor.
      * right. split; [done|]. by intros (_ & ?)%Forall2_cons.
    + right. split; [done|]. intros (? & _)%Forall2_cons. congruence.
Qed.

(** X5: when the left list is no longer than the right one, operator==
    returns normally, and returns true exactly when every element of the left
    list equals (by the elements' ==) the element of the right list at the
    same position; elements of the right list beyond the length of the left
    one are not looked at.  For lists of the same length this is
    element-wise equality.  operator!= returns the negation. *)
Theorem operator_eq_up_to_left_length m lhs rhs ns1 ns2 fuel :
  is_list m lhs ns1 → is_list m rhs ns2 →
  (length ns1 < fuel)%nat → (length ns1 ≤ length ns2)%nat →
  ∃ b,
    operator_eq fuel lhs rhs m = Ret b m ∧
    operator_ne fuel lhs rhs m = Ret (negb b) m ∧
    (b = true ↔
     Forall2 (λ x y, T_eq x y = true) ns1.*2 (take (length ns1) ns2.*2)) ∧
    (length ns1 = length ns2 →
     (b = true ↔ Forall2 (λ x y, T_eq x y = true) ns1.*2 ns2.*2)).
Proof.
  intros H1 H2 Hfuel Hlen.
  pose proof (operator_eq_scan m lhs rhs ns1 ns2 fuel H1 H2 Hfuel) as Hrun.
  destruct (equal_scan_le ns1.*2 ns2.*2) as (b & Hb & Hiff).
  { by rewrite !length_fmap. }
  rewrite Hb in Hrun. rewrite length_fmap in Hiff.
  exists b. split; [done|]. split; [|split; [done|]].
  - unfold operator_ne. by rewrite (bind_Ret _ _ _ _ _ Hrun).
  - intros Heq. rewrite Hiff. rewrite take_ge; [done|].
    rewrite length_fmap. lia.
Qed.

(** X6: when the left list is longer than the right one, operator== returns
    false if some element of the right list differs from the element of the
    left list at its position; otherwise it runs past the end of the right
    list and dereferences its end iterator, which fails the assertion of
    operator*. *)
Theorem operator_eq_longer_left m lhs rhs ns1 ns2 fuel :
  is_list m lhs ns1 → is_list m rhs ns2 →
  (length ns1 < fuel)%nat → (length ns2 < length ns1)%nat →
  (Forall2 (λ x y, T_eq x y = true) (take (length ns2) ns1.*2) ns2.*2 ∧
   operator_eq fuel lhs rhs m = Fault)
  ∨
  (¬ Forall2 (λ x y, T_eq x y = true) (take (length ns2) ns1.*2) ns2.*2 ∧
   operator_eq fuel lhs rhs m = Ret false m).
Proof.
  intros H1 H2 Hfuel Hlen.
  pose proof (operator_eq_scan m lhs rhs ns1 ns2 fuel H1 H2 Hfuel) as Hrun.
  destruct (equal_scan_gt ns1.*2 ns2.*2) as [[Hs HF]|[Hs HF]].
  { by rewrite !length_fmap. }
  - rewrite Hs in Hrun. rewrite length_fmap in HF. by left.
  - rewrite Hs in Hrun. rewrite length_fmap in HF. by right.
Qed.

(** ** swap *)

Lemma swap_Ret m this other n1 n2 z1 z2 :
  this ≠ nullptr → other ≠ nullptr →
  nodes m !! this = Some n1 → nodes m !! other = Some n2 →
  sizes m !! this = Some z1 → sizes m !! other = Some z2 →
  swap this other m
  = Ret tt (mkMem (<[other := mkNode (value n2) (next_node n1)]>
                     (<[this := mkNode (value n1) (next_node n2)]> (nodes m)))
                  (<[other := z1]> (<[this := z2]> (sizes m)))
                  (free m) (destroyed m)).
Proof.
  intros H10 H20 Hn1 Hn2 Hz1 Hz2. unfold swap, head_.
  rewrite (bind_Ret _ _ _ _ _ (load_Ret _ _ _ H10 Hn1)).
  rewrite (bind_Ret _ _ _ _ _ (load_Ret _ _ _ H20 Hn2)).
  rewrite (bind_Ret _ _ _ _ _ (store_next_Ret _ _ _ _ H10 Hn1)).
  assert (∃ n2', nodes (set_nodes <[this := mkNode (value n1) (next_node n2)]> m)
                   !! other = Some n2' ∧ value n2' = value n2) as (n2' & Hn2' & Hv).
  { simpl. destruct (decide (this = other)) as [->|Hne].
    - rewrite lookup_insert_eq. eexists. split; [done|]. simpl. congruence.
    - rewrite lookup_insert_ne by done. eauto. }
  erewrite bind_Ret; cycle 1. { apply store_next_Ret; [done|]. exact Hn2'. }
  erewrite bind_Ret; cycle 1. { apply load_size_Ret. exact Hz1. }
  erewrite bind_Ret; cycle 1. { apply load_size_Ret. exact Hz2. }
  erewrite bind_Ret; cycle 1. { apply store_size_Ret with (z := z1). exact Hz1. }
  assert (∃ z, <[this := z2]> (sizes m) !! other = Some z) as [z Hz].
  { destruct (decide (this = other)) as [->|Hne].
    - rewrite lookup_insert_eq. eauto.
    - rewrite lookup_insert_ne by done. eauto. }
  erewrite store_size_Ret; cycle 1. { simpl. exact Hz. }
  unfold set_sizes, set_nodes. simpl. by rewrite Hv.
Qed.

(** X7: the free function swap, called twice on two live lists, gives
    back the memory one started from: swap is its own inverse (also when
    both operands are the same list). *)
Theorem swap_swap m this other ns1 ns2 :
  is_list m this ns1 → is_list m other ns2 →
  (swap_free this other;; swap_free this other) m = Ret tt m.
Proof.
  intros Hl1 Hl2. unfold swap_free.
  destruct (is_list_sentinel _ _ _ Hl1) as (H10 & hv1 & Hs1).
  destruct (is_list_sentinel _ _ _ Hl2) as (H20 & hv2 & Hs2).
  pose proof Hl1 as (_ & Hz1 & _). pose proof Hl2 as (_ & Hz2 & _).
  rewrite (bind_Ret _ _ _ _ _ (swap_Ret _ _ _ _ _ _ _ H10 H20 Hs1 Hs2 Hz1 Hz2)).
  destruct m as [nd sz fr ds]. simpl in *.
  destruct (decide (this = other)) as [->|Hne].
  - erewrite swap_Ret; try done; simpl; try apply lookup_insert_eq.
    rewrite !insert_insert_eq. rewrite Hs1 in Hs2. injection Hs2 as -> Hf.
    simpl. rewrite Hz1 in Hz2. injection Hz2 as Hz.
    rewrite (insert_id nd) by done. by rewrite (insert_id sz).
  - erewrite swap_Ret; try done; simpl.
    2: { rewrite lookup_insert_ne by done. apply lookup_insert_eq. }
    2: { apply lookup_insert_eq. }
    2: { rewrite lookup_insert_ne by done. apply lookup_insert_eq. }
    2: { apply lookup_insert_eq. }
    simpl. do 2 f_equal.
    + apply map_eq. intros k.
      destruct (decide (k = other)) as [->|?]; [by rewrite lookup_insert_eq|].
      rewrite lookup_insert_ne by done.
      destruct (decide (k = this)) as [->|?]; [by rewrite lookup_insert_eq|].
      by rewrite !lookup_insert_ne.
    + apply map_eq. intros k.
      destruct (decide (k = other)) as [->|?]; [by rewrite lookup_insert_eq|].
      rewrite lookup_insert_ne by done.
      destruct (decide (k = this)) as [->|?]; [by rewrite lookup_insert_eq|].
      by rewrite !lookup_insert_ne.
Qed.

(** X8: swap of two live lists returns normally; afterwards each list
    object has the nodes (same addresses, same payloads) and the size the
    other had, so an iterator from begin() of one list is begin() of the
    other afterwards; nothing is allocated, freed or destroyed; the other
    lists are untouched. *)
Theorem swap_exchanges m own this other ns1 ns2 :
  world_inv m own → is_list m this ns1 → is_list m other ns2 →
  ∃ m',
    swap this other m = Ret tt m' ∧
    is_list m' this ns2 ∧ is_list m' other ns1 ∧
    free m' = free m ∧ destroyed m' = destroyed m ∧
    (∃ it, begin this m = Ret it m ∧ begin other m' = Ret it m') ∧
    (∀ l ns, l ≠ this → l ≠ other → is_list m l ns → is_list m' l ns).
Proof.
  intros Hinv Hl1 Hl2.
  pose proof (world_inv_own _ _ _ _ Hinv Hl1) as Hown1.
  pose proof (world_inv_own _ _ _ _ Hinv Hl2) as Hown2.
  pose proof (swap_post m own this other ns1 ns2 Hinv Hown1 Hown2) as Hp.
  destruct (swap this other m) as [[] m'|e m'| |]; simpl in Hp; try done.
  destruct Hp as (Hinv' & Hf & Hd).
  assert (is_list m' other ns1) as Hl1'.
  { apply (world_inv_lookup _ _ _ _ Hinv').
    destruct (decide (this = other)) as [->|Hne].
    - rewrite lookup_insert_eq. congruence.
    - rewrite lookup_insert_ne by done. apply lookup_insert_eq. }
  exists m'. split; [done|].
  split; [|split; [done|split; [done|split; [done|split]]]].
  - apply (world_inv_lookup _ _ _ _ Hinv'). apply lookup_insert_eq.
  - exists (Iterator (first_addr ns1 nullptr)).
    split; [apply (begin_Ret _ _ _ Hl1)|apply (begin_Ret _ _ _ Hl1')].
  - intros l ns Hn1 Hn2 Hl.
    apply (world_inv_lookup _ _ _ _ Hinv'). rewrite !lookup_insert_ne by done.
    by apply (world_inv_own m).
Qed.

(** ** Copy assignment *)

(** X9: copy assignment between live lists either returns, with the
    payloads of [rhs] in order in [this] and every other list (also [rhs])
    as it was, or throws (which takes a copy that throws or a lack of
    storage) and then every list, [this] included, has the nodes, payloads
    and size it had before the call.  The temporaries are gone either way. *)
Theorem operator_assign_strong_guarantee m own this rhs temp temp' ns0 src fuel :
  world_inv m own → is_list m this ns0 → is_list m rhs src →
  fresh_storage m temp → fresh_storage m temp' → temp ≠ temp' →
  (length src < fuel)%nat → (length ns0 < fuel)%nat →
  (∃ m' ns,
     operator_assign fuel this rhs temp temp' m = Ret tt m' ∧
     ns.*2 = src.*2 ∧ is_list m' this ns ∧
     (∀ l nsl, l ≠ this → is_list m l nsl → is_list m' l nsl) ∧
     sizes m' !! temp = None ∧ sizes m' !! temp' = None)
  ∨
  (∃ e m',
     operator_assign fuel this rhs temp temp' m = Throw e m' ∧
     ¬ can_build src.*2 m ∧
     (∀ l nsl, is_list m l nsl → is_list m' l nsl) ∧
     sizes m' !! temp = None ∧ sizes m' !! temp' = None).
Proof.
  intros Hinv Hl0 Hlr Hft Hft' Hne Hfuel Hfuel0.
  pose proof (world_inv_own _ _ _ _ Hinv Hl0) as Hown0.
  pose proof (world_inv_own _ _ _ _ Hinv Hlr) as Hownr.
  pose proof (world_inv_fresh _ _ _ Hinv Hft) as Hnt.
  pose proof (world_inv_fresh _ _ _ Hinv Hft') as Hnt'.
  assert (∀ m' own', world_inv m' own' → ∀ l, own' !! l = None → sizes m' !! l = None)
    as Hgone.
  { intros m' own' (_ & Hdom & _) l Hl. apply eq_None_not_Some. rewrite <- Hdom.
    rewrite Hl. by intros [? ?]. }
  pose proof (operator_assign_post m own this rhs temp temp' ns0 src fuel
                Hinv Hown0 Hownr Hft Hft' Hne Hfuel Hfuel0) as Hp.
  destruct (operator_assign fuel this rhs temp temp' m) as [[] m'|e m'| |];
    simpl in Hp; try done.
  - destruct Hp as (ns & Hv & Hinv'). left. exists m', ns.
    split; [done|]. split; [done|]. split; [|split; [|split]].
    + apply (world_inv_lookup _ _ _ _ Hinv'). apply lookup_insert_eq.
    + intros l nsl Hl Hll. apply (world_inv_lookup _ _ _ _ Hinv').
      rewrite lookup_insert_ne by done. by apply (world_inv_own m).
    + apply (Hgone _ _ Hinv'). rewrite lookup_insert_ne; [done|]. congruence.
    + apply (Hgone _ _ Hinv'). rewrite lookup_insert_ne; [done|]. congruence.
  - destruct Hp as [Hinv' Hnot]. right. exists e, m'.
    split; [done|]. split; [done|]. split; [|split].
    + intros l nsl Hll. apply (world_inv_lookup _ _ _ _ Hinv').
      by apply (world_inv_own m).
    + by apply (Hgone _ _ Hinv').
    + by apply (Hgone _ _ Hinv').
Qed.

(** ** Calls within their preconditions *)

(** X10: from a reachable memory, a call made within its precondition
    neither faults (no failed assertion, no null or dangling dereference)
    nor loops beyond its bound: it ends normally or by an exception, in a
    reachable memory. *)
Theorem calls_never_fault m c :
  reachable m → call_ok m c →
  ∃ m', steps_to (run_call c m) m' ∧ reachable m'.
Proof.
  intros Hreach Hok. destruct (reachable_world_inv _ Hreach) as [own Hinv].
  destruct (call_total m own c Hinv Hok) as [m' Hstep].
  exists m'. split; [done|]. by apply (reachable_step m c m').
Qed.

(** X11: the members declared noexcept (swap, PopFront, EraseAfter, Clear)
    and the destructor, called within their preconditions from a reachable
    memory, return normally: no exception leaves them. *)
Theorem noexcept_calls_return m c :
  reachable m → call_ok m c → noexcept_call c →
  ∃ m', run_call c m = Ret tt m'.
Proof.
  intros Hreach Hok Hnx. destruct (reachable_world_inv _ Hreach) as [own Hinv].
  assert (∀ (o : outcome unit) Q, post o Q (λ _ _, False) → ∃ m', o = Ret tt m')
    as Hret.
  { intros [[] m'|e m'| |] Q Hp; simpl in Hp; try done. by exists m'. }
  destruct c; simpl in Hnx; try done; simpl in Hok; simpl run_call.
  - destruct Hok as (Hl1 & Hl2).
    destruct (world_inv_live _ _ _ Hinv Hl1) as (ns1 & Hown1 & _).
    destruct (world_inv_live _ _ _ Hinv Hl2) as (ns2 & Hown2 & _).
    exact (Hret _ _ (swap_post m own this other ns1 ns2 Hinv Hown1 Hown2)).
  - destruct (world_inv_live _ _ _ Hinv Hok) as (ns & Hown & _).
    exact (Hret _ _ (PopFront_post m own this ns Hinv Hown)).
  - destruct Hok as [Hlive Hpos].
    destruct (world_inv_valid_pos _ _ _ _ Hinv Hpos Hlive) as (ns & i & Hown & Hi).
    pose proof (EraseAfter_post m own this ns i pos Hinv Hown Hi) as Hp.
    unfold bind. destruct (EraseAfter this pos m) as [it m'|e m'| |];
      simpl in Hp; try done. by exists m'.
  - destruct (world_inv_live_within _ _ _ _ Hinv Hok) as (ns & Hown & _ & Hlen).
    exact (Hret _ _ (Clear_post m own this ns fuel Hinv Hown Hlen)).
  - destruct (world_inv_live_within _ _ _ _ Hinv Hok) as (ns & Hown & _ & Hlen).
    exact (Hret _ _ (SingleLinkedList_dtor_post m own this ns fuel Hinv Hown Hlen)).
Qed.

(** ** Insertion followed by erasure *)

Lemma insert_erase_nodes (h : gmap N Node) pa a pv v nxt :
  h !! pa = Some (mkNode pv nxt) → h !! a = None →
  delete a (<[pa := mkNode pv nxt]>
              (<[pa := mkNode pv a]> (<[a := mkNode v nxt]> h))) = h.
Proof.
  intros Hpa Ha. apply map_eq. intros k.
  destruct (decide (k = a)) as [->|Hka]; [by rewrite lookup_delete_eq|].
  rewrite lookup_delete_ne by done.
  destruct (decide (k = pa)) as [->|Hkp]; [by rewrite lookup_insert_eq|].
  by rewrite !lookup_insert_ne.
Qed.

Lemma incr_decr_size (sz : gmap N Z) this z :
  sz !! this = Some z → 0 ≤ z → z + 1 < 2 ^ 64 →
  <[this := wrap (wrap (z + 1) - 1)]> (<[this := wrap (z + 1)]> sz) = sz.
Proof.
  intros Hz H0 Hlt. rewrite insert_insert_eq.
  rewrite (wrap_small (z + 1)) by lia.
  replace (z + 1 - 1) with z by lia. rewrite wrap_small by lia.
  by apply insert_id.
Qed.

(** X12: InsertAfter(pos, v) followed by EraseAfter(pos) gives back the
    memory from before the two calls (same nodes, links, size and free
    storage), apart from the record that the payload of the erased node was
    destroyed; the iterator returned is at the node that followed [pos]
    before the calls, or null. *)
Theorem InsertAfter_EraseAfter_round_trip m this ns i pos v a fr :
  mem_wf m → is_list m this ns →
  footprint this ns !! i = Some (node_ pos) →
  free m = a :: fr → copy_throws v = false →
  (let! _ := InsertAfter this pos v in EraseAfter this pos) m
  = Ret (Iterator (first_addr (drop i ns) nullptr))
        (set_destroyed (λ d, d ++ [v]) m).
Proof.
  destruct pos as [pa]. simpl node_. intros Hwf Hl Hi Hf Hc.
  destruct (is_list_insert m this ns i pa a v fr Hwf Hl Hi Hf)
    as (pv & Hlpa & Hpa0 & Hne & Hl' & Hwf').
  pose proof Hl as (_ & Hsz & _).
  pose proof (is_list_length _ _ _ Hwf Hl) as Hlen.
  assert (nodes m !! a = None ∧ addr_ok a) as [Ha Haok].
  { destruct Hwf as (_ & Hfree & _). apply Hfree. rewrite Hf. left. }
  rewrite (bind_Ret _ _ _ _ _
             (InsertAfter_Ret _ _ _ _ _ _ _ _ _ Hpa0 Hlpa Hf Hc Hne Hsz)).
  erewrite EraseAfter_Ret; cycle 1.
  - exact Hpa0.
  - simpl. apply lookup_insert_eq.
  - destruct Haok as [Ha0 _]. unfold nullptr. lia.
  - simpl. rewrite lookup_insert_ne by done. apply lookup_insert_eq.
  - done.
  - simpl. apply lookup_insert_eq.
  - unfold mem_erased, mem_inserted, set_destroyed. simpl. f_equal.
    rewrite (insert_erase_nodes _ _ _ _ _ _ Hlpa Ha).
    rewrite (incr_decr_size _ _ _ Hsz) by lia.
    rewrite Hf. by destruct m.
Qed.

(** X13: PushFront(v) followed by PopFront() gives back the memory from
    before the two calls (same nodes, links, size and free storage), apart
    from the record that the payload of the popped node was destroyed. *)
Theorem PushFront_PopFront_round_trip m this ns v a fr :
  mem_wf m → is_list m this ns →
  free m = a :: fr → copy_throws v = false →
  (PushFront this v;; PopFront this) m
  = Ret tt (set_destroyed (λ d, d ++ [v]) m).
Proof.
  intros Hwf Hl Hf Hc.
  destruct (is_list_insert m this ns 0 this a v fr Hwf Hl eq_refl Hf)
    as (pv & Hlpa & Hpa0 & Hne & Hl' & Hwf').
  rewrite drop_0 in Hlpa.
  pose proof Hl as (_ & Hsz & _).
  pose proof (is_list_length _ _ _ Hwf Hl) as Hlen.
  assert (nodes m !! a = None ∧ addr_ok a) as [Ha Haok].
  { destruct Hwf as (_ & Hfree & _). apply Hfree. rewrite Hf. left. }
  rewrite (bind_Ret _ _ _ _ _
             (PushFront_Ret _ _ _ _ _ _ _ _ Hpa0 Hlpa Hf Hc Hne Hsz)).
  erewrite PopFront_Ret; cycle 1.
  - exact Hpa0.
  - simpl. apply lookup_insert_eq.
  - destruct Haok as [Ha0 _]. unfold nullptr. lia.
  - simpl. rewrite lookup_insert_ne by done. apply lookup_insert_eq.
  - done.
  - simpl. apply lookup_insert_eq.
  - rewrite wrap_small by lia. lia.
  - unfold mem_erased, mem_inserted, set_destroyed. simpl. f_equal.
    rewrite (insert_erase_nodes _ _ _ _ _ _ Hlpa Ha).
    rewrite (incr_decr_size _ _ _ Hsz) by lia.
    rewrite Hf. by destruct m.
Qed.

(** ** Validity of iterators *)

Lemma is_list_deref m this ns b v :
  is_list m this ns → (b, v) ∈ ns →
  iter_deref (Iterator b) m = Ret v m.
Proof.
  intros ([hv Hseg] & _ & _) Hin.
  apply list_elem_of_lookup_1 in Hin as [k Hk].
  rewrite <- (take_drop_middle _ _ _ Hk) in Hseg.
  rewrite app_comm_cons in Hseg. apply seg_app in Hseg as (r & _ & Hseg).
  simpl in Hseg. destruct Hseg as (_ & Hb0 & r' & Hb & _).
  by rewrite (iter_deref_Ret b _ m Hb0 Hb).
Qed.

(** X14: InsertAfter invalidates no iterator: every iterator at a node of
    the list still dereferences to the same payload afterwards.  EraseAfter
    invalidates the iterators at the erased node only: the others still
    dereference to the same payload, while dereferencing one at the erased
    node is a fault (the node is gone). *)
Theorem iterators_stay_valid m this ns i pos :
  mem_wf m → is_list m this ns →
  footprint this ns !! i = Some (node_ pos) →
  (∀ v a fr,
     free m = a :: fr → copy_throws v = false →
     ∃ it m',
       InsertAfter this pos v m = Ret it m' ∧
       ∀ b w, (b, w) ∈ ns → iter_deref (Iterator b) m' = Ret w m') ∧
  (∃ it m',
     EraseAfter this pos m = Ret it m' ∧
     (∀ k b w, k ≠ i → ns !! k = Some (b, w) →
               iter_deref (Iterator b) m' = Ret w m') ∧
     (∀ b w, ns !! i = Some (b, w) → iter_deref (Iterator b) m' = Fault)).
Proof.
  destruct pos as [pa]. simpl node_. intros Hwf Hl Hi. split.
  - intros v a fr Hf Hc.
    destruct (is_list_insert m this ns i pa a v fr Hwf Hl Hi Hf)
      as (pv & Hlpa & Hpa0 & Hne & Hl' & Hwf').
    pose proof Hl as (_ & Hsz & _).
    eexists _, _. split; [by eapply InsertAfter_Ret|].
    intros b w Hin. apply (is_list_deref _ _ _ _ _ Hl').
    rewrite <- (take_drop i ns) in Hin.
    apply elem_of_app in Hin as [Hin|Hin]; apply elem_of_app; [by left|right].
    by right.
  - pose proof (is_list_erase m this ns i pa Hwf Hl Hi) as [Hpa0 H].
    pose proof Hl as (_ & Hsz & _).
    destruct (ns !! i) as [[da dv]|] eqn:Hnsi.
    + destruct H as (pv & Hlpa & Hlda & Hda0 & Hne & Hl' & Hwf').
      eexists _, _. split; [by eapply EraseAfter_Ret|]. split.
      * intros k b w Hk Hkb. apply (is_list_deref _ _ _ _ _ Hl').
        destruct (decide (k < i)%nat) as [Hlt|Hge].
        -- apply (list_elem_of_lookup_2 _ k). by rewrite list_lookup_delete_lt.
        -- apply (list_elem_of_lookup_2 _ (pred k)).
           rewrite list_lookup_delete_ge by lia.
           by replace (S (pred k)) with k by lia.
      * intros b w [= <- <-]. unfold iter_deref. simpl node_.
        rewrite decide_False by done. unfold bind, load.
        rewrite decide_False by done. simpl. by rewrite lookup_delete_eq.
    + destruct H as (pv & Hlpa).
      eexists _, _. split; [by eapply EraseAfter_last|].
      split; [|done]. intros k b w _ Hkb.
      apply (is_list_deref _ _ _ _ _ Hl). by apply (list_elem_of_lookup_2 _ k).
Qed.

(** ** Clear and the destructor: what becomes of the storage *)

(** The loop of Clear, followed on the nodes of the list: it deletes them
    front to back, touches no other node and leaves the sentinel with a null
    link. *)
Lemma Clear_loop_track ns : ∀ fuel m this hv,
  seg (nodes m) this ((this, hv) :: ns) nullptr → NoDup (this :: ns.*1) →
  (length ns < fuel)%nat →
  ∃ h',
    Clear_loop fuel this m
    = Ret tt (mkMem h' (sizes m) (rev ns.*1 ++ free m) (destroyed m ++ ns.*2)) ∧
    h' !! this = Some (mkNode hv nullptr) ∧
    (∀ a, a ∈ ns.*1 → h' !! a = None) ∧
    (∀ k, k ∉ this :: ns.*1 → h' !! k = nodes m !! k).
Proof.
  induction ns as [|[a v] ns IH]; intros fuel m this hv Hseg Hnd Hfuel;
    (destruct fuel as [|fuel]; [simpl in Hfuel; lia|]).
  - simpl in Hseg. destruct Hseg as (_ & H0 & r & Hl & ->).
    exists (nodes m). split; [|split; [done|split; [by intros a ?%elem_of_nil|done]]].
    simpl Clear_loop. unfold head_.
    rewrite (bind_Ret _ _ _ _ _ (load_Ret _ _ _ H0 Hl)). simpl next_node.
    rewrite decide_True by done. simpl. rewrite app_nil_r. by destruct m.
  - simpl in Hseg. destruct Hseg as (_ & H0 & r & Hl & -> & Ha0 & r' & Hla & Hseg).
    simpl fmap in Hnd.
    apply NoDup_cons in Hnd as [Hthis Hnd].
    pose proof Hnd as [Ha Hnd']%NoDup_cons.
    assert (this ≠ a) as Hne by (intros ->; apply Hthis; left).
    assert (this ∉ ns.*1) as Hthis' by (intros ?; apply Hthis; by right).
    set (m2 := set_free (cons a)
                 (set_nodes (delete a)
                    (set_destroyed (λ d, d ++ [v])
                       (set_nodes <[this := mkNode hv r']> m)))).
    destruct (IH fuel m2 this hv) as (h' & Hrun & Hh & Hgone & Hkeep).
    { simpl. split; [done|]. split; [done|]. exists r'. split.
      - rewrite lookup_delete_ne by done. by rewrite lookup_insert_eq.
      - eapply seg_frame; [|exact Hseg]. intros b Hb. simpl.
        rewrite lookup_delete_ne by (intros <-; done).
        rewrite lookup_insert_ne by (intros <-; done). done. }
    { by apply NoDup_cons. }
    { simpl in Hfuel. lia. }
    exists h'. split; [|split; [done|split]].
    + simpl Clear_loop. unfold head_.
      rewrite (bind_Ret _ _ _ _ _ (load_Ret _ _ _ H0 Hl)). simpl next_node.
      rewrite decide_False by done.
      rewrite (bind_Ret _ _ _ _ _ (load_Ret _ _ _ Ha0 Hla)). simpl next_node.
      rewrite (bind_Ret _ _ _ _ _ (store_next_Ret _ _ _ _ H0 Hl)). simpl value.
      erewrite bind_Ret; cycle 1.
      { apply (delete_Node_Ret a (mkNode v r')); [done|]. simpl.
        by rewrite lookup_insert_ne. }
      etrans; [exact Hrun|]. simpl. f_equal. f_equal.
      * by rewrite <- app_assoc.
      * by rewrite <- app_assoc.
    + intros b Hb. rewrite fmap_cons in Hb. simpl in Hb.
      apply elem_of_cons in Hb as [->|Hb]; [|by apply Hgone].
      rewrite Hkeep.
      * simpl. by rewrite lookup_delete_eq.
      * intros [->|?]%elem_of_cons; done.
    + intros k Hk. rewrite fmap_cons in Hk. simpl in Hk. rewrite Hkeep.
      * simpl. rewrite lookup_delete_ne.
        -- rewrite lookup_insert_ne; [done|]. intros <-. apply Hk. left.
        -- intros <-. apply Hk. right. left.
      * intros [->|?]%elem_of_cons; apply Hk; [left|right; by right].
Qed.

Lemma Clear_Ret m this ns fuel :
  is_list m this ns → (length ns < fuel)%nat →
  ∃ hv h',
    nodes m !! this = Some (mkNode hv (first_addr ns nullptr)) ∧
    Clear fuel this m
    = Ret tt (mkMem h' (<[this := 0]> (sizes m)) (rev ns.*1 ++ free m)
                (destroyed m ++ ns.*2)) ∧
    h' !! this = Some (mkNode hv nullptr) ∧
    (∀ a, a ∈ ns.*1 → h' !! a = None) ∧
    (∀ k, k ∉ footprint this ns → h' !! k = nodes m !! k).
Proof.
  intros Hl Hfuel.
  destruct (is_list_sentinel _ _ _ Hl) as (H0 & hv & Hs).
  pose proof Hl as ([hv' Hseg] & Hsz & Hnd).
  assert (hv' = hv) as ->.
  { simpl in Hseg. destruct Hseg as (_ & _ & r & Hr & _). unfold head_ in Hr.
    rewrite Hs in Hr. by injection Hr. }
  destruct (Clear_loop_track ns fuel m this hv Hseg Hnd Hfuel)
    as (h' & Hrun & Hh & Hgone & Hkeep).
  exists hv, h'. split; [done|]. split; [|done].
  unfold Clear. rewrite (bind_Ret _ _ _ _ _ Hrun).
  by erewrite store_size_Ret by (simpl; exact Hsz).
Qed.

Lemma SingleLinkedList_dtor_Ret m this ns fuel :
  is_list m this ns → (length ns < fuel)%nat →
  ∃ hv h',
    nodes m !! this = Some (mkNode hv (first_addr ns nullptr)) ∧
    SingleLinkedList_dtor fuel this m
    = Ret tt (mkMem h' (delete this (sizes m)) (rev ns.*1 ++ free m)
                (destroyed m ++ ns.*2 ++ [hv])) ∧
    (∀ a, a ∈ footprint this ns → h' !! a = None) ∧
    (∀ k, k ∉ footprint this ns → h' !! k = nodes m !! k).
Proof.
  intros Hl Hfuel.
  destruct (is_list_sentinel _ _ _ Hl) as (H0 & _).
  destruct (Clear_Ret m this ns fuel Hl Hfuel)
    as (hv & h' & Hs & Hrun & Hh & Hgone & Hkeep).
  exists hv, (delete this h'). split; [done|]. split; [|split].
  - unfold SingleLinkedList_dtor. rewrite (bind_Ret _ _ _ _ _ Hrun).
    unfold destroy_members, head_.
    erewrite bind_Ret; cycle 1. { apply load_Ret; [done|]. simpl. exact Hh. }
    unfold bind, destroy_value, set_destroyed. simpl.
    unfold set_sizes, set_nodes. simpl.
    rewrite delete_insert_eq. by rewrite <- app_assoc.
  - intros a [->|Ha]%elem_of_cons; [by rewrite lookup_delete_eq|].
    destruct (decide (a = this)) as [->|?]; [by rewrite lookup_delete_eq|].
    rewrite lookup_delete_ne by done. by apply Hgone.
  - intros k Hk. rewrite lookup_delete_ne; [by apply Hkeep|].
    intros <-. apply Hk. left.
Qed.

(** No node of a list is free storage. *)
Lemma is_list_not_free m this ns a :
  mem_wf m → is_list m this ns → a ∈ footprint this ns → a ∉ free m.
Proof.
  intros (_ & Hfree & _) Hl Ha Hin.
  destruct (is_list_lookup _ _ _ _ Hl Ha) as [_ [n Hn]].
  destruct (Hfree a Hin) as [Hnone _]. congruence.
Qed.

(** Giving the nodes of a list back keeps the memory well formed. *)
Lemma mem_wf_released m this ns h' sz ds :
  mem_wf m → is_list m this ns →
  (∀ a, a ∈ ns.*1 → h' !! a = None) →
  (∀ k, k ∉ footprint this ns → h' !! k = nodes m !! k) →
  mem_wf (mkMem h' sz (rev ns.*1 ++ free m) ds).
Proof.
  intros Hwf Hl Hgone Hkeep. pose proof Hwf as (Hnd & Hfree & Hok).
  pose proof Hl as (_ & _ & [_ Hndl]%NoDup_cons).
  split; [|split]; simpl.
  - apply NoDup_app. split; [by rewrite <- Permutation_rev|]. split; [|done].
    intros a Ha. rewrite <- Permutation_rev in Ha.
    apply (is_list_not_free m this ns a Hwf Hl). by right.
  - intros a [Ha|Ha]%elem_of_app.
    + rewrite <- Permutation_rev in Ha. split; [by apply Hgone|].
      apply (is_list_addr_ok m this ns a Hwf Hl). by right.
    + destruct (Hfree a Ha) as [Hn Hokk]. split; [|done].
      rewrite Hkeep; [done|]. intros Hin.
      by apply (is_list_not_free m this ns a Hwf Hl).
  - intros a Hsome.
    destruct (decide (a ∈ footprint this ns)) as [Hin|Hnin].
    + by apply (is_list_addr_ok m this ns a Hwf Hl).
    + apply Hok. by rewrite <- Hkeep.
Qed.

(** X15: Clear() on a live list returns normally with the list empty; its
    nodes are deleted front to back: their payloads are destroyed in list
    order and their storage is given back (the node deleted last is the
    first to be handed out again); no node outside the list and no other
    list object is touched, and the memory stays well formed. *)
Theorem Clear_releases m this ns fuel :
  mem_wf m → is_list m this ns → (length ns < fuel)%nat →
  ∃ m',
    Clear fuel this m = Ret tt m' ∧
    is_list m' this [] ∧ IsEmpty this m' = Ret true m' ∧
    free m' = rev ns.*1 ++ free m ∧
    destroyed m' = destroyed m ++ ns.*2 ∧
    (∀ a, a ∈ ns.*1 → nodes m' !! a = None) ∧
    (∀ k, k ∉ footprint this ns → nodes m' !! k = nodes m !! k) ∧
    (∀ l, l ≠ this → sizes m' !! l = sizes m !! l) ∧
    mem_wf m'.
Proof.
  intros Hwf Hl Hfuel.
  destruct (is_list_sentinel _ _ _ Hl) as (H0 & _).
  destruct (Clear_Ret m this ns fuel Hl Hfuel)
    as (hv & h' & Hs & Hrun & Hh & Hgone & Hkeep).
  eexists. split; [exact Hrun|]. simpl.
  split; [|split; [|split; [done|split; [done|split; [done|split; [done|split]]]]]].
  - split; [|split]; simpl.
    + exists hv. simpl. unfold head_. split; [done|]. split; [done|]. eauto.
    + by rewrite lookup_insert_eq.
    + apply NoDup_singleton.
  - apply (IsEmpty_Ret this 0). simpl. by rewrite lookup_insert_eq.
  - intros l Hne. by rewrite lookup_insert_ne.
  - by apply (mem_wf_released m this ns).
Qed.

(** X16: the destructor of a live list returns normally; afterwards the
    list object is gone, all its nodes are deleted and their storage is
    free again, the payloads have been destroyed in list order and the
    payload of the sentinel last; no node outside the list and no other
    list object is touched, and the memory stays well formed. *)
Theorem SingleLinkedList_dtor_releases m this ns fuel :
  mem_wf m → is_list m this ns → (length ns < fuel)%nat →
  ∃ m' hv,
    SingleLinkedList_dtor fuel this m = Ret tt m' ∧
    nodes m !! this = Some (mkNode hv (first_addr ns nullptr)) ∧
    sizes m' !! this = None ∧
    (∀ a, a ∈ footprint this ns → nodes m' !! a = None) ∧
    free m' = rev ns.*1 ++ free m ∧
    destroyed m' = destroyed m ++ ns.*2 ++ [hv] ∧
    (∀ k, k ∉ footprint this ns → nodes m' !! k = nodes m !! k) ∧
    (∀ l, l ≠ this → sizes m' !! l = sizes m !! l) ∧
    mem_wf m'.
Proof.
  intros Hwf Hl Hfuel.
  destruct (SingleLinkedList_dtor_Ret m this ns fuel Hl Hfuel)
    as (hv & h' & Hs & Hrun & Hgone & Hkeep).
  eexists _, hv. split; [exact Hrun|]. simpl.
  split; [done|]. split; [by rewrite lookup_delete_eq|].
  split; [done|]. split; [done|]. split; [done|]. split; [done|]. split.
  - intros l Hne. by rewrite lookup_delete_ne.
  - apply (mem_wf_released m this ns); [done|done| |done].
    intros a Ha. apply Hgone. by right.
Qed.

(** ** The constructors: the storage they take, and what a failure leaves *)

Lemma build_step_finally_Ret m own l ns v next first a fr :
  world_inv m own → own !! l = Some ns →
  (first = true → ns = []) → (first = false → last ns.*1 = Some next) →
  copy_throws v = false → free m = a :: fr →
  ∃ m1,
    finally (build_step l v next first) (destroy_value v) m = Ret (a, false) m1 ∧
    world_inv m1 (<[l := ns ++ [(a, v)]]> own) ∧
    free m1 = fr ∧ destroyed m1 = destroyed m ++ [v].
Proof.
  intros Hinv Hown H1 H2 Hc Hf.
  pose proof (build_step_post m own l ns v next first Hinv Hown H1 H2) as Hp.
  unfold finally.
  destruct (build_step l v next first m) as [st m1|e m1| |]; simpl in Hp; try done.
  - destruct Hp as (a' & fr' & Hf' & _ & -> & Hinv1 & Hf1 & Hd1).
    rewrite Hf in Hf'. injection Hf' as <- <-.
    simpl. eexists. split; [done|]. split; [exact Hinv1|]. simpl. by rewrite Hd1.
  - destruct Hp as [_ [Hf'|Hc']]; congruence.
Qed.

Lemma build_step_finally_bad_alloc m l v next first :
  free m = [] →
  finally (build_step l v next first) (destroy_value v) m
  = Throw bad_alloc (set_destroyed (λ d, d ++ [v]) m).
Proof.
  intros Hf. unfold finally, build_step.
  by destruct first; rewrite (bind_Throw _ _ _ _ _ (new_Node_bad_alloc _ _ _ Hf)).
Qed.

(** The loop of the initializer-list constructor with storage for all the
    values, none of which throws on copy: the nodes are taken from the free
    storage in the order it hands them out. *)
Lemma init_loop_built values : ∀ m own l ns next first,
  world_inv m own → own !! l = Some ns →
  (first = true → ns = []) → (first = false → last ns.*1 = Some next) →
  Forall (λ v, copy_throws v = false) values →
  (length values ≤ length (free m))%nat →
  ∃ m' ns',
    init_loop l values next first m = Ret tt m' ∧
    ns'.*2 = values ∧ ns'.*1 = take (length values) (free m) ∧
    free m' = drop (length values) (free m) ∧
    destroyed m' = destroyed m ++ values ∧
    world_inv m' (<[l := ns ++ ns']> own).
Proof.
  induction values as [|v values IH];
    intros m own l ns next first Hinv Hown H1 H2 Hall Hlen.
  - exists m, []. simpl. rewrite !app_nil_r, insert_id by done. by rewrite drop_0.
  - apply Forall_cons in Hall as [Hc Hall].
    destruct (free m) as [|a fr] eqn:Hf; [simpl in Hlen; lia|].
    destruct (build_step_finally_Ret m own l ns v next first a fr
                Hinv Hown H1 H2 Hc Hf) as (m1 & Hrun & Hinv1 & Hf1 & Hd1).
    destruct (IH m1 _ l (ns ++ [(a, v)]) a false Hinv1 (lookup_insert_eq _ _ _))
      as (m' & ns' & Hrun' & Hv & Ha & Hfr & Hd & Hinv').
    { done. }
    { intros _. rewrite fmap_app. simpl. by rewrite last_snoc. }
    { done. }
    { rewrite Hf1. simpl in Hlen. lia. }
    exists m', ((a, v) :: ns'). split.
    { cbn [init_loop]. unfold bind at 1, copy_construct. rewrite Hc.
      rewrite (bind_Ret _ _ _ _ _ Hrun). exact Hrun'. }
    rewrite insert_insert_eq, <- app_assoc in Hinv'.
    split; [by rewrite fmap_cons, Hv|].
    split; [by rewrite fmap_cons, Ha, Hf1|].
    split; [by rewrite Hfr, Hf1|]. split; [|done].
    rewrite Hd, Hd1. by rewrite <- app_assoc.
Qed.

(** The same loop when, after the values [good], either the copy of [bad]
    throws or no storage is left: the exception leaves the loop with the
    nodes built for [good] still linked to the list. *)
Lemma init_loop_throws good : ∀ m own l ns next first (bad : T) (tl : list T),
  world_inv m own → own !! l = Some ns →
  (first = true → ns = []) → (first = false → last ns.*1 = Some next) →
  Forall (λ v, copy_throws v = false) good →
  (length good ≤ length (free m))%nat →
  copy_throws bad = true ∨ length good = length (free m) →
  ∃ m' ns',
    init_loop l (good ++ bad :: tl) next first m
    = Throw (if copy_throws bad then copy_failure else bad_alloc) m' ∧
    ns'.*2 = good ∧ ns'.*1 = take (length good) (free m) ∧
    free m' = drop (length good) (free m) ∧
    world_inv m' (<[l := ns ++ ns']> own).
Proof.
  induction good as [|v good IH];
    intros m own l ns next first bad tl Hinv Hown H1 H2 Hall Hlen Hbad.
  - cbn [app init_loop length]. rewrite drop_0.
    destruct (copy_throws bad) eqn:Hc.
    + exists m, []. split.
      { unfold bind at 1, copy_construct. by rewrite Hc. }
      rewrite app_nil_r, insert_id by done. done.
    + destruct Hbad as [?|Hfree]; [done|].
      symmetry in Hfree. apply nil_length_inv in Hfree.
      exists (set_destroyed (λ d, d ++ [bad]) m), []. split.
      { unfold bind at 1, copy_construct. rewrite Hc.
        by rewrite (bind_Throw _ _ _ _ _
                      (build_step_finally_bad_alloc m l bad next first Hfree)). }
      rewrite app_nil_r, insert_id by done. done.
  - apply Forall_cons in Hall as [Hc Hall].
    destruct (free m) as [|a fr] eqn:Hf; [simpl in Hlen; lia|].
    destruct (build_step_finally_Ret m own l ns v next first a fr
                Hinv Hown H1 H2 Hc Hf) as (m1 & Hrun & Hinv1 & Hf1 & Hd1).
    destruct (IH m1 _ l (ns ++ [(a, v)]) a false bad tl
                Hinv1 (lookup_insert_eq _ _ _))
      as (m' & ns' & Hrun' & Hv & Ha & Hfr & Hinv').
    { done. }
    { intros _. rewrite fmap_app. simpl. by rewrite last_snoc. }
    { done. }
    { rewrite Hf1. simpl in Hlen. lia. }
    { rewrite Hf1. destruct Hbad as [?|Hbad]; [by left|right].
      simpl in Hbad. lia. }
    exists m', ((a, v) :: ns'). split.
    { cbn [app init_loop]. unfold bind at 1, copy_construct. rewrite Hc.
      rewrite (bind_Ret _ _ _ _ _ Hrun). exact Hrun'. }
    rewrite insert_insert_eq, <- app_assoc in Hinv'.
    split; [by rewrite fmap_cons, Hv|].
    split; [by rewrite fmap_cons, Ha, Hf1|].
    split; [by rewrite Hfr, Hf1|done].
Qed.

Lemma destroy_members_Ret this n m :
  this ≠ nullptr → nodes m !! this = Some n →
  destroy_members this m
  = Ret tt (mkMem (delete this (nodes m)) (delete this (sizes m)) (free m)
              (destroyed m ++ [value n])).
Proof.
  intros H0 Hn. unfold destroy_members, head_.
  by rewrite (bind_Ret _ _ _ _ _ (load_Ret _ _ _ H0 Hn)).
Qed.

(** Free storage holds no node of a list, in a consistent memory. *)
Lemma world_inv_free_unowned m own l ns a :
  world_inv m own → is_list m l ns → a ∈ free m → a ∉ footprint l ns.
Proof.
  intros (Hwf & _) Hl Ha Hin. by apply (is_list_not_free m l ns a Hwf Hl).
Qed.

(** X17: the initializer-list constructor leaks on failure.  When the
    values [good] are copied into nodes and then either the copy of the next
    value throws or the storage is exhausted, the exception leaves the
    constructor, no list object exists at [this], the lists that existed are
    unchanged, but the nodes built for [good] are neither deleted nor given
    back: they are still allocated and chained, missing from the free
    storage, and owned by no list. *)
Theorem SingleLinkedList_init_leaks m own this good (bad : T) (tl : list T) :
  world_inv m own → fresh_storage m this →
  Forall (λ v, copy_throws v = false) good →
  (length good ≤ length (free m))%nat →
  copy_throws bad = true ∨ length good = length (free m) →
  ∃ m' ns',
    SingleLinkedList_init this (good ++ bad :: tl) m
    = Throw (if copy_throws bad then copy_failure else bad_alloc) m' ∧
    sizes m' !! this = None ∧ nodes m' !! this = None ∧
    world_inv m' own ∧
    ns'.*2 = good ∧ ns'.*1 = take (length good) (free m) ∧
    free m' = drop (length good) (free m) ∧
    seg (nodes m') (first_addr ns' nullptr) ns' nullptr ∧
    (∀ l ns a, is_list m' l ns → a ∈ ns'.*1 → a ∉ footprint l ns).
Proof.
  intros Hinv Hfresh Hall Hlen Hbad.
  pose proof (world_inv_fresh _ _ _ Hinv Hfresh) as Hnone.
  destruct (world_inv_init_members m own this Hinv Hfresh)
    as (m1 & Hrun1 & Hinv1 & Hf1 & Hd1).
  destruct (init_loop_throws good m1 _ this [] nullptr true bad tl
              Hinv1 (lookup_insert_eq _ _ _) (λ _, eq_refl))
    as (m2 & ns' & Hrun2 & Hv & Ha & Hfr & Hinv2); [done|done|by rewrite Hf1| |].
  { by rewrite Hf1. }
  rewrite insert_insert_eq in Hinv2. simpl in Hinv2.
  pose proof (world_inv_lookup _ _ _ _ Hinv2 (lookup_insert_eq _ _ _)) as Hl2.
  destruct (is_list_sentinel _ _ _ Hl2) as (H0 & hv & Hs).
  destruct (world_inv_destroy_members m2 _ this ns' Hinv2 (lookup_insert_eq _ _ _))
    as (hv' & m3 & Hrun3 & Hinv3 & _).
  rewrite delete_insert_id in Hinv3 by done.
  rewrite (destroy_members_Ret _ _ _ H0 Hs) in Hrun3. injection Hrun3 as <-.
  eexists _, ns'. split.
  { unfold SingleLinkedList_init. rewrite (bind_Ret _ _ _ _ _ Hrun1).
    rewrite decide_False by (rewrite length_app; simpl; lia).
    unfold on_throw. rewrite Hrun2.
    by rewrite (destroy_members_Ret _ _ _ H0 Hs). }
  simpl. split; [by rewrite lookup_delete_eq|]. split; [by rewrite lookup_delete_eq|].
  split; [done|]. split; [done|]. split; [by rewrite Ha, Hf1|].
  split; [by rewrite Hfr, Hf1|]. split.
  - destruct (begin_Ret _ _ _ Hl2) as (_ & _ & Hseg).
    eapply seg_frame; [|exact Hseg]. intros a Hin.
    rewrite lookup_delete_ne; [done|]. intros <-.
    destruct Hl2 as (_ & _ & [Hnin _]%NoDup_cons). done.
  - intros l ns a Hl Hin.
    pose proof (world_inv_own _ _ _ _ Hinv3 Hl) as Hown.
    pose proof (world_inv_lookup _ _ _ _ Hinv Hown) as Hlm.
    apply (world_inv_free_unowned m own l ns a Hinv Hlm).
    rewrite Ha, Hf1 in Hin. eapply elem_of_sublist; [exact Hin|apply sublist_take].
Qed.

(** X18: constructing a list from values (with storage for them, none
    throwing on copy) and destroying it returns all the storage taken: the
    free storage afterwards is a rearrangement of the one before, no list
    object is left at [this], the lists that existed are unchanged; the
    destructors ran for the temporaries of the loop, then for the payloads
    in list order, then for the payload of the sentinel. *)
Theorem SingleLinkedList_init_dtor_round_trip m own this vals fuel :
  world_inv m own → fresh_storage m this → can_build vals m →
  (length vals < fuel)%nat →
  ∃ m' hv,
    (SingleLinkedList_init this vals;; SingleLinkedList_dtor fuel this) m
    = Ret tt m' ∧
    world_inv m' own ∧ sizes m' !! this = None ∧
    free m' = rev (take (length vals) (free m)) ++ drop (length vals) (free m) ∧
    free m' ≡ₚ free m ∧
    destroyed m' = destroyed m ++ vals ++ vals ++ [hv].
Proof.
  intros Hinv Hfresh [Hall Hlen] Hfuel.
  pose proof (world_inv_fresh _ _ _ Hinv Hfresh) as Hnone.
  destruct (world_inv_init_members m own this Hinv Hfresh)
    as (m1 & Hrun1 & Hinv1 & Hf1 & Hd1).
  destruct (init_loop_built vals m1 _ this [] nullptr true
              Hinv1 (lookup_insert_eq _ _ _) (λ _, eq_refl))
    as (m2 & ns & Hrun2 & Hv & Ha & Hfr & Hd & Hinv2); [done|done|by rewrite Hf1|].
  rewrite insert_insert_eq in Hinv2. simpl in Hinv2.
  assert (SingleLinkedList_init this vals m = Ret tt m2) as Hinit.
  { unfold SingleLinkedList_init. rewrite (bind_Ret _ _ _ _ _ Hrun1).
    destruct (decide (length vals = 0%nat)) as [Hz|Hz].
    - apply nil_length_inv in Hz as ->. simpl in Hrun2. by injection Hrun2 as ->.
    - unfold on_throw. by rewrite Hrun2. }
  pose proof (world_inv_lookup _ _ _ _ Hinv2 (lookup_insert_eq _ _ _)) as Hl2.
  assert (length ns = length vals) as Hlenns.
  { by rewrite <- Hv, length_fmap. }
  pose proof (SingleLinkedList_dtor_post m2 _ this ns fuel Hinv2
                (lookup_insert_eq _ _ _) ltac:(lia)) as Hdt.
  destruct (SingleLinkedList_dtor_Ret m2 this ns fuel Hl2 ltac:(lia))
    as (hv & h' & Hs & Hrun3 & _ & _).
  rewrite Hrun3 in Hdt. simpl in Hdt. rewrite delete_insert_id in Hdt by done.
  eexists _, hv. split.
  { rewrite (bind_Ret _ _ _ _ _ Hinit). exact Hrun3. }
  split; [done|]. simpl. split; [by rewrite lookup_delete_eq|].
  rewrite Ha, Hfr, Hf1, Hd, Hd1, Hv. split; [done|]. split.
  - rewrite <- Permutation_rev. by rewrite take_drop.
  - by rewrite <- !app_assoc.
Qed.

(** The loop of the copy constructor when, after the nodes [gn] of the
    source, either the copy of the next payload throws or no storage is
    left. *)
Lemma copy_loop_throws gn : ∀ fuel m own temp other pre built next first ba bv tln,
  world_inv m own → own !! temp = Some built →
  own !! other = Some (pre ++ gn ++ (ba, bv) :: tln) → temp ≠ other →
  (first = true → built = []) →
  (first = false → last built.*1 = Some next) →
  (length gn < fuel)%nat →
  Forall (λ v, copy_throws v = false) gn.*2 →
  (length gn ≤ length (free m))%nat →
  copy_throws bv = true ∨ length gn = length (free m) →
  ∃ m' ns',
    copy_loop fuel temp (Iterator (first_addr (gn ++ (ba, bv) :: tln) nullptr))
      (Iterator nullptr) next first m
    = Throw (if copy_throws bv then copy_failure else bad_alloc) m' ∧
    ns'.*2 = gn.*2 ∧ ns'.*1 = take (length gn) (free m) ∧
    free m' = drop (length gn) (free m) ∧
    world_inv m' (<[temp := built ++ ns']> own).
Proof.
  induction gn as [|[a v] gn IH];
    intros [|fuel] m own temp other pre built next first ba bv tln
           Hinv Htemp Hother Hne H1 H2 Hfuel Hall Hlen Hbad;
    simpl in Hfuel; try lia.
  - pose proof (world_inv_lookup _ _ _ _ Hinv Hother) as Hlo.
    destruct (is_list_suffix _ _ _ _ _ _ Hlo) as [Ha Hla].
    cbn [app copy_loop first_addr length]. rewrite iter_ne_null by done.
    rewrite (bind_Ret _ _ _ _ _ (iter_deref_Ret _ _ _ Ha Hla)). cbn [value].
    rewrite drop_0.
    destruct (copy_throws bv) eqn:Hc.
    + exists m, []. split.
      { unfold bind at 1, copy_construct. by rewrite Hc. }
      rewrite app_nil_r, insert_id by done. done.
    + destruct Hbad as [?|Hfree]; [done|].
      symmetry in Hfree. apply nil_length_inv in Hfree.
      exists (set_destroyed (λ d, d ++ [bv]) m), []. split.
      { unfold bind at 1, copy_construct. rewrite Hc.
        by rewrite (bind_Throw _ _ _ _ _
                      (build_step_finally_bad_alloc m temp bv next first Hfree)). }
      rewrite app_nil_r, insert_id by done. done.
  - rewrite fmap_cons in Hall. apply Forall_cons in Hall as [Hc Hall].
    simpl in Hc.
    destruct (free m) as [|a' fr] eqn:Hf; [simpl in Hlen; lia|].
    pose proof (world_inv_lookup _ _ _ _ Hinv Hother) as Hlo.
    change (((a, v) :: gn) ++ (ba, bv) :: tln)
      with ((a, v) :: (gn ++ (ba, bv) :: tln)) in *.
    destruct (is_list_suffix _ _ _ _ _ _ Hlo) as [Ha Hla].
    destruct (build_step_finally_Ret m own temp built v next first a' fr
                Hinv Htemp H1 H2 Hc Hf) as (m1 & Hrun & Hinv1 & Hf1 & Hd1).
    assert (<[temp := built ++ [(a', v)]]> own !! other
            = Some ((pre ++ [(a, v)]) ++ gn ++ (ba, bv) :: tln)) as Hother1.
    { rewrite lookup_insert_ne by done. by rewrite <- app_assoc. }
    pose proof (world_inv_lookup _ _ _ _ Hinv1 Hother1) as Hlo1.
    rewrite <- app_assoc in Hlo1.
    destruct (is_list_suffix _ _ _ _ _ _ Hlo1) as [_ Hla1].
    destruct (IH fuel m1 _ temp other (pre ++ [(a, v)]) (built ++ [(a', v)]) a' false
                ba bv tln Hinv1 (lookup_insert_eq _ _ _) Hother1 Hne)
      as (m' & ns' & Hrun' & Hv & Has & Hfr & Hinv').
    { done. }
    { intros _. rewrite fmap_app. simpl. by rewrite last_snoc. }
    { lia. }
    { done. }
    { rewrite Hf1. simpl in Hlen. lia. }
    { rewrite Hf1. destruct Hbad as [?|Hbad]; [by left|right].
      simpl in Hbad. lia. }
    exists m', ((a', v) :: ns'). split.
    { cbn [copy_loop first_addr]. rewrite iter_ne_null by done.
      rewrite (bind_Ret _ _ _ _ _ (iter_deref_Ret _ _ _ Ha Hla)). cbn [value].
      unfold bind at 1, copy_construct. rewrite Hc.
      rewrite (bind_Ret _ _ _ _ _ Hrun).
      rewrite (bind_Ret _ _ _ _ _ (iter_incr_Ret _ _ _ Ha Hla1)). cbn [next_node].
      exact Hrun'. }
    rewrite insert_insert_eq, <- app_assoc in Hinv'.
    split; [by rewrite !fmap_cons, Hv|].
    split; [by rewrite fmap_cons, Has, Hf1|].
    split; [by rewrite Hfr, Hf1|done].
Qed.

(** X19: the copy constructor does not leak on failure.  When the payloads
    of the nodes [gn] of the source are copied and then either the copy of
    the next payload throws or the storage is exhausted, the exception
    leaves the constructor, neither the new list nor the temporary one
    exists, the lists that existed (the source among them) are unchanged,
    and every node built for the copy has been deleted: the free storage is
    a rearrangement of the one before the call. *)
Theorem SingleLinkedList_copy_failure_releases
    m own this other temp gn ba bv tln fuel :
  world_inv m own → is_list m other (gn ++ (ba, bv) :: tln) →
  fresh_storage m this → fresh_storage m temp → this ≠ temp →
  (length (gn ++ (ba, bv) :: tln) < fuel)%nat →
  Forall (λ v, copy_throws v = false) gn.*2 →
  (length gn ≤ length (free m))%nat →
  copy_throws bv = true ∨ length gn = length (free m) →
  ∃ m',
    SingleLinkedList_copy fuel this other temp m
    = Throw (if copy_throws bv then copy_failure else bad_alloc) m' ∧
    world_inv m' own ∧
    sizes m' !! this = None ∧ sizes m' !! temp = None ∧
    free m' = rev (take (length gn) (free m)) ++ drop (length gn) (free m) ∧
    free m' ≡ₚ free m.
Proof.
  intros Hinv Hlo Hfthis Hftemp Hne Hfuel Hall Hlen Hbad.
  set (src := gn ++ (ba, bv) :: tln) in *.
  pose proof (world_inv_own _ _ _ _ Hinv Hlo) as Hother.
  pose proof (world_inv_fresh _ _ _ Hinv Hfthis) as Hnthis.
  pose proof (world_inv_fresh _ _ _ Hinv Hftemp) as Hntemp.
  assert (other ≠ this) as Hot by congruence.
  assert (other ≠ temp) as Hott by congruence.
  destruct (world_inv_init_members m own this Hinv Hfthis)
    as (m1 & Hrun1 & Hinv1 & Hf1 & Hd1).
  assert (<[this := []]> own !! other = Some src) as Hother1
    by (by rewrite lookup_insert_ne).
  pose proof (world_inv_lookup _ _ _ _ Hinv1 Hother1) as Hlo1.
  pose proof Hlo1 as (_ & Hsz1 & _).
  pose proof (fresh_storage_init_members m this temp m1 Hftemp (not_eq_sym Hne) Hrun1)
    as Hftemp1.
  destruct (world_inv_init_members m1 _ temp Hinv1 Hftemp1)
    as (m2 & Hrun2 & Hinv2 & Hf2 & Hd2).
  assert (<[temp := []]> (<[this := []]> own) !! other = Some ([] ++ src)) as Hother2
    by (by rewrite !lookup_insert_ne).
  pose proof (world_inv_lookup _ _ _ _ Hinv2 Hother2) as Hlo2.
  destruct (begin_Ret _ _ _ Hlo2) as (_ & Hb2 & _).
  assert (length gn < fuel)%nat as Hfuel'.
  { unfold src in Hfuel. rewrite length_app in Hfuel. lia. }
  destruct (copy_loop_throws gn fuel m2 _ temp other [] [] nullptr true ba bv tln
              Hinv2 (lookup_insert_eq _ _ _) Hother2 (not_eq_sym Hott)
              (λ _, eq_refl) ltac:(done) Hfuel' Hall)
    as (m3 & ns' & Hrun3 & Hv & Has & Hfr & Hinv3).
  { by rewrite Hf2, Hf1. }
  { by rewrite Hf2, Hf1. }
  rewrite insert_insert_eq in Hinv3. simpl in Hinv3.
  pose proof (world_inv_lookup _ _ _ _ Hinv3 (lookup_insert_eq _ _ _)) as Hl3.
  assert (length ns' = length gn) as Hlenns.
  { by rewrite <- (length_fmap snd ns'), Hv, length_fmap. }
  pose proof (SingleLinkedList_dtor_post m3 _ temp ns' fuel Hinv3
                (lookup_insert_eq _ _ _) ltac:(lia)) as Hdt.
  destruct (SingleLinkedList_dtor_Ret m3 temp ns' fuel Hl3 ltac:(lia))
    as (hv & h' & Hs & Hrun4 & _ & _).
  rewrite Hrun4 in Hdt. simpl in Hdt.
  rewrite delete_insert_id in Hdt by (by rewrite lookup_insert_ne).
  destruct (world_inv_destroy_members _ _ this [] Hdt (lookup_insert_eq _ _ _))
    as (hv' & m5 & Hrun5 & Hinv5 & Hf5 & _).
  rewrite delete_insert_eq, delete_id in Hinv5 by done.
  assert (sizes m5 !! this = None ∧ sizes m5 !! temp = None) as [Hs5 Hs5'].
  { destruct Hinv5 as (_ & Hdom & _).
    split; apply eq_None_not_Some; rewrite <- Hdom; [rewrite Hnthis|rewrite Hntemp];
      by intros [? ?]. }
  exists m5. split.
  { unfold SingleLinkedList_copy. rewrite (bind_Ret _ _ _ _ _ Hrun1).
    unfold on_throw at 1.
    rewrite (bind_Ret _ _ _ _ _ (IsEmpty_Ret _ _ _ Hsz1)).
    destruct (Z.eqb_spec (Z.of_nat (length src)) 0) as [Hz|Hz].
    { unfold src in Hz. rewrite length_app in Hz. simpl in Hz. lia. }
    unfold SingleLinkedList_default. rewrite (bind_Ret _ _ _ _ _ Hrun2).
    unfold finally. rewrite (bind_Ret _ _ _ _ _ Hb2).
    unfold end_const, bind at 1, ret at 1.
    unfold src. rewrite (bind_Throw _ _ _ _ _ Hrun3).
    rewrite Hrun4. by rewrite Hrun5. }
  split; [done|]. split; [done|]. split; [done|].
  rewrite Hf5. simpl. rewrite Has, Hfr, Hf2, Hf1. split; [done|].
  rewrite <- Permutation_rev. by rewrite take_drop.
Qed.

(** ** PushFront, repeated *)

Lemma PushFront_run m this ns v a fr :
  mem_wf m → is_list m this ns → free m = a :: fr → copy_throws v = false →
  ∃ m',
    PushFront this v m = Ret tt m' ∧ is_list m' this ((a, v) :: ns) ∧
    mem_wf m' ∧ free m' = fr ∧ destroyed m' = destroyed m.
Proof.
  intros Hwf Hl Hf Hc.
  destruct (is_list_insert m this ns 0 this a v fr Hwf Hl eq_refl Hf)
    as (pv & Hlpa & Hpa0 & Hne & Hl' & Hwf').
  rewrite drop_0 in Hl', Hwf', Hlpa. rewrite take_0 in Hl'. simpl in Hl'.
  pose proof Hl as (_ & Hsz & _).
  eexists. split; [by eapply PushFront_Ret|]. done.
Qed.

(** X20: PushFront of the values [vals] one after the other (with storage
    for them, none throwing on copy) returns normally with the values at the
    front of the list in reverse order, before the elements the list had:
    a traversal yields the reversed values followed by the old elements, and
    the size has grown by their number. *)
Theorem PushFront_all_reverses vals : ∀ m this ns fuel,
  mem_wf m → is_list m this ns → can_build vals m →
  (length vals + length ns < fuel)%nat →
  ∃ m',
    PushFront_all this vals m = Ret tt m' ∧
    traverse fuel this m' = Ret (rev vals ++ ns.*2) m' ∧
    GetSize this m' = Ret (Z.of_nat (length vals + length ns)) m' ∧
    free m' = drop (length vals) (free m) ∧
    mem_wf m'.
Proof.
  induction vals as [|v vals IH]; intros m this ns fuel Hwf Hl [Hall Hlen] Hfuel.
  - exists m. split; [done|]. split; [by apply traverse_Ret|].
    split; [apply load_size_Ret, Hl|]. by rewrite drop_0.
  - apply Forall_cons in Hall as [Hc Hall].
    destruct (free m) as [|a fr] eqn:Hf; [simpl in Hlen; lia|].
    destruct (PushFront_run m this ns v a fr Hwf Hl Hf Hc)
      as (m1 & Hrun & Hl1 & Hwf1 & Hf1 & _).
    destruct (IH m1 this ((a, v) :: ns) fuel Hwf1 Hl1) as (m' & Hrun' & Htr & Hsz & Hfr & Hwf').
    { split; [done|]. rewrite Hf1. simpl in Hlen. lia. }
    { simpl in *. lia. }
    exists m'. split.
    { cbn [PushFront_all]. by rewrite (bind_Ret _ _ _ _ _ Hrun). }
    split; [|split; [|split; [by rewrite Hfr, Hf1|done]]].
    + rewrite Htr. f_equal. rewrite fmap_cons. simpl. by rewrite <- app_assoc.
    + rewrite Hsz. do 2 f_equal. simpl. lia.
Qed.

(** A memory with two list objects that share no node is consistent. *)
Lemma world_inv_pair m l1 l2 ns1 ns2 :
  mem_wf m → is_list m l1 ns1 → is_list m l2 ns2 →
  (∀ l', is_Some (sizes m !! l') → l' = l1 ∨ l' = l2) →
  NoDup (footprint l1 ns1 ++ footprint l2 ns2) →
  world_inv m (<[l1 := ns1]> {[l2 := ns2]}).
Proof.
  intros Hwf Hl1 Hl2 Honly Hnd.
  apply NoDup_app in Hnd as (_ & Hdisj & _).
  assert (l1 ≠ l2) as Hne.
  { intros ->. apply (Hdisj l2); left. }
  split; [done|]. split; [|split].
  - intros l'. split.
    + intros [x [[<- _]|[_ [<- _]%lookup_singleton_Some]]%lookup_insert_Some].
      * destruct Hl1 as (_ & Hs & _). eauto.
      * destruct Hl2 as (_ & Hs & _). eauto.
    + intros [->| ->]%Honly.
      * rewrite lookup_insert_eq. eauto.
      * rewrite lookup_insert_ne by done. rewrite lookup_singleton_eq. eauto.
  - intros l' ns' [[<- <-]|[_ [<- <-]%lookup_singleton_Some]]%lookup_insert_Some;
      done.
  - intros k1 k2 c1 c2 a Hk
      [[<- <-]|[_ [<- <-]%lookup_singleton_Some]]%lookup_insert_Some
      [[<- <-]|[_ [<- <-]%lookup_singleton_Some]]%lookup_insert_Some Ha Hb;
      try done.
    + by apply (Hdisj a).
    + by apply (Hdisj a).
Qed.

(** ** Copy construction and assignment: the storage they take and return *)

Lemma copy_loop_built rest : ∀ fuel m own temp other pre built next first,
  world_inv m own → own !! temp = Some built →
  own !! other = Some (pre ++ rest) → temp ≠ other →
  (first = true → built = []) →
  (first = false → last built.*1 = Some next) →
  (length rest < fuel)%nat →
  Forall (λ v, copy_throws v = false) rest.*2 →
  (length rest ≤ length (free m))%nat →
  ∃ m' ns',
    copy_loop fuel temp (Iterator (first_addr rest nullptr)) (Iterator nullptr)
      next first m
    = Ret tt m' ∧
    ns'.*2 = rest.*2 ∧ ns'.*1 = take (length rest) (free m) ∧
    free m' = drop (length rest) (free m) ∧
    world_inv m' (<[temp := built ++ ns']> own).
Proof.
  induction rest as [|[a v] rest IH];
    intros [|fuel] m own temp other pre built next first
           Hinv Htemp Hother Hne H1 H2 Hfuel Hall Hlen;
    simpl in Hfuel; try lia.
  - exists m, []. split; [done|]. rewrite app_nil_r, insert_id by done.
    by rewrite drop_0.
  - rewrite fmap_cons in Hall. apply Forall_cons in Hall as [Hc Hall].
    simpl in Hc.
    destruct (free m) as [|a' fr] eqn:Hf; [simpl in Hlen; lia|].
    pose proof (world_inv_lookup _ _ _ _ Hinv Hother) as Hlo.
    destruct (is_list_suffix _ _ _ _ _ _ Hlo) as [Ha Hla].
    destruct (build_step_finally_Ret m own temp built v next first a' fr
                Hinv Htemp H1 H2 Hc Hf) as (m1 & Hrun & Hinv1 & Hf1 & Hd1).
    assert (<[temp := built ++ [(a', v)]]> own !! other
            = Some ((pre ++ [(a, v)]) ++ rest)) as Hother1.
    { rewrite lookup_insert_ne by done. by rewrite <- app_assoc. }
    pose proof (world_inv_lookup _ _ _ _ Hinv1 Hother1) as Hlo1.
    rewrite <- app_assoc in Hlo1.
    destruct (is_list_suffix _ _ _ _ _ _ Hlo1) as [_ Hla1].
    destruct (IH fuel m1 _ temp other (pre ++ [(a, v)]) (built ++ [(a', v)]) a' false
                Hinv1 (lookup_insert_eq _ _ _) Hother1 Hne)
      as (m' & ns' & Hrun' & Hv & Has & Hfr & Hinv').
    { done. }
    { intros _. rewrite fmap_app. simpl. by rewrite last_snoc. }
    { lia. }
    { done. }
    { rewrite Hf1. simpl in Hlen. lia. }
    exists m', ((a', v) :: ns'). split.
    { cbn [copy_loop first_addr]. rewrite iter_ne_null by done.
      rewrite (bind_Ret _ _ _ _ _ (iter_deref_Ret _ _ _ Ha Hla)). cbn [value].
      unfold bind at 1, copy_construct. rewrite Hc.
      rewrite (bind_Ret _ _ _ _ _ Hrun).
      rewrite (bind_Ret _ _ _ _ _ (iter_incr_Ret _ _ _ Ha Hla1)). cbn [next_node].
      exact Hrun'. }
    rewrite insert_insert_eq, <- app_assoc in Hinv'.
    split; [by rewrite !fmap_cons, Hv|].
    split; [by rewrite fmap_cons, Has, Hf1|].
    split; [by rewrite Hfr, Hf1|done].
Qed.

(** The copy constructor with storage for the payloads of the source, none
    of which throws on copy: the new nodes are the first of the free
    storage, in the order it hands them out. *)
Lemma SingleLinkedList_copy_built m own this other temp src fuel :
  world_inv m own → fresh_storage m this → fresh_storage m temp →
  this ≠ temp → own !! other = Some src → (length src < fuel)%nat →
  can_build src.*2 m →
  ∃ m' ns,
    SingleLinkedList_copy fuel this other temp m = Ret tt m' ∧
    ns.*2 = src.*2 ∧ ns.*1 = take (length src) (free m) ∧
    free m' = drop (length src) (free m) ∧
    world_inv m' (<[this := ns]> own).
Proof.
  intros Hinv Hfthis Hftemp Hne Hother Hfuel [Hall Hlen].
  rewrite length_fmap in Hlen.
  pose proof (world_inv_fresh _ _ _ Hinv Hfthis) as Hnthis.
  pose proof (world_inv_fresh _ _ _ Hinv Hftemp) as Hntemp.
  assert (other ≠ this) as Hot by congruence.
  assert (other ≠ temp) as Hott by congruence.
  destruct (world_inv_init_members m own this Hinv Hfthis)
    as (m1 & Hrun1 & Hinv1 & Hf1 & Hd1).
  assert (<[this := []]> own !! other = Some src) as Hother1
    by (by rewrite lookup_insert_ne).
  pose proof (world_inv_lookup _ _ _ _ Hinv1 Hother1) as Hlo1.
  pose proof Hlo1 as (_ & Hsz1 & _).
  unfold SingleLinkedList_copy. rewrite (bind_Ret _ _ _ _ _ Hrun1).
  unfold on_throw at 1.
  rewrite (bind_Ret _ _ _ _ _ (IsEmpty_Ret _ _ _ Hsz1)).
  destruct (Z.eqb_spec (Z.of_nat (length src)) 0) as [Hz|Hz].
  { destruct src; [|simpl in Hz; lia]. exists m1, []. simpl.
    split; [done|]. split; [done|]. split; [done|]. by rewrite drop_0. }
  pose proof (fresh_storage_init_members m this temp m1 Hftemp (not_eq_sym Hne) Hrun1)
    as Hftemp1.
  destruct (world_inv_init_members m1 _ temp Hinv1 Hftemp1)
    as (m2 & Hrun2 & Hinv2 & Hf2 & Hd2).
  unfold SingleLinkedList_default. rewrite (bind_Ret _ _ _ _ _ Hrun2).
  assert (<[temp := []]> (<[this := []]> own) !! other = Some ([] ++ src)) as Hother2
    by (by rewrite !lookup_insert_ne).
  pose proof (world_inv_lookup _ _ _ _ Hinv2 Hother2) as Hlo2.
  destruct (begin_Ret _ _ _ Hlo2) as (_ & Hb2 & _).
  destruct (copy_loop_built src fuel m2 _ temp other [] [] nullptr true
              Hinv2 (lookup_insert_eq _ _ _) Hother2 (not_eq_sym Hott)
              (λ _, eq_refl) ltac:(done) Hfuel Hall)
    as (m3 & ns' & Hrun3 & Hv & Has & Hfr & Hinv3).
  { by rewrite Hf2, Hf1. }
  rewrite insert_insert_eq in Hinv3. simpl in Hinv3.
  unfold finally. rewrite (bind_Ret _ _ _ _ _ Hb2).
  unfold end_const, bind at 1, ret at 1. rewrite (bind_Ret _ _ _ _ _ Hrun3).
  pose proof (swap_post m3 _ this temp [] ns' Hinv3
                ltac:(by rewrite lookup_insert_ne, lookup_insert_eq)
                (lookup_insert_eq _ _ _)) as Hsw.
  destruct (swap this temp m3) as [[] m4|e m4| |]; simpl in Hsw; try done.
  destruct Hsw as (Hinv4 & Hf4 & _).
  pose proof (world_inv_lookup _ _ _ _ Hinv4
                ltac:(by rewrite lookup_insert_ne, lookup_insert_eq)) as Hl4.
  pose proof (SingleLinkedList_dtor_post m4 _ temp [] fuel Hinv4
                ltac:(by rewrite lookup_insert_ne, lookup_insert_eq)
                ltac:(simpl; lia)) as Hdt.
  destruct (SingleLinkedList_dtor_Ret m4 temp [] fuel Hl4 ltac:(simpl; lia))
    as (hv & h' & _ & Hrun5 & _ & _).
  rewrite Hrun5 in Hdt |- *. simpl in Hdt.
  eexists _, ns'. split; [done|]. split; [done|]. simpl.
  split; [by rewrite Has, Hf2, Hf1|]. split; [by rewrite Hf4, Hfr, Hf2, Hf1|].
  match goal with |- world_inv _ ?X =>
    replace X with (delete temp (<[this:=ns']> (<[temp:=[]]>
                      (<[temp:=ns']> (<[this:=[]]> own))))) end; [done|].
  map_solve.
Qed.

(** X21: copy assignment from another list, with storage for the payloads
    and none throwing on copy, returns normally: the list gets new nodes,
    the first ones of the free storage, with the payloads of [rhs] in
    order; its old nodes are deleted and their storage is free again; [rhs]
    is as it was. *)
Theorem operator_assign_replaces m own this rhs temp temp' ns0 src fuel :
  world_inv m own → is_list m this ns0 → is_list m rhs src → rhs ≠ this →
  fresh_storage m temp → fresh_storage m temp' → temp ≠ temp' →
  (length src < fuel)%nat → (length ns0 < fuel)%nat →
  can_build src.*2 m →
  ∃ m' ns,
    operator_assign fuel this rhs temp temp' m = Ret tt m' ∧
    is_list m' this ns ∧ ns.*2 = src.*2 ∧
    ns.*1 = take (length src) (free m) ∧
    free m' = rev ns0.*1 ++ drop (length src) (free m) ∧
    (∀ a, a ∈ ns0.*1 → nodes m' !! a = None) ∧
    is_list m' rhs src.
Proof.
  intros Hinv Hl0 Hlr Hrt Hft Hft' Hne Hfuel Hfuel0 Hcan.
  pose proof (world_inv_own _ _ _ _ Hinv Hl0) as Hthis.
  pose proof (world_inv_own _ _ _ _ Hinv Hlr) as Hrhs.
  pose proof (world_inv_fresh _ _ _ Hinv Hft) as Hntemp.
  assert (this ≠ temp) as Htt by congruence.
  assert (rhs ≠ temp) as Hrtemp by congruence.
  destruct (SingleLinkedList_copy_built m own temp rhs temp' src fuel
              Hinv Hft Hft' Hne Hrhs Hfuel Hcan)
    as (m1 & ns & Hrun1 & Hv & Has & Hfr & Hinv1).
  pose proof (swap_post m1 _ this temp ns0 ns Hinv1
                ltac:(by rewrite lookup_insert_ne)
                (lookup_insert_eq _ _ _)) as Hsw.
  destruct (swap this temp m1) as [[] m2|e m2| |] eqn:Hrun2; simpl in Hsw; try done.
  destruct Hsw as (Hinv2 & Hf2 & _).
  pose proof (world_inv_lookup _ _ _ _ Hinv2
                ltac:(by rewrite lookup_insert_ne, lookup_insert_eq)) as Hl2.
  pose proof (SingleLinkedList_dtor_post m2 _ temp ns0 fuel Hinv2
                ltac:(by rewrite lookup_insert_ne, lookup_insert_eq) Hfuel0) as Hdt.
  destruct (SingleLinkedList_dtor_Ret m2 temp ns0 fuel Hl2 Hfuel0)
    as (hv & h' & _ & Hrun3 & Hgone & _).
  rewrite Hrun3 in Hdt. simpl in Hdt.
  eexists _, ns. split.
  { unfold operator_assign. rewrite decide_False by done.
    rewrite (bind_Ret _ _ _ _ _ Hrun1). unfold finally.
    rewrite Hrun2, Hrun3. reflexivity. }
  split; [|split; [done|split; [done|split; [|split]]]].
  - apply (world_inv_lookup _ _ _ _ Hdt).
    rewrite lookup_delete_ne by done. apply lookup_insert_eq.
  - simpl. by rewrite Hf2, Hfr.
  - intros a Ha. simpl. apply Hgone. by right.
  - apply (world_inv_lookup _ _ _ _ Hdt).
    rewrite lookup_delete_ne by done. by rewrite !lookup_insert_ne.
Qed.

End Proofs.

(** * Lists of [int]: evaluation *)

(** Tactics that settle [is_list], [mem_wf] and [fresh_storage] on a
    memory given by its contents. *)
Ltac concrete_is_list :=
  split; [eexists; simpl; repeat first [done | split | eexists]
         | split; [reflexivity | compute_done]].

Ltac concrete_mem_wf :=
  split; [compute_done|split];
  [ intros ? Ha; simpl in Ha;
    repeat (apply elem_of_cons in Ha as [->|Ha]);
    try (by apply elem_of_nil in Ha);
    (split; [reflexivity|unfold addr_ok; lia])
  | intros ? [? Hn]; simpl in Hn;
    repeat (apply lookup_insert_Some in Hn as [[<- _]|[_ Hn]];
            [unfold addr_ok; lia|]);
    by rewrite lookup_empty in Hn ].

Ltac concrete_fresh :=
  split; [unfold addr_ok; lia|split; [reflexivity|split; [reflexivity|compute_done]]].

(** ** operator== *)

(** C1 (operator== should hold exactly for lists of the same length with
    equal elements at each position; the code does otherwise): with {1, 2}
    and {1, 2, 3} built by the initializer-list constructor, operator==
    answers true although the lengths differ (sizes 2 and 3), and with the
    operands exchanged it dereferences the end iterator of the shorter list
    and faults. *)
Theorem operator_eq_ignores_length :
  (SingleLinkedList_init 1000 [1; 2];;
   SingleLinkedList_init 2000 [1; 2; 3]) mem0
  = Ret tt mem_12_123 ∧
  GetSize 1000 mem_12_123 = Ret 2 mem_12_123 ∧
  GetSize 2000 mem_12_123 = Ret 3 mem_12_123 ∧
  traverse 4 1000 mem_12_123 = Ret [1; 2] mem_12_123 ∧
  traverse 4 2000 mem_12_123 = Ret [1; 2; 3] mem_12_123 ∧
  operator_eq 4 1000 2000 mem_12_123 = Ret true mem_12_123 ∧
  operator_eq 4 2000 1000 mem_12_123 = Fault.
Proof. repeat split; vm_compute; reflexivity. Qed.

(** ** operator< and operator> *)

Lemma lex_lt_lexicographically_less xs : ∀ ys,
  lex_lt xs ys = true ↔ lexicographically_less xs ys.
Proof.
  unfold lexicographically_less.
  induction xs as [|x xs IH]; intros [|y ys]; simpl.
  - split; [done|]. intros [(y & s & H)|(p & x & y & s1 & s2 & H & _)].
    + done.
    + by destruct p.
  - split; [|done]. intros _. left. by exists y, ys.
  - split; [done|]. intros [(y & s & H)|(p & x' & y & s1 & s2 & _ & H & _)].
    + done.
    + by destruct p.
  - destruct (Z.ltb_spec x y) as [Hxy|Hxy].
    { split; [|done]. intros _. right. by exists [], x, y, xs, ys. }
    destruct (Z.ltb_spec y x) as [Hyx|Hyx].
    { split; [done|]. intros [(y' & s & H)|(p & x' & y' & s1 & s2 & H1 & H2 & Hlt)].
      - injection H as -> _. lia.
      - destruct p as [|a p]; simpl in *; simplify_eq; lia. }
    assert (x = y) as -> by lia. rewrite IH. split.
    + intros [(y' & s & ->)|(p & x' & y' & s1 & s2 & -> & -> & Hlt)].
      * left. by exists y', s.
      * right. by exists (y :: p), x', y', s1, s2.
    + intros [(y' & s & H)|(p & x' & y' & s1 & s2 & H1 & H2 & Hlt)].
      * injection H as ->. left. by exists y', s.
      * destruct p as [|a p]; simpl in *; simplify_eq; [lia|].
        right. by exists p, x', y', s1, s2.
Qed.

(** C8: on lists of integers operator< and operator> return normally, and
    their results are the lexicographic order of the element sequences
    (operator> with the operands exchanged); so {1,2,3} < {1,2,4}, the
    proper prefix {1,2} < {1,2,3}, and for two lists with the same elements
    in the same order both operator< and operator> return false. *)
Theorem operator_lt_lexicographic (m : @Mem Z) lhs rhs ns1 ns2 fuel :
  is_list m lhs ns1 → is_list m rhs ns2 →
  (length ns1 < fuel)%nat → (length ns2 < fuel)%nat →
  (∃ b, operator_lt fuel lhs rhs m = Ret b m ∧
        (b = true ↔ lexicographically_less ns1.*2 ns2.*2)) ∧
  (∃ b, operator_gt fuel lhs rhs m = Ret b m ∧
        (b = true ↔ lexicographically_less ns2.*2 ns1.*2)) ∧
  (ns1.*2 = [1; 2; 3] → ns2.*2 = [1; 2; 4] →
   operator_lt fuel lhs rhs m = Ret true m) ∧
  (ns1.*2 = [1; 2] → ns2.*2 = [1; 2; 3] →
   operator_lt fuel lhs rhs m = Ret true m) ∧
  (ns1.*2 = ns2.*2 →
   operator_lt fuel lhs rhs m = Ret false m ∧
   operator_gt fuel lhs rhs m = Ret false m).
Proof.
  intros H1 H2 Hf1 Hf2.
  pose proof (operator_lt_lex m lhs rhs ns1 ns2 fuel H1 H2 Hf1) as Hlt.
  pose proof (operator_lt_lex m rhs lhs ns2 ns1 fuel H2 H1 Hf2) as Hgt.
  change (operator_lt fuel rhs lhs m) with (operator_gt fuel lhs rhs m) in Hgt.
  assert (∀ xs, lex_lt xs xs = false) as Hirr.
  { induction xs as [|x xs IH]; simpl; [done|]. by rewrite Z.ltb_irrefl. }
  split; [|split; [|split; [|split]]].
  - eexists. split; [exact Hlt|]. apply lex_lt_lexicographically_less.
  - eexists. split; [exact Hgt|]. apply lex_lt_lexicographically_less.
  - intros E1 E2. by rewrite Hlt, E1, E2.
  - intros E1 E2. by rewrite Hlt, E1, E2.
  - intros E. rewrite Hlt, Hgt, E. by rewrite Hirr.
Qed.

(** ** The four ordering operators *)

Lemma lex_lt_irrefl (xs : list Z) : lex_lt xs xs = false.
Proof. induction xs as [|x xs IH]; simpl; [done|]. by rewrite Z.ltb_irrefl. Qed.

Lemma lex_lt_asym (xs : list Z) : ∀ ys,
  lex_lt xs ys = true → lex_lt ys xs = false.
Proof.
  induction xs as [|x xs IH]; intros [|y ys]; simpl; try done.
  destruct (Z.ltb_spec x y), (Z.ltb_spec y x); try done; try lia. apply IH.
Qed.

Lemma lex_lt_connected (xs : list Z) : ∀ ys,
  lex_lt xs ys = false → lex_lt ys xs = false → xs = ys.
Proof.
  induction xs as [|x xs IH]; intros [|y ys]; simpl; try done.
  destruct (Z.ltb_spec x y), (Z.ltb_spec y x); try done.
  intros H1 H2. assert (x = y) as -> by lia. f_equal. by apply IH.
Qed.

Lemma lex_lt_trans (xs : list Z) : ∀ ys zs,
  lex_lt xs ys = true → lex_lt ys zs = true → lex_lt xs zs = true.
Proof.
  induction xs as [|x xs IH]; intros [|y ys] [|z zs]; simpl; try done.
  destruct (Z.ltb_spec x y), (Z.ltb_spec y x), (Z.ltb_spec y z),
    (Z.ltb_spec z y), (Z.ltb_spec x z), (Z.ltb_spec z x);
    try done; try lia.
  apply IH.
Qed.

(** X22: on lists of integers, of any lengths, the four ordering operators
    return normally and order the lists totally: of "less", "greater" and
    "same elements in the same order" exactly one holds; operator<= is the
    negation of operator>, and operator>= the negation of operator<. *)
Theorem ordering_operators_total (m : @Mem Z) lhs rhs ns1 ns2 fuel :
  is_list m lhs ns1 → is_list m rhs ns2 →
  (length ns1 < fuel)%nat → (length ns2 < fuel)%nat →
  ∃ lt gt,
    operator_lt fuel lhs rhs m = Ret lt m ∧
    operator_gt fuel lhs rhs m = Ret gt m ∧
    operator_le fuel lhs rhs m = Ret (negb gt) m ∧
    operator_ge fuel lhs rhs m = Ret (negb lt) m ∧
    (lt = true → gt = false) ∧
    (lt = false ∧ gt = false ↔ ns1.*2 = ns2.*2).
Proof.
  intros H1 H2 Hf1 Hf2.
  pose proof (operator_lt_lex m lhs rhs ns1 ns2 fuel H1 H2 Hf1) as Hlt.
  pose proof (operator_lt_lex m rhs lhs ns2 ns1 fuel H2 H1 Hf2) as Hgt.
  exists (lex_lt ns1.*2 ns2.*2), (lex_lt ns2.*2 ns1.*2).
  split; [done|]. split; [done|]. split; [|split; [|split; [|split]]].
  - unfold operator_le. by rewrite (bind_Ret _ _ _ _ _ Hgt).
  - unfold operator_ge, operator_gt. by rewrite (bind_Ret _ _ _ _ _ Hlt).
  - apply lex_lt_asym.
  - intros [E1 E2]. by apply lex_lt_connected.
  - intros ->. by rewrite lex_lt_irrefl.
Qed.

(** X23: on lists of integers operator< is transitive. *)
Theorem operator_lt_transitive (m : @Mem Z) l1 l2 l3 ns1 ns2 ns3 fuel :
  is_list m l1 ns1 → is_list m l2 ns2 → is_list m l3 ns3 →
  (length ns1 < fuel)%nat → (length ns2 < fuel)%nat →
  operator_lt fuel l1 l2 m = Ret true m →
  operator_lt fuel l2 l3 m = Ret true m →
  operator_lt fuel l1 l3 m = Ret true m.
Proof.
  intros H1 H2 H3 Hf1 Hf2.
  rewrite (operator_lt_lex m l1 l2 ns1 ns2 fuel H1 H2 Hf1).
  rewrite (operator_lt_lex m l2 l3 ns2 ns3 fuel H2 H3 Hf2).
  rewrite (operator_lt_lex m l1 l3 ns1 ns3 fuel H1 H3 Hf1).
  intros [= E1] [= E2]. f_equal. by apply (lex_lt_trans _ ns2.*2).
Qed.

(** * The theorems at concrete lists *)

Lemma PopFront_empty_noop_witness :
  PopFront 1000 mem_empty = Ret tt mem_empty ∧
  GetSize 1000 mem_empty = Ret 0 mem_empty ∧
  is_list mem_empty 1000 [].
Proof. apply PopFront_empty_noop. concrete_is_list. Defined.

Lemma PopFront_removes_first_witness :
  ∃ m',
    PopFront 1000 mem_5 = Ret tt m' ∧
    is_list m' 1000 [at_ 32 14; at_ 48 15; at_ 64 92; at_ 80 6] ∧
    GetSize 1000 m' = Ret (Z.of_nat (length content_5) - 1) m' ∧
    nodes m' !! 16%N = None ∧
    destroyed m' = destroyed mem_5 ++ [3].
Proof.
  apply (PopFront_removes_first mem_5 1000 16 3).
  - concrete_mem_wf.
  - concrete_is_list.
Defined.

Lemma EraseAfter_spec_witness :
  ∃ m',
    EraseAfter 1000 (Iterator 16) mem_1234 = Ret (Iterator 48) m' ∧
    is_list m' 1000 [at_ 16 1; at_ 48 3; at_ 64 4] ∧
    GetSize 1000 m' = Ret (Z.of_nat (length content_1234) - 1) m' ∧
    nodes m' !! 32%N = None ∧
    destroyed m' = destroyed mem_1234 ++ [2].
Proof.
  apply (EraseAfter_spec mem_1234 1000 content_1234 1 (Iterator 16)).
  - concrete_mem_wf.
  - concrete_is_list.
  - reflexivity.
Defined.

Lemma InsertAfter_strong_guarantee_witness :
  InsertAfter 1000 (Iterator 16) (-1) mem_123
  = Throw (if decide (free mem_123 = []) then bad_alloc else copy_failure) mem_123.
Proof.
  apply (InsertAfter_strong_guarantee mem_123 1000 content_123 1).
  - concrete_is_list.
  - reflexivity.
  - reflexivity.
Defined.

Lemma before_begin_incr_is_begin_witness :
  ∃ it,
    (let! bb := before_begin 1000 in iter_incr bb) mem_123 = Ret it mem_123 ∧
    (let! bb := cbefore_begin 1000 in iter_incr bb) mem_123 = Ret it mem_123 ∧
    (∃ b, begin 1000 mem_123 = Ret b mem_123 ∧ iter_eq it b = true) ∧
    (∃ b, begin_const 1000 mem_123 = Ret b mem_123 ∧ iter_eq it b = true) ∧
    (content_123 = [] → ∃ e, end_ 1000 mem_123 = Ret e mem_123 ∧ iter_eq it e = true).
Proof. apply before_begin_incr_is_begin. concrete_is_list. Defined.

Lemma SingleLinkedList_init_traverse_witness :
  ∃ m',
    SingleLinkedList_init 1000 [1; 2; 3] mem0
    = Ret tt m' ∧
    traverse 4 1000 m' = Ret [1; 2; 3] m' ∧
    GetSize 1000 m' = Ret 3 m'.
Proof.
  apply (SingleLinkedList_init_traverse mem0 ∅
           1000 [1; 2; 3] 4).
  - apply world_inv_initial. split; [done|]. split; [done|]. concrete_mem_wf.
  - concrete_fresh.
  - split; [by repeat constructor|simpl; lia].
  - simpl. lia.
Defined.

Lemma reachable_invariant_witness :
  ∃ ns,
    is_list mem_123 1000 ns ∧
    GetSize 1000 mem_123 = Ret (Z.of_nat (length ns)) mem_123 ∧
    ∀ fuel, (length ns < fuel)%nat → traverse fuel 1000 mem_123 = Ret ns.*2 mem_123.
Proof.
  apply (reachable_invariant mem_123 1000).
  - apply (reachable_step mem0 (CallInit 1000 [1; 2; 3]) mem_123).
    + apply reachable_initial. split; [done|]. split; [done|]. concrete_mem_wf.
    + simpl. concrete_fresh.
    + left. exists tt. vm_compute. reflexivity.
  - simpl. by rewrite lookup_singleton_eq.
Defined.

Lemma copy_is_deep_witness :
  ∃ m' ns,
    SingleLinkedList_copy 4 2000 1000 3000 mem_123
    = Ret tt m' ∧
    is_list m' 2000 ns ∧ ns.*2 = content_123.*2 ∧
    is_list m' 1000 content_123 ∧
    (∀ a, a ∈ footprint 2000 ns → a ∉ footprint 1000 content_123) ∧
    operator_eq 4 2000 1000 m' = Ret true m' ∧
    (∀ m'', mutated 2000 m' m'' →
       is_list m'' 1000 content_123 ∧
       GetSize 1000 m'' = Ret (Z.of_nat (length content_123)) m'' ∧
       traverse 4 1000 m'' = Ret content_123.*2 m'').
Proof.
  apply (copy_is_deep mem_123
           {[ 1000%N := content_123 ]} 2000 1000 3000 content_123 4).
  - apply world_inv_single; [concrete_mem_wf|concrete_is_list|].
    intros l [z Hz]. simpl in Hz. by apply lookup_singleton_Some in Hz as [<- _].
  - concrete_is_list.
  - concrete_fresh.
  - concrete_fresh.
  - done.
  - simpl. lia.
  - split; [by repeat constructor|simpl; lia].
  - by repeat constructor.
Defined.

Lemma operator_lt_lexicographic_witness :
  (∃ b, operator_lt 4 1000 2000 mem_123_124 = Ret b mem_123_124 ∧
        (b = true ↔ lexicographically_less content_123.*2 content_124.*2)) ∧
  (∃ b, operator_gt 4 1000 2000 mem_123_124 = Ret b mem_123_124 ∧
        (b = true ↔ lexicographically_less content_124.*2 content_123.*2)) ∧
  (content_123.*2 = [1; 2; 3] → content_124.*2 = [1; 2; 4] →
   operator_lt 4 1000 2000 mem_123_124 = Ret true mem_123_124) ∧
  (content_123.*2 = [1; 2] → content_124.*2 = [1; 2; 3] →
   operator_lt 4 1000 2000 mem_123_124 = Ret true mem_123_124) ∧
  (content_123.*2 = content_124.*2 →
   operator_lt 4 1000 2000 mem_123_124 = Ret false mem_123_124 ∧
   operator_gt 4 1000 2000 mem_123_124 = Ret false mem_123_124).
Proof.
  apply (operator_lt_lexicographic mem_123_124 1000 2000 content_123 content_124 4).
  - concrete_is_list.
  - concrete_is_list.
  - simpl. lia.
  - simpl. lia.
Defined.

(** * The further properties at concrete lists *)

Ltac concrete_only :=
  let l := fresh "l" in
  let z := fresh "z" in
  let Hz := fresh "Hz" in
  intros l [z Hz]; simpl in Hz;
  repeat (apply lookup_insert_Some in Hz as [[<- _]|[_ Hz]]; [by eauto|]);
  by rewrite lookup_empty in Hz.

Lemma world_inv_mem_123 : world_inv mem_123 {[ 1000%N := content_123 ]}.
Proof.
  apply world_inv_single; [concrete_mem_wf|concrete_is_list|].
  intros l [z Hz]. simpl in Hz. by apply lookup_singleton_Some in Hz as [<- _].
Qed.

Lemma world_inv_mem_1234 : world_inv mem_1234 {[ 1000%N := content_1234 ]}.
Proof.
  apply world_inv_single; [concrete_mem_wf|concrete_is_list|].
  intros l [z Hz]. simpl in Hz. by apply lookup_singleton_Some in Hz as [<- _].
Qed.

Lemma world_inv_mem_123_124 :
  world_inv mem_123_124 (<[1000%N := content_123]> {[ 2000%N := content_124 ]}).
Proof.
  apply world_inv_pair.
  - concrete_mem_wf.
  - concrete_is_list.
  - concrete_is_list.
  - concrete_only.
  - compute_done.
Qed.

Lemma reachable_mem_123 : reachable mem_123.
Proof.
  apply (reachable_step mem0 (CallInit 1000 [1; 2; 3]) mem_123).
  - apply reachable_initial. split; [done|]. split; [done|]. concrete_mem_wf.
  - simpl. concrete_fresh.
  - left. exists tt. vm_compute. reflexivity.
Qed.

Lemma PushFront_spec_witness :
  ∃ m',
    PushFront 1000 7 mem_123 = Ret tt m' ∧
    is_list m' 1000 (at_ 64 7 :: content_123) ∧
    GetSize 1000 m' = Ret (Z.of_nat (length content_123) + 1) m' ∧
    free m' = [80; 96; 112]%N ∧ destroyed m' = destroyed mem_123 ∧ mem_wf m'.
Proof.
  assert (mem_wf mem_123) as Hwf by concrete_mem_wf.
  assert (is_list mem_123 1000 content_123) as Hl by concrete_is_list.
  exact (PushFront_spec mem_123 1000 content_123 7 Hwf Hl).
Defined.

Lemma InsertAfter_inserts_witness :
  ∃ m',
    InsertAfter 1000 (Iterator 16) 7 mem_123 = Ret (Iterator 64) m' ∧
    is_list m' 1000 (take 1 content_123 ++ at_ 64 7 :: drop 1 content_123) ∧
    GetSize 1000 m' = Ret (Z.of_nat (length content_123) + 1) m' ∧
    iter_deref (Iterator 64) m' = Ret 7 m' ∧
    iter_incr (Iterator 16) m' = Ret (Iterator 64) m' ∧
    free m' = [80; 96; 112]%N.
Proof.
  apply (InsertAfter_inserts mem_123 1000 content_123 1 (Iterator 16) 7 64
           [80; 96; 112]%N).
  - concrete_mem_wf.
  - concrete_is_list.
  - reflexivity.
  - reflexivity.
  - reflexivity.
Defined.

Lemma IsEmpty_iff_no_nodes_witness :
  IsEmpty 1000 mem_123 = Ret (length content_123 =? 0)%nat mem_123 ∧
  ∃ b e,
    begin 1000 mem_123 = Ret b mem_123 ∧ end_ 1000 mem_123 = Ret e mem_123 ∧
    iter_eq b e = (length content_123 =? 0)%nat.
Proof. apply (IsEmpty_iff_no_nodes mem_123 1000 content_123). concrete_is_list. Defined.

Lemma iter_advance_from_begin_witness :
  ∃ it,
    (let! b := begin 1000 in iter_advance 2 b) mem_123 = Ret it mem_123 ∧
    node_ it = 48%N ∧ iter_deref it mem_123 = Ret 3 mem_123 ∧
    iter_eq it (Iterator nullptr) = false.
Proof.
  assert (is_list mem_123 1000 content_123) as Hl by concrete_is_list.
  exact (iter_advance_from_begin mem_123 1000 content_123 2 Hl).
Defined.

Lemma operator_eq_up_to_left_length_witness :
  ∃ b,
    operator_eq 4 1000 2000 mem_12_123 = Ret b mem_12_123 ∧
    operator_ne 4 1000 2000 mem_12_123 = Ret (negb b) mem_12_123 ∧
    (b = true ↔
     Forall2 (λ x y, T_eq x y = true) [1; 2] (take 2 [1; 2; 3])) ∧
    ((2 = 3)%nat →
     (b = true ↔ Forall2 (λ x y, T_eq x y = true) [1; 2] [1; 2; 3])).
Proof.
  apply (operator_eq_up_to_left_length mem_12_123 1000 2000
           [at_ 16 1; at_ 32 2] [at_ 48 1; at_ 64 2; at_ 80 3] 4).
  - concrete_is_list.
  - concrete_is_list.
  - simpl. lia.
  - simpl. lia.
Defined.

Lemma operator_eq_longer_left_witness :
  (Forall2 (λ x y, T_eq x y = true) (take 2 [1; 2; 3]) [1; 2] ∧
   operator_eq 4 2000 1000 mem_12_123 = Fault)
  ∨
  (¬ Forall2 (λ x y, T_eq x y = true) (take 2 [1; 2; 3]) [1; 2] ∧
   operator_eq 4 2000 1000 mem_12_123 = Ret false mem_12_123).
Proof.
  apply (operator_eq_longer_left mem_12_123 2000 1000
           [at_ 48 1; at_ 64 2; at_ 80 3] [at_ 16 1; at_ 32 2] 4).
  - concrete_is_list.
  - concrete_is_list.
  - simpl. lia.
  - simpl. lia.
Defined.

Lemma swap_swap_witness :
  (swap_free 1000 2000;; swap_free 1000 2000) mem_123_124 = Ret tt mem_123_124.
Proof.
  apply (swap_swap mem_123_124 1000 2000 content_123 content_124).
  - concrete_is_list.
  - concrete_is_list.
Defined.

Lemma swap_exchanges_witness :
  ∃ m',
    swap 1000 2000 mem_123_124 = Ret tt m' ∧
    is_list m' 1000 content_124 ∧ is_list m' 2000 content_123 ∧
    free m' = free mem_123_124 ∧ destroyed m' = destroyed mem_123_124 ∧
    (∃ it, begin 1000 mem_123_124 = Ret it mem_123_124 ∧
           begin 2000 m' = Ret it m') ∧
    (∀ l ns, l ≠ 1000%N → l ≠ 2000%N →
             is_list mem_123_124 l ns → is_list m' l ns).
Proof.
  apply (swap_exchanges mem_123_124 _ 1000 2000 content_123 content_124
           world_inv_mem_123_124).
  - concrete_is_list.
  - concrete_is_list.
Defined.

Lemma operator_assign_strong_guarantee_witness :
  (∃ m' ns,
     operator_assign 4 1000 2000 3000 4000 mem_123_124 = Ret tt m' ∧
     ns.*2 = content_124.*2 ∧ is_list m' 1000 ns ∧
     (∀ l nsl, l ≠ 1000%N → is_list mem_123_124 l nsl → is_list m' l nsl) ∧
     sizes m' !! 3000%N = None ∧ sizes m' !! 4000%N = None)
  ∨
  (∃ e m',
     operator_assign 4 1000 2000 3000 4000 mem_123_124 = Throw e m' ∧
     ¬ can_build content_124.*2 mem_123_124 ∧
     (∀ l nsl, is_list mem_123_124 l nsl → is_list m' l nsl) ∧
     sizes m' !! 3000%N = None ∧ sizes m' !! 4000%N = None).
Proof.
  apply (operator_assign_strong_guarantee mem_123_124 _ 1000 2000 3000 4000
           content_123 content_124 4 world_inv_mem_123_124).
  - concrete_is_list.
  - concrete_is_list.
  - concrete_fresh.
  - concrete_fresh.
  - done.
  - simpl. lia.
  - simpl. lia.
Defined.

Lemma calls_never_fault_witness :
  ∃ m', steps_to (run_call (CallPushFront 1000 (-1)) mem_123) m' ∧ reachable m'.
Proof.
  apply (calls_never_fault mem_123 (CallPushFront 1000 (-1)) reachable_mem_123).
  simpl. unfold live. simpl. by rewrite lookup_singleton_eq.
Defined.

Lemma noexcept_calls_return_witness :
  ∃ m', run_call (CallClear 4 1000) mem_123 = Ret tt m'.
Proof.
  apply (noexcept_calls_return mem_123 (CallClear 4 1000) reachable_mem_123).
  - exists 3. split; [reflexivity|lia].
  - exact I.
Defined.

Lemma InsertAfter_EraseAfter_round_trip_witness :
  (let! _ := InsertAfter 1000 (Iterator 16) 7 in EraseAfter 1000 (Iterator 16))
    mem_123
  = Ret (Iterator (first_addr (drop 1 content_123) nullptr))
        (set_destroyed (λ d, d ++ [7]) mem_123).
Proof.
  apply (InsertAfter_EraseAfter_round_trip mem_123 1000 content_123 1
           (Iterator 16) 7 64 [80; 96; 112]%N).
  - concrete_mem_wf.
  - concrete_is_list.
  - reflexivity.
  - reflexivity.
  - reflexivity.
Defined.

Lemma PushFront_PopFront_round_trip_witness :
  (PushFront 1000 7;; PopFront 1000) mem_123
  = Ret tt (set_destroyed (λ d, d ++ [7]) mem_123).
Proof.
  apply (PushFront_PopFront_round_trip mem_123 1000 content_123 7 64
           [80; 96; 112]%N).
  - concrete_mem_wf.
  - concrete_is_list.
  - reflexivity.
  - reflexivity.
Defined.

Lemma iterators_stay_valid_witness :
  (∀ v a fr,
     free mem_1234 = a :: fr → copy_throws v = false →
     ∃ it m',
       InsertAfter 1000 (Iterator 16) v mem_1234 = Ret it m' ∧
       ∀ b w, (b, w) ∈ content_1234 → iter_deref (Iterator b) m' = Ret w m') ∧
  (∃ it m',
     EraseAfter 1000 (Iterator 16) mem_1234 = Ret it m' ∧
     (∀ k b w, k ≠ 1%nat → content_1234 !! k = Some (b, w) →
               iter_deref (Iterator b) m' = Ret w m') ∧
     (∀ b w, content_1234 !! 1%nat = Some (b, w) →
             iter_deref (Iterator b) m' = Fault)).
Proof.
  apply (iterators_stay_valid mem_1234 1000 content_1234 1 (Iterator 16)).
  - concrete_mem_wf.
  - concrete_is_list.
  - reflexivity.
Defined.

Lemma Clear_releases_witness :
  ∃ m',
    Clear 4 1000 mem_123 = Ret tt m' ∧
    is_list m' 1000 [] ∧ IsEmpty 1000 m' = Ret true m' ∧
    free m' = rev content_123.*1 ++ free mem_123 ∧
    destroyed m' = destroyed mem_123 ++ content_123.*2 ∧
    (∀ a, a ∈ content_123.*1 → nodes m' !! a = None) ∧
    (∀ k, k ∉ footprint 1000 content_123 → nodes m' !! k = nodes mem_123 !! k) ∧
    (∀ l, l ≠ 1000%N → sizes m' !! l = sizes mem_123 !! l) ∧
    mem_wf m'.
Proof.
  apply (Clear_releases mem_123 1000 content_123 4).
  - concrete_mem_wf.
  - concrete_is_list.
  - simpl. lia.
Defined.

Lemma SingleLinkedList_dtor_releases_witness :
  ∃ m' hv,
    SingleLinkedList_dtor 4 1000 mem_123 = Ret tt m' ∧
    nodes mem_123 !! 1000%N = Some (mkNode hv (first_addr content_123 nullptr)) ∧
    sizes m' !! 1000%N = None ∧
    (∀ a, a ∈ footprint 1000 content_123 → nodes m' !! a = None) ∧
    free m' = rev content_123.*1 ++ free mem_123 ∧
    destroyed m' = destroyed mem_123 ++ content_123.*2 ++ [hv] ∧
    (∀ k, k ∉ footprint 1000 content_123 → nodes m' !! k = nodes mem_123 !! k) ∧
    (∀ l, l ≠ 1000%N → sizes m' !! l = sizes mem_123 !! l) ∧
    mem_wf m'.
Proof.
  apply (SingleLinkedList_dtor_releases mem_123 1000 content_123 4).
  - concrete_mem_wf.
  - concrete_is_list.
  - simpl. lia.
Defined.

Lemma SingleLinkedList_init_leaks_witness :
  ∃ m' ns',
    SingleLinkedList_init 1000 ([1; 2] ++ (-1) :: [3]) mem0
    = Throw (if copy_throws (-1) then copy_failure else bad_alloc) m' ∧
    sizes m' !! 1000%N = None ∧ nodes m' !! 1000%N = None ∧
    world_inv m' ∅ ∧
    ns'.*2 = [1; 2] ∧ ns'.*1 = take (length [1; 2]) (free mem0) ∧
    free m' = drop (length [1; 2]) (free mem0) ∧
    seg (nodes m') (first_addr ns' nullptr) ns' nullptr ∧
    (∀ l ns a, is_list m' l ns → a ∈ ns'.*1 → a ∉ footprint l ns).
Proof.
  apply (SingleLinkedList_init_leaks mem0 ∅ 1000 [1; 2] (-1) [3]).
  - apply world_inv_initial. split; [done|]. split; [done|]. concrete_mem_wf.
  - concrete_fresh.
  - by repeat constructor.
  - simpl. lia.
  - by left.
Defined.

Lemma SingleLinkedList_init_dtor_round_trip_witness :
  ∃ m' hv,
    (SingleLinkedList_init 1000 [1; 2; 3];; SingleLinkedList_dtor 4 1000) mem0
    = Ret tt m' ∧
    world_inv m' ∅ ∧ sizes m' !! 1000%N = None ∧
    free m' = rev (take (length [1; 2; 3]) (free mem0))
              ++ drop (length [1; 2; 3]) (free mem0) ∧
    free m' ≡ₚ free mem0 ∧
    destroyed m' = destroyed mem0 ++ [1; 2; 3] ++ [1; 2; 3] ++ [hv].
Proof.
  apply (SingleLinkedList_init_dtor_round_trip mem0 ∅ 1000 [1; 2; 3] 4).
  - apply world_inv_initial. split; [done|]. split; [done|]. concrete_mem_wf.
  - concrete_fresh.
  - split; [by repeat constructor|simpl; lia].
  - simpl. lia.
Defined.

Lemma SingleLinkedList_copy_failure_releases_witness :
  ∃ m',
    SingleLinkedList_copy 5 2000 1000 3000 mem_1234
    = Throw (if copy_throws 4 then copy_failure else bad_alloc) m' ∧
    world_inv m' {[ 1000%N := content_1234 ]} ∧
    sizes m' !! 2000%N = None ∧ sizes m' !! 3000%N = None ∧
    free m' = rev (take 3 (free mem_1234)) ++ drop 3 (free mem_1234) ∧
    free m' ≡ₚ free mem_1234.
Proof.
  apply (SingleLinkedList_copy_failure_releases mem_1234 _ 2000 1000 3000
           [at_ 16 1; at_ 32 2; at_ 48 3] 64 4 [] 5 world_inv_mem_1234).
  - concrete_is_list.
  - concrete_fresh.
  - concrete_fresh.
  - done.
  - simpl. lia.
  - by repeat constructor.
  - simpl. lia.
  - by right.
Defined.

Lemma PushFront_all_reverses_witness :
  ∃ m',
    PushFront_all 1000 [7; 8] mem_123 = Ret tt m' ∧
    traverse 6 1000 m' = Ret (rev [7; 8] ++ content_123.*2) m' ∧
    GetSize 1000 m' = Ret (Z.of_nat (length [7; 8] + length content_123)) m' ∧
    free m' = drop (length [7; 8]) (free mem_123) ∧
    mem_wf m'.
Proof.
  apply (PushFront_all_reverses [7; 8] mem_123 1000 content_123 6).
  - concrete_mem_wf.
  - concrete_is_list.
  - split; [by repeat constructor|simpl; lia].
  - simpl. lia.
Defined.

Lemma ordering_operators_total_witness :
  ∃ lt gt,
    operator_lt 4 1000 2000 mem_123_124 = Ret lt mem_123_124 ∧
    operator_gt 4 1000 2000 mem_123_124 = Ret gt mem_123_124 ∧
    operator_le 4 1000 2000 mem_123_124 = Ret (negb gt) mem_123_124 ∧
    operator_ge 4 1000 2000 mem_123_124 = Ret (negb lt) mem_123_124 ∧
    (lt = true → gt = false) ∧
    (lt = false ∧ gt = false ↔ content_123.*2 = content_124.*2).
Proof.
  apply (ordering_operators_total mem_123_124 1000 2000 content_123 content_124 4).
  - concrete_is_list.
  - concrete_is_list.
  - simpl. lia.
  - simpl. lia.
Defined.

Lemma operator_lt_transitive_witness :
  operator_lt 2 1000 3000 mem_1_2_3 = Ret true mem_1_2_3.
Proof.
  apply (operator_lt_transitive mem_1_2_3 1000 2000 3000
           [at_ 16 1] [at_ 32 2] [at_ 48 3] 2).
  - concrete_is_list.
  - concrete_is_list.
  - concrete_is_list.
  - simpl. lia.
  - simpl. lia.
  - vm_compute. reflexivity.
  - vm_compute. reflexivity.
Defined.

Lemma world_inv_mem_12_123 :
  world_inv mem_12_123
    (<[1000%N := [at_ 16 1; at_ 32 2]]>
       {[ 2000%N := [at_ 48 1; at_ 64 2; at_ 80 3] ]}).
Proof.
  apply world_inv_pair.
  - concrete_mem_wf.
  - concrete_is_list.
  - concrete_is_list.
  - concrete_only.
  - compute_done.
Qed.

Lemma operator_assign_replaces_witness :
  ∃ m' ns,
    operator_assign 4 2000 1000 3000 4000 mem_12_123 = Ret tt m' ∧
    is_list m' 2000 ns ∧ ns.*2 = [1; 2] ∧
    ns.*1 = take 2 (free mem_12_123) ∧
    free m' = rev [48; 64; 80]%N ++ drop 2 (free mem_12_123) ∧
    (∀ a, a ∈ [48; 64; 80]%N → nodes m' !! a = None) ∧
    is_list m' 1000 [at_ 16 1; at_ 32 2].
Proof.
  apply (operator_assign_replaces mem_12_123 _ 2000 1000 3000 4000
           [at_ 48 1; at_ 64 2; at_ 80 3] [at_ 16 1; at_ 32 2] 4
           world_inv_mem_12_123).
  - concrete_is_list.
  - concrete_is_list.
  - done.
  - concrete_fresh.
  - concrete_fresh.
  - done.
  - simpl. lia.
  - simpl. lia.
  - split; [by repeat constructor|simpl; lia].
Defined.
